(** * Whale-discovery pipeline: scoring, normalisation, discovery store,
      rate-limit governor and connection supervisor

    A shallow embedding of the Python scripts under
    [ethixxtradebot/scripts/python] and the properties their specification
    states about them.

    Number model.  Python floats are IEEE binary64 values; they are
    embedded as Rocq's primitive [float], whose operations are the same
    binary64 operations (round to nearest, ties to even), so that every
    comparison and every sum below evaluates to the bits CPython computes.
    One place is read in exact rational arithmetic instead, and says so:
    the wall clock of the rate-limit governor ([time.time()]).  The proof
    that the volume score is monotone on binary64 reads the roundings of
    the float operations in rationals; its statement is about the floats.

    Part I holds the definitions, one module per source file; Part II the
    lemmas and theorems. *)

From Stdlib Require Import ZArith QArith Qround Qpower Floats String Ascii List Lia Lqa.
From stdpp Require Import gmap strings list fin_maps.

Set Warnings "-inexact-float,-register-all".

(* ===================================================================== *)
(** * Part I: the embedding                                               *)
(* ===================================================================== *)

(** ** Python values and builtins used by the scripts *)
Module Py.

(** Exceptions the modelled code can meet. *)
Inductive exn : Type :=
| TypeError | ValueError | IndexError | OverflowError | AttributeError.

(** A computation that returns or raises. *)
Inductive res (A : Type) : Type :=
| Ok (a : A)
| Raise (e : exn).
Arguments Ok {A} a.
Arguments Raise {A} e.

Definition bind {A B : Type} (m : res A) (k : A -> res B) : res B :=
  match m with
  | Ok a => k a
  | Raise e => Raise e
  end.

(** [try: m except: d] with a handler that returns [d]. *)
Definition try_except {A : Type} (m : res A) (d : A) : A :=
  match m with
  | Ok a => a
  | Raise _ => d
  end.

(** What [json.loads] produces.  A [JDict] lists the items of the dict;
    a key occurs at most once and [dict_get] reads the first binding. *)
Inductive json : Type :=
| JNull
| JBool (b : bool)
| JInt (z : Z)
| JFloat (f : float)
| JStr (s : string)
| JList (l : list json)
| JDict (d : list (string * json)).

Fixpoint assoc (key : string) (d : list (string * json)) : option json :=
  match d with
  | [] => None
  | (k, v) :: d' => if String.eqb k key then Some v else assoc key d'
  end.

(** [d.get(key, default)] *)
Definition dict_get (d : list (string * json)) (key : string) (default : json) : json :=
  match assoc key d with
  | Some v => v
  | None => default
  end.

(** [key in d] *)
Definition dict_has (d : list (string * json)) (key : string) : bool :=
  match assoc key d with
  | Some _ => true
  | None => false
  end.

Definition is_none (j : json) : bool :=
  match j with
  | JNull => true
  | _ => false
  end.

(** Truth value of an object in [if x:]. *)
Definition truthy (j : json) : bool :=
  match j with
  | JNull => false
  | JBool b => b
  | JInt z => negb (z =? 0)%Z
  | JFloat f => negb (f =? 0)%float
  | JStr s => negb (String.eqb s "")
  | JList l => match l with [] => false | _ => true end
  | JDict d => match d with [] => false | _ => true end
  end.

(** [seq[i]] for a list: negative indices count from the end. *)
Definition index {A : Type} (l : list A) (i : Z) : res A :=
  let n := Z.of_nat (length l) in
  let j := if (i <? 0)%Z then (n + i)%Z else i in
  if ((0 <=? j)%Z && (j <? n)%Z)%bool then
    match nth_error l (Z.to_nat j) with
    | Some x => Ok x
    | None => Raise IndexError
    end
  else Raise IndexError.

(** [float(n)] for an int: the nearest binary64 value, ties to even;
    [OverflowError] when that is beyond the largest finite float. *)
Definition float_of_int (z : Z) : res float :=
  let f := SF2Prim (binary_normalize prec emax z 0 false) in
  if is_infinity f then Raise OverflowError else Ok f.

(** The builtins whose text handling is not reproduced here: the parser
    behind [float(s)] for a string ([None]: it raises [ValueError]) and
    [str(x)] for a value that is not already a string. *)
Class Builtins : Type := {
  float_of_str : string -> option float;
  repr : json -> string
}.

Section WithBuiltins.
Context {B : Builtins}.

(** [float(x)] *)
Definition float_ (j : json) : res float :=
  match j with
  | JNull => Raise TypeError
  | JBool b => Ok (if b then 1 else 0)%float
  | JInt z => float_of_int z
  | JFloat f => Ok f
  | JStr s =>
      match float_of_str s with
      | Some f => Ok f
      | None => Raise ValueError
      end
  | JList _ | JDict _ => Raise TypeError
  end.

(** [str(x)] *)
Definition str (j : json) : string :=
  match j with
  | JStr s => s
  | _ => repr j
  end.

End WithBuiltins.

(** [needle in hay] for two strings. *)
Fixpoint str_contains (needle hay : string) : bool :=
  match hay with
  | EmptyString => String.prefix needle EmptyString
  | String _ hay' => String.prefix needle hay || str_contains needle hay'
  end.

(** [x == s] for a string [s]. *)
Definition eq_str (x : json) (s : string) : bool :=
  match x with
  | JStr t => String.eqb t s
  | _ => false
  end.

(** [s in x] for a string [s]: substring of a string, element of a list,
    key of a dict; the other values are not containers. *)
Definition str_in (s : string) (x : json) : res bool :=
  match x with
  | JStr t => Ok (str_contains s t)
  | JList l => Ok (existsb (fun y => eq_str y s) l)
  | JDict d => Ok (existsb (fun kv => String.eqb (fst kv) s) d)
  | _ => Raise TypeError
  end.

Definition lower_ascii (c : ascii) : ascii :=
  let n := nat_of_ascii c in
  if ((65 <=? n)%nat && (n <=? 90)%nat)%bool then ascii_of_nat (n + 32) else c.

(** [s.lower()] on ASCII text. *)
Fixpoint lower (s : string) : string :=
  match s with
  | EmptyString => EmptyString
  | String c s' => String (lower_ascii c) (lower s')
  end.

(** [max(a, b)] and [min(a, b)] on floats: the first argument is kept
    unless the second compares strictly beyond it. *)
Definition max (a b : float) : float := if (a <? b)%float then b else a.
Definition min (a b : float) : float := if (b <? a)%float then b else a.

(** [int(x)] for a rational: truncation toward zero. *)
Definition int_of_Q (q : Q) : Z := Z.quot (Qnum q) (Z.pos (Qden q)).

End Py.

Notation "'let!' x ':=' m 'in' k" := (Py.bind m (fun x => k))
  (at level 10, x name, m at level 100, k at level 200).

(** ** [ultimate_whale_discovery.py]: class [WorkingWhaleDiscovery] *)
Module ultimate_whale_discovery.
Import Py.

(** The dataclass [WhaleDiscovery].  The text fields hold whatever the
    token dict held (a dataclass does not check its annotations). *)
Record WhaleDiscovery : Type := {
  timestamp : float;
  whale_address : string;
  token_address : json;
  token_name : json;
  token_ticker : json;
  volume_sol : float;
  market_cap_sol : float;
  liquidity_sol : float;
  platform : json;
  confidence_score : float;
  raw_data : json
}.

(** [existing.confidence_score = confidence]: the one field is
    assigned, the object stays the same otherwise. *)
Definition set_confidence_score (w : WhaleDiscovery) (c : float) : WhaleDiscovery :=
  {| timestamp := timestamp w; whale_address := whale_address w;
     token_address := token_address w; token_name := token_name w;
     token_ticker := token_ticker w; volume_sol := volume_sol w;
     market_cap_sol := market_cap_sol w; liquidity_sol := liquidity_sol w;
     platform := platform w; confidence_score := c; raw_data := raw_data w |}.

(** [self.metrics] *)
Record metrics : Type := {
  messages_received : Z;
  whales_discovered : Z;
  auto_added : Z;
  start_time : float;
  last_whale_time : float
}.

(** The mutable attributes of the object that the pipeline touches:
    [self.discovered_whales], [self.metrics], and the ['wallets'] list of
    [config/tracked-wallets.json], kept here by address (the file
    operations of [auto_add_whale] are taken to succeed). *)
Record state : Type := {
  discovered_whales : gmap string WhaleDiscovery;
  metrics_of : metrics;
  tracked_wallets : list string
}.

(** [__init__] at clock reading [now]. *)
Definition init (now : float) : state :=
  {| discovered_whales := ∅;
     metrics_of := {| messages_received := 0; whales_discovered := 0; auto_added := 0;
                      start_time := now; last_whale_time := 0 |};
     tracked_wallets := [] |}.

(** The token dict built by the two parsers, by key.  The three keys that
    only the room-message parser sets are optional: [.get] supplies
    their default in the scorer.  Keys no modelled code reads
    (['raw_length'], ['pool_id'], ['supply'], ['top_10_holders']) are
    left out. *)
Record token_data : Type := {
  td_timestamp : float;
  td_source : string;
  td_token_address : json;
  td_creator_address : json;
  td_token_name : json;
  td_token_ticker : json;
  td_platform : json;
  td_website : json;
  td_twitter : json;
  td_telegram : json;
  td_volume_sol : float;
  td_market_cap_sol : float;
  td_liquidity_sol : float;
  td_dev_holds_percent : option float;
  td_snipers_hold_percent : option float;
  td_lp_burned : option json
}.

Section WithBuiltins.
Context {B : Builtins}.

(** [safe_extract(array, index, default)] *)
Definition safe_extract (array : list json) (index : Z) (default : string) : string :=
  try_except
    (if (index <? Z.of_nat (length array))%Z then
       let! x := Py.index array index in
       if is_none x then Ok default else Ok (str x)
     else Ok default)
    default.

(** [safe_float_extract(array, index, default)]; the callers leave
    [default] at [0.0]. *)
Definition safe_float_extract (array : list json) (index : Z) (default : float) : float :=
  try_except
    (if (index <? Z.of_nat (length array))%Z then
       let! x := Py.index array index in
       if is_none x then Ok default
       else
         let! val := float_ x in
         Ok (if negb (negb (val =? val)%float) then val else default)
     else Ok default)
    default.

End WithBuiltins.

(** [calculate_whale_confidence(token_data)].  It raises only where
    ['Raydium' in platform] does. *)
Definition calculate_whale_confidence (td : token_data) : res float :=
  let score := 0.0%float in
  let liquidity := td_liquidity_sol td in
  let score :=
    if (1000 <=? liquidity)%float then (score + 0.4)%float
    else if (100 <=? liquidity)%float then (score + 0.3)%float
    else if (10 <=? liquidity)%float then (score + 0.2)%float
    else if (0 <? liquidity)%float then (score + liquidity / 50)%float
    else score in
  let snipers_percent := default 0%float (td_snipers_hold_percent td) in
  let score :=
    if (50 <=? snipers_percent)%float then (score + 0.4)%float
    else if (25 <=? snipers_percent)%float then (score + 0.3)%float
    else if (10 <=? snipers_percent)%float then (score + 0.2)%float
    else if (0 <? snipers_percent)%float then (score + snipers_percent / 100)%float
    else score in
  let dev_percent := default 0%float (td_dev_holds_percent td) in
  let score :=
    if (dev_percent <=? 5)%float then (score + 0.1)%float
    else if (50 <=? dev_percent)%float then (score - 0.2)%float
    else score in
  let score :=
    if truthy (default (JBool false) (td_lp_burned td)) then (score + 0.1)%float else score in
  let platform := td_platform td in
  let! raydium := str_in "Raydium" platform in
  let! trusted := if raydium then Ok true else str_in "Meteora" platform in
  let! score :=
    if trusted then Ok (score + 0.1)%float
    else
      let! pump := str_in "Pump AMM" platform in
      Ok (if pump then (score + 0.05)%float else score) in
  let score := if truthy (td_website td) then (score + 0.05)%float else score in
  let score := if truthy (td_twitter td) then (score + 0.05)%float else score in
  let score := if truthy (td_telegram td) then (score + 0.05)%float else score in
  Ok (Py.min 1.0 (Py.max 0.0 score)).

(** [auto_add_whale(whale)]: one more entry in the tracked-wallets file
    and one more in the counter. *)
Definition auto_add_whale (whale : WhaleDiscovery) (st : state) : state :=
  let m := metrics_of st in
  {| discovered_whales := discovered_whales st;
     metrics_of := {| messages_received := messages_received m;
                      whales_discovered := whales_discovered m;
                      auto_added := auto_added m + 1;
                      start_time := start_time m;
                      last_whale_time := last_whale_time m |};
     tracked_wallets := tracked_wallets st ++ [whale_address whale] |}.

(** The body of [record_whale_discovery] once [whale_address] is known
    to be a string; [now] is the reading of [time.time()]. *)
Definition record_whale (now : float) (whale_address : string) (td : token_data)
    (confidence : float) (raw_data : json) (st : state) : state :=
  match discovered_whales st !! whale_address with
  | Some existing =>
      if (confidence_score existing <? confidence)%float then
        {| discovered_whales :=
             <[whale_address := set_confidence_score existing confidence]> (discovered_whales st);
           metrics_of := metrics_of st;
           tracked_wallets := tracked_wallets st |}
      else st
  | None =>
      let whale :=
        {| timestamp := td_timestamp td;
           whale_address := whale_address;
           token_address := td_token_address td;
           token_name := td_token_name td;
           token_ticker := td_token_ticker td;
           volume_sol := td_volume_sol td;
           market_cap_sol := td_market_cap_sol td;
           liquidity_sol := td_liquidity_sol td;
           platform := td_platform td;
           confidence_score := confidence;
           raw_data := raw_data |} in
      let m := metrics_of st in
      let st' :=
        {| discovered_whales := <[whale_address := whale]> (discovered_whales st);
           metrics_of := {| messages_received := messages_received m;
                            whales_discovered := whales_discovered m + 1;
                            auto_added := auto_added m;
                            start_time := start_time m;
                            last_whale_time := now |};
           tracked_wallets := tracked_wallets st |} in
      if (0.7 <? confidence)%float then auto_add_whale whale st' else st'
  end.

(** [record_whale_discovery(token_data, confidence, raw_data)].  The key
    is [token_data['creator_address']]: a string in every record the
    array parser builds.  A list or a dict there is unhashable and raises
    at the membership test; [None], a bool or a number as a key is outside
    the wallet-keyed store of this model ([Ok None]). *)
Definition record_whale_discovery (now : float) (td : token_data) (confidence : float)
    (raw_data : json) (st : state) : res (option state) :=
  match td_creator_address td with
  | JStr whale_address => Ok (Some (record_whale now whale_address td confidence raw_data st))
  | JList _ | JDict _ => Raise TypeError
  | _ => Ok None
  end.

(** One call of [record_whale_discovery] for a creator address that is a
    string: the arguments and the clock reading. *)
Record scored_event : Type := {
  ev_now : float;
  ev_wallet : string;
  ev_token_data : token_data;
  ev_confidence : float;
  ev_raw_data : json
}.

(** The calls of a run, in order. *)
Definition record_all (events : list scored_event) (st : state) : state :=
  fold_left
    (fun s ev =>
       record_whale (ev_now ev) (ev_wallet ev) (ev_token_data ev) (ev_confidence ev)
         (ev_raw_data ev) s)
    events st.

(** The magnitude heuristic of [process_token_array]: one round of the
    loop over [financial_values]. *)
Definition assign_metric (acc : float * float * float) (iv : Z * float) : float * float * float :=
  let '(volume, market_cap, liquidity) := acc in
  let val := snd iv in
  if (10000 <? val)%float then
    if (volume =? 0)%float then (val, market_cap, liquidity)
    else if (market_cap =? 0)%float then (volume, val, liquidity)
    else acc
  else if (100 <? val)%float then
    if (liquidity =? 0)%float then (volume, market_cap, val) else acc
  else acc.

(** (volume_sol, market_cap_sol, liquidity_sol) after the loop. *)
Definition assign_financial_metrics (financial_values : list (Z * float)) : float * float * float :=
  fold_left assign_metric financial_values (0%float, 0%float, 0%float).

Definition financial_candidates : list Z :=
  [13; 14; 15; 16; 17; 18; 19; 20; 21; 22; 23; 24]%Z.

Section WithBuiltins.
Context {B : Builtins}.

(** What [safe_float_extract] reads at the candidate positions. *)
Definition candidate_values (token_array : list json) : list float :=
  map (fun idx => safe_float_extract token_array idx 0.0) financial_candidates.

(** The first loop of [process_token_array]: the positive candidates,
    with their index, in the order met. *)
Definition financial_values (token_array : list json) : list (Z * float) :=
  flat_map
    (fun idx =>
       let val := safe_float_extract token_array idx 0.0 in
       if (0 <? val)%float then [(idx, val)] else [])
    financial_candidates.

(** The token dict [process_token_array] builds. *)
Definition token_data_of_array (now : float) (source : string) (token_array : list json) : token_data :=
  let '(volume, market_cap, liquidity) := assign_financial_metrics (financial_values token_array) in
  {| td_timestamp := now;
     td_source := source;
     td_token_address := JStr (safe_extract token_array 1 "");
     td_creator_address := JStr (safe_extract token_array 2 "");
     td_token_name := JStr (safe_extract token_array 3 "Unknown");
     td_token_ticker := JStr (safe_extract token_array 4 "UNKNOWN");
     td_platform := JStr (safe_extract token_array 7 "Unknown");
     td_website := JStr (safe_extract token_array 9 "");
     td_twitter := JStr (safe_extract token_array 10 "");
     td_telegram := JStr (safe_extract token_array 11 "");
     td_volume_sol := volume;
     td_market_cap_sol := market_cap;
     td_liquidity_sol := liquidity;
     td_dev_holds_percent := None;
     td_snipers_hold_percent := None;
     td_lp_burned := None |}.

(** [process_token_array(token_array, source)]: the body runs under
    [try ... except Exception], whose handler only logs.  [None] is the
    out-of-model case of [record_whale_discovery]. *)
Definition process_token_array (now : float) (token_array : list json) (source : string)
    (st : state) : option state :=
  if (length token_array <? 10)%nat then Some st
  else
    let td := token_data_of_array now source token_array in
    try_except
      (let! confidence := calculate_whale_confidence td in
       if (0.4 <? confidence)%float then
         record_whale_discovery now td confidence (JList token_array) st
       else Ok (Some st))
      (Some st).

(** The local [safe_get_float(data, key, default)] of
    [process_sdk_new_pairs]: it handles [ValueError] and [TypeError]
    only. *)
Definition safe_get_float (data : list (string * json)) (key : string) (default : float) : res float :=
  let value := dict_get data key (JFloat default) in
  if is_none value then Ok default
  else
    match float_ value with
    | Ok f => Ok f
    | Raise ValueError | Raise TypeError => Ok default
    | Raise e => Raise e
    end.

(** The token dict [process_sdk_new_pairs] builds for one token. *)
Definition token_data_of_sdk (now : float) (source : string) (token : list (string * json)) : res token_data :=
  let! liquidity := safe_get_float token "initial_liquidity_sol" 0.0 in
  let! _supply := safe_get_float token "supply" 0.0 in
  let! dev := safe_get_float token "dev_holds_percent" 0.0 in
  let! snipers := safe_get_float token "snipers_hold_percent" 0.0 in
  Ok {| td_timestamp := now;
        td_source := source;
        td_token_address := dict_get token "token_address" (JStr "");
        td_creator_address := dict_get token "deployer_address" (JStr "");
        td_token_name := dict_get token "token_name" (JStr "Unknown");
        td_token_ticker := dict_get token "token_ticker" (JStr "UNKNOWN");
        td_platform := dict_get token "protocol" (JStr "Unknown");
        td_website := dict_get token "website" (JStr "");
        td_twitter := dict_get token "twitter" (JStr "");
        td_telegram := dict_get token "telegram" (JStr "");
        td_volume_sol := 0;
        td_market_cap_sol := 0;
        td_liquidity_sol := liquidity;
        td_dev_holds_percent := Some dev;
        td_snipers_hold_percent := Some snipers;
        td_lp_burned := Some (dict_get token "lp_burned" (JBool false)) |}.

(** One round of the loop of [process_sdk_new_pairs] on a dict. *)
Definition process_sdk_token (now : float) (source : string) (token : list (string * json))
    (st : state) : res (option state) :=
  let! td := token_data_of_sdk now source token in
  let! confidence := calculate_whale_confidence td in
  if (0.4 <? confidence)%float then
    record_whale_discovery now td confidence (JDict token) st
  else Ok (Some st).

(** The loop of [process_sdk_new_pairs]: a token that is not a dict is
    skipped; an exception leaves the loop for the handler, which logs. *)
Fixpoint sdk_tokens_loop (now : float) (source : string) (tokens : list json) (st : state)
    : option state :=
  match tokens with
  | [] => Some st
  | JDict token :: rest =>
      match process_sdk_token now source token st with
      | Ok (Some st') => sdk_tokens_loop now source rest st'
      | Ok None => None
      | Raise _ => Some st
      end
  | _ :: rest => sdk_tokens_loop now source rest st
  end.

(** [process_sdk_new_pairs(tokens, source)] *)
Definition process_sdk_new_pairs (now : float) (tokens : json) (source : string) (st : state)
    : option state :=
  let tokens := match tokens with JList l => l | t => [t] end in
  sdk_tokens_loop now source tokens st.

(** [handle_structured_message(data, endpoint)]: what is not logging is
    the nested array under ['data']. *)
Definition handle_structured_message (now : float) (data : list (string * json))
    (endpoint : string) (st : state) : option state :=
  if dict_has data "type" then
    match assoc "data" data with
    | Some (JList l) => process_token_array now l (endpoint ++ "-nested") st
    | _ => Some st
    end
  else Some st.

(** [parse_real_message(raw_message, endpoint, msg_num)], from the result
    of [json.loads]: [None] when it raises [JSONDecodeError]
    ([handle_non_json_data] logs).  [process_sdk_wallet_transaction] only
    logs, under its own handler.  The outer handler of the function
    logs. *)
Definition parse_real_message (now : float) (data : option json) (endpoint : string)
    (st : state) : option state :=
  match data with
  | None => Some st
  | Some (JDict d) =>
      if (eq_str (dict_get d "room" JNull) "new_pairs" && dict_has d "content")%bool then
        process_sdk_new_pairs now (dict_get d "content" JNull) endpoint st
      else
        match dict_get d "room" (JStr "") with
        | JStr room =>
            if (String.prefix "v:" room && dict_has d "content")%bool then Some st
            else handle_structured_message now d endpoint st
        | _ => Some st
        end
  | Some (JList l) =>
      if (25 <? length l)%nat then process_token_array now l endpoint st
      else Some st
  | Some _ => Some st
  end.

(** One round of [listen_for_real_data]: the message is counted, then
    parsed. *)
Definition listen_step (now : float) (data : option json) (endpoint : string) (st : state)
    : option state :=
  let m := metrics_of st in
  parse_real_message now data endpoint
    {| discovered_whales := discovered_whales st;
       metrics_of := {| messages_received := messages_received m + 1;
                        whales_discovered := whales_discovered m;
                        auto_added := auto_added m;
                        start_time := start_time m;
                        last_whale_time := last_whale_time m |};
       tracked_wallets := tracked_wallets st |}.

End WithBuiltins.

(** *** The connection loop [websocket_connection_handler] *)

(** How one pass through the [try] block ends: the connection was made
    and [listen_for_real_data] returned (it handles its own exceptions),
    or one of the handled exceptions was raised. *)
Inductive attempt_outcome : Type :=
| Listened
| TimeoutError
| InvalidStatusCode (status_code : Z)
| ConnectionClosed
| OtherException.

(** What the environment supplies for one round of the loop:
    [self.running] at the [while] test, the outcome of the [try] block,
    and [self.running] at the [if] after it. *)
Record round : Type := {
  running_at_test : bool;
  outcome : attempt_outcome;
  running_after : bool
}.

(** What the handler does, in order. *)
Inductive action : Type :=
| Connect (attempt : Z)
| RefreshAuthentication
| Sleep (wait_time : Z)
| MaxRetriesExceeded.

Definition max_retries : Z := 10.

(** [retry_count] after the [try] block; [None] is the [break] on 403. *)
Definition retry_count_after (retry_count : Z) (o : attempt_outcome) : option Z :=
  match o with
  | Listened => Some retry_count
  | TimeoutError => Some (retry_count + 1)
  | InvalidStatusCode c =>
      if (c =? 403)%Z then None else Some (retry_count + 1)
  | ConnectionClosed => Some (retry_count + 1)
  | OtherException => Some (retry_count + 1)
  end%Z.

(** The [while] loop from a given [retry_count], over the rounds the
    environment supplies, closed by the statement after the loop.  The
    test [retry_count < max_retries] needs nothing from the environment;
    when the rounds run out below the cap the loop is still waiting.
    After the [break] the closing test cannot hold. *)
Fixpoint connection_loop (retry_count : Z) (rounds : list round) : list action :=
  if (max_retries <=? retry_count)%Z then [MaxRetriesExceeded]
  else
    match rounds with
    | [] => []
    | r :: rest =>
        if running_at_test r then
          Connect (retry_count + 1) ::
          (match outcome r with
           | InvalidStatusCode 401 => [RefreshAuthentication]
           | _ => []
           end) ++
          match retry_count_after retry_count (outcome r) with
          | None => []
          | Some retry_count' =>
              (if ((retry_count' <? max_retries)%Z && running_after r)%bool
               then [Sleep (Z.min (2 ^ retry_count') 60)] else []) ++
              connection_loop retry_count' rest
          end
        else []
    end.

(** [websocket_connection_handler(url, headers, endpoint)] *)
Definition websocket_connection_handler (rounds : list round) : list action :=
  connection_loop 0 rounds.

(** The number of connection attempts in a trace. *)
Definition attempts (trace : list action) : nat :=
  length (List.filter (fun a => match a with Connect _ => true | _ => false end) trace).

(** A round that ends in a connection timeout, and one that ends in a
    reset, while the system keeps running. *)
Definition timeout_round : round :=
  {| running_at_test := true; outcome := TimeoutError; running_after := true |}.

Definition reset_round : round :=
  {| running_at_test := true; outcome := ConnectionClosed; running_after := true |}.

Definition is_timeout_or_reset (r : round) : bool :=
  running_at_test r && running_after r &&
  match outcome r with
  | TimeoutError | ConnectionClosed => true
  | _ => false
  end.

(** A round in which the connection is made and [listen_for_real_data]
    returns (it handles the close of the connection itself), while the
    system keeps running. *)
Definition listened_round : round :=
  {| running_at_test := true; outcome := Listened; running_after := true |}.

(** The waits of a trace, in order. *)
Definition sleeps (trace : list action) : list Z :=
  flat_map (fun a => match a with Sleep w => [w] | _ => [] end) trace.

(** The rounds of an environment whose [try] block ends in [Listened]. *)
Definition listened (rounds : list round) : nat :=
  length (List.filter (fun r => match outcome r with Listened => true | _ => false end) rounds).

(** A round the loop outlives whatever [retry_count] is below the cap:
    the system keeps running, and the [try] block ends in a connection
    that was listened to, in a timeout or in a reset. *)
Definition is_listened_timeout_or_reset (r : round) : bool :=
  running_at_test r && running_after r &&
  match outcome r with
  | Listened | TimeoutError | ConnectionClosed => true
  | _ => false
  end.

(** The rounds of an environment whose [try] block raises. *)
Definition failures (rounds : list round) : nat :=
  length (List.filter (fun r => match outcome r with Listened => false | _ => true end) rounds).

(** *** Runs of the listener *)

(** What the environment supplies for one round of
    [listen_for_real_data]: the clock reading and the result of
    [json.loads] on the frame ([None] when it raises). *)
Record frame : Type := {
  fr_now : float;
  fr_data : option json
}.

Section WithBuiltins.
Context {B : Builtins}.

(** The [async for] loop of [listen_for_real_data] over the frames
    received. *)
Fixpoint listen_all (frames : list frame) (endpoint : string) (st : state) : option state :=
  match frames with
  | [] => Some st
  | f :: rest =>
      match listen_step (fr_now f) (fr_data f) endpoint st with
      | Some st' => listen_all rest endpoint st'
      | None => None
      end
  end.

End WithBuiltins.

(** [st'] is reached from [st] by calls of the body of
    [record_whale_discovery] alone, each with a confidence above the
    recording threshold 0.4 and at most 1. *)
Inductive records_only : state -> state -> Prop :=
| records_none (st : state) : records_only st st
| records_more (st st' : state) (now : float) (w : string) (td : token_data) (c : float)
    (raw : json) :
    (0.4 <? c)%float = true ->
    (c <=? 1)%float = true ->
    records_only (record_whale now w td c raw st) st' ->
    records_only st st'.

(** What the store and its two counters keep between calls. *)
Definition store_invariant (st : state) : Prop :=
  whales_discovered (metrics_of st) = Z.of_nat (size (discovered_whales st)) /\
  auto_added (metrics_of st) = Z.of_nat (length (tracked_wallets st)) /\
  NoDup (tracked_wallets st) /\
  (forall w rec, discovered_whales st !! w = Some rec ->
     whale_address rec = w /\
     (0.4 <? confidence_score rec)%float = true /\
     (confidence_score rec <=? 1)%float = true) /\
  (forall w, In w (tracked_wallets st) ->
     exists rec, discovered_whales st !! w = Some rec /\
                 (0.7 <? confidence_score rec)%float = true).

(** A record and what a later state holds for the same wallet: the same
    record, or the same with a strictly greater score. *)
Definition same_or_raised (rec rec' : WhaleDiscovery) : Prop :=
  rec' = rec \/
  (rec' = set_confidence_score rec (confidence_score rec') /\
   (confidence_score rec <? confidence_score rec')%float = true).

(** The part of the array parser's decision that the platform and the
    social links make: the platform names ['Raydium'] or ['Meteora'], or
    it names ['Pump AMM']; the number of non-empty links among website,
    twitter and telegram. *)
Definition trusted_platform (td : token_data) : bool :=
  match td_platform td with
  | JStr p => str_contains "Raydium" p || str_contains "Meteora" p
  | _ => false
  end.

Definition pump_platform (td : token_data) : bool :=
  match td_platform td with
  | JStr p => str_contains "Pump AMM" p
  | _ => false
  end.

Definition social_links (td : token_data) : nat :=
  ((if truthy (td_website td) then 1 else 0) +
   (if truthy (td_twitter td) then 1 else 0) +
   (if truthy (td_telegram td) then 1 else 0))%nat.

(** The decision table of the array parser, in terms of the liquidity
    the magnitude heuristic assigned: when the token is recorded, and
    when a wallet seen for the first time is promoted. *)
Definition array_recorded (td : token_data) : bool :=
  (100 <? td_liquidity_sol td)%float &&
  ((1000 <=? td_liquidity_sol td)%float || trusted_platform td || pump_platform td
   || (1 <=? social_links td)%nat).

Definition array_promoted (td : token_data) : bool :=
  (1000 <=? td_liquidity_sol td)%float &&
  ((trusted_platform td && (2 <=? social_links td)%nat)
   || (pump_platform td && (3 <=? social_links td)%nat)).

(** A token dict with 0 in the place of a NaN liquidity and of a NaN
    snipers percentage. *)
Definition zero_if_nan (v : float) : float := if is_nan v then 0%float else v.

Definition without_nan (td : token_data) : token_data :=
  {| td_timestamp := td_timestamp td;
     td_source := td_source td;
     td_token_address := td_token_address td;
     td_creator_address := td_creator_address td;
     td_token_name := td_token_name td;
     td_token_ticker := td_token_ticker td;
     td_platform := td_platform td;
     td_website := td_website td;
     td_twitter := td_twitter td;
     td_telegram := td_telegram td;
     td_volume_sol := td_volume_sol td;
     td_market_cap_sol := td_market_cap_sol td;
     td_liquidity_sol := zero_if_nan (td_liquidity_sol td);
     td_dev_holds_percent := td_dev_holds_percent td;
     td_snipers_hold_percent := option_map zero_if_nan (td_snipers_hold_percent td);
     td_lp_burned := td_lp_burned td |}.

(** A [new_pairs] token whose ['protocol'] is not text, a list or a
    dict: [None], a bool or a number. *)
Definition unreadable_protocol (token : list (string * json)) : bool :=
  match dict_get token "protocol" (JStr "Unknown") with
  | JNull | JBool _ | JInt _ | JFloat _ => true
  | _ => false
  end.

End ultimate_whale_discovery.

(** ** [enhanced_whale_discovery.py]: class [EnhancedWhaleDiscovery] *)
Module enhanced_whale_discovery.
Import Py.

(** The dataclass [WhaleDiscovery], typed as annotated. *)
Record WhaleDiscovery : Type := {
  wallet_address : string;
  token_name : string;
  token_ticker : string;
  token_address : string;
  market_cap_sol : float;
  volume_sol : float;
  liquidity_sol : float;
  price_sol : float;
  platform : string;
  verified_contract : bool;
  confidence_score : float;
  discovery_timestamp : string;
  auto_added : bool;
  raw_data : json
}.

Definition set_confidence_score (w : WhaleDiscovery) (c : float) : WhaleDiscovery :=
  {| wallet_address := wallet_address w; token_name := token_name w;
     token_ticker := token_ticker w; token_address := token_address w;
     market_cap_sol := market_cap_sol w; volume_sol := volume_sol w;
     liquidity_sol := liquidity_sol w; price_sol := price_sol w;
     platform := platform w; verified_contract := verified_contract w;
     confidence_score := c; discovery_timestamp := discovery_timestamp w;
     auto_added := auto_added w; raw_data := raw_data w |}.

Definition set_auto_added (w : WhaleDiscovery) : WhaleDiscovery :=
  {| wallet_address := wallet_address w; token_name := token_name w;
     token_ticker := token_ticker w; token_address := token_address w;
     market_cap_sol := market_cap_sol w; volume_sol := volume_sol w;
     liquidity_sol := liquidity_sol w; price_sol := price_sol w;
     platform := platform w; verified_contract := verified_contract w;
     confidence_score := confidence_score w; discovery_timestamp := discovery_timestamp w;
     auto_added := true; raw_data := raw_data w |}.

(** The two thresholds of [self.config]. *)
Record config : Type := {
  discovery_threshold : float;
  auto_add_threshold : float
}.

Definition default_config : config :=
  {| discovery_threshold := 0.25; auto_add_threshold := 0.45 |}.

(** [self.discovered_whales], the two counters of [self.metrics] that
    the store moves, and the ['wallets'] list of the tracked-wallets file
    by address (its file operations are taken to succeed). *)
Record state : Type := {
  discovered_whales : gmap string WhaleDiscovery;
  whales_discovered : Z;
  auto_added_count : Z;
  tracked_wallets : list string
}.

Definition init : state :=
  {| discovered_whales := ∅; whales_discovered := 0; auto_added_count := 0;
     tracked_wallets := [] |}.

(** [auto_add_whale(whale)].  [whale] is the object that was just stored
    under [wallet], so [whale.auto_added = True] shows in the store. *)
Definition auto_add_whale (wallet : string) (st : state) : state :=
  {| discovered_whales := alter set_auto_added wallet (discovered_whales st);
     whales_discovered := whales_discovered st;
     auto_added_count := auto_added_count st + 1;
     tracked_wallets := tracked_wallets st ++ [wallet] |}.

(** [process_whale_discovery(whale)] *)
Definition process_whale_discovery (cfg : config) (whale : WhaleDiscovery) (st : state) : state :=
  let wallet := wallet_address whale in
  match discovered_whales st !! wallet with
  | Some existing =>
      if (confidence_score existing <? confidence_score whale)%float then
        {| discovered_whales :=
             <[wallet := set_confidence_score existing (confidence_score whale)]>
               (discovered_whales st);
           whales_discovered := whales_discovered st;
           auto_added_count := auto_added_count st;
           tracked_wallets := tracked_wallets st |}
      else st
  | None =>
      let st' :=
        {| discovered_whales := <[wallet := whale]> (discovered_whales st);
           whales_discovered := whales_discovered st + 1;
           auto_added_count := auto_added_count st;
           tracked_wallets := tracked_wallets st |} in
      if (auto_add_threshold cfg <=? confidence_score whale)%float
      then auto_add_whale wallet st' else st'
  end.

(** A run of the store over the whales handed to it, in order. *)
Definition process_all (cfg : config) (whales : list WhaleDiscovery) (st : state) : state :=
  fold_left (fun s w => process_whale_discovery cfg w s) whales st.

(** The promotions of a run are the entries of the tracked-wallets file:
    they are counted by [auto_added_count], every promoted wallet has a
    record, and no wallet is promoted twice. *)
Definition promotion_invariant (st : state) : Prop :=
  NoDup (tracked_wallets st) /\
  (forall w, In w (tracked_wallets st) -> is_Some (discovered_whales st !! w)) /\
  auto_added_count st = Z.of_nat (length (tracked_wallets st)).

(** *** The array parser and the scorer *)

(** [int(x)] for a float: truncation toward zero; [ValueError] for NaN
    and [OverflowError] for an infinity. *)
Definition int_of_float (f : float) : res Z :=
  match Prim2SF f with
  | S754_zero _ => Ok 0%Z
  | S754_infinity _ => Raise OverflowError
  | S754_nan => Raise ValueError
  | S754_finite s m e =>
      let v := if (0 <=? e)%Z then (Z.pos m * 2 ^ e)%Z else Z.quot (Z.pos m) (2 ^ (- e)) in
      Ok (if s then (- v)%Z else v)
  end.

(** [self.config['trusted_platforms']] *)
Definition trusted_platforms : list string :=
  ["Raydium CLMM"; "Raydium V4"; "Virtual Curve"]%string.

(** [is_verified_platform(platform)]: membership in the list. *)
Definition is_verified_platform (platform : string) : bool :=
  existsb (String.eqb platform) trusted_platforms.

Section WithBuiltins.
Context {B : Builtins}.

(** [safe_string(value)], with its default [""]. *)
Definition safe_string (value : json) : string :=
  if is_none value then EmptyString else str value.

(** [safe_int(value)], with its default [0]; the bare [except] takes
    every exception. *)
Definition safe_int (value : json) : Z :=
  try_except
    (if is_none value then Ok 0%Z
     else let! f := float_ value in int_of_float f)
    0%Z.

(** [safe_float(value)], with its default [0.0]. *)
Definition safe_float (value : json) : float :=
  try_except (if is_none value then Ok 0.0%float else float_ value) 0.0%float.

End WithBuiltins.

(** The token dict [parse_token_array] builds, by key. *)
Record token_data : Type := {
  td_pool_id : json;
  td_token_address : json;
  td_creator_address : json;
  td_token_name : string;
  td_token_ticker : string;
  td_image_url : string;
  td_decimals : Z;
  td_platform : string;
  td_website : string;
  td_twitter : string;
  td_telegram : string;
  td_price_sol : float;
  td_volume_sol : float;
  td_market_cap_sol : float;
  td_liquidity_sol : float;
  td_verified_contract : bool;
  td_creation_timestamp : Z
}.

(** The same dict as a value, as [raw_data=token_data] stores it. *)
Definition token_dict (td : token_data) : json :=
  JDict [("pool_id", td_pool_id td);
         ("token_address", td_token_address td);
         ("creator_address", td_creator_address td);
         ("token_name", JStr (td_token_name td));
         ("token_ticker", JStr (td_token_ticker td));
         ("image_url", JStr (td_image_url td));
         ("decimals", JInt (td_decimals td));
         ("platform", JStr (td_platform td));
         ("website", JStr (td_website td));
         ("twitter", JStr (td_twitter td));
         ("telegram", JStr (td_telegram td));
         ("price_sol", JFloat (td_price_sol td));
         ("volume_sol", JFloat (td_volume_sol td));
         ("market_cap_sol", JFloat (td_market_cap_sol td));
         ("liquidity_sol", JFloat (td_liquidity_sol td));
         ("verified_contract", JBool (td_verified_contract td));
         ("creation_timestamp", JInt (td_creation_timestamp td))]%string.

(** [calculate_enhanced_whale_score(token_data)] on binary64. *)
Definition calculate_enhanced_whale_score (td : token_data) : float :=
  let volume_sol := td_volume_sol td in
  let volume_score :=
    if (10000 <=? volume_sol)%float then 1.0%float
    else if (1000 <=? volume_sol)%float then (0.8 + (volume_sol - 1000) / 45000)%float
    else if (100 <=? volume_sol)%float then (0.5 + (volume_sol - 100) / 4500)%float
    else (volume_sol / 200)%float in
  let market_cap_score := Py.min 1.0 (td_market_cap_sol td / 5000)%float in
  let liquidity_score := Py.min 1.0 (td_liquidity_sol td / 1000)%float in
  let platform_score := if td_verified_contract td then 0.2%float else 0.0%float in
  let social_score := 0.0%float in
  let social_score :=
    if truthy (JStr (td_website td)) then (social_score + 0.05)%float else social_score in
  let social_score :=
    if truthy (JStr (td_twitter td)) then (social_score + 0.05)%float else social_score in
  let social_score :=
    if truthy (JStr (td_telegram td)) then (social_score + 0.05)%float else social_score in
  let final_score :=
    (volume_score * 0.6 + market_cap_score * 0.2 + liquidity_score * 0.1
     + platform_score + social_score)%float in
  Py.min 1.0 final_score.

(** A token dict with 5000 in the place of a NaN market cap and 1000 in
    the place of a NaN liquidity: the amounts from which the two
    sub-scores are full. *)
Definition nan_as_full (td : token_data) : token_data :=
  {| td_pool_id := td_pool_id td;
     td_token_address := td_token_address td;
     td_creator_address := td_creator_address td;
     td_token_name := td_token_name td;
     td_token_ticker := td_token_ticker td;
     td_image_url := td_image_url td;
     td_decimals := td_decimals td;
     td_platform := td_platform td;
     td_website := td_website td;
     td_twitter := td_twitter td;
     td_telegram := td_telegram td;
     td_price_sol := td_price_sol td;
     td_volume_sol := td_volume_sol td;
     td_market_cap_sol :=
       if is_nan (td_market_cap_sol td) then 5000%float else td_market_cap_sol td;
     td_liquidity_sol :=
       if is_nan (td_liquidity_sol td) then 1000%float else td_liquidity_sol td;
     td_verified_contract := td_verified_contract td;
     td_creation_timestamp := td_creation_timestamp td |}.

(** [process_parsed_token(token_data)] on a dict of [parse_token_array];
    [now_iso] is [datetime.now().isoformat()].  The body runs under
    [try ... except Exception], whose handler logs: a list or a dict as
    creator address is unhashable and raises at the membership test of
    [process_whale_discovery].  Any other address or token address that is
    not a string is outside the string-typed record of this model
    ([None]). *)
Definition process_parsed_token (cfg : config) (now_iso : string) (td : token_data) (st : state)
    : option state :=
  let confidence := calculate_enhanced_whale_score td in
  if (discovery_threshold cfg <=? confidence)%float then
    match td_creator_address td, td_token_address td with
    | JList _, _ | JDict _, _ => Some st
    | JStr wallet, JStr token =>
        Some (process_whale_discovery cfg
                {| wallet_address := wallet;
                   token_name := td_token_name td;
                   token_ticker := td_token_ticker td;
                   token_address := token;
                   market_cap_sol := td_market_cap_sol td;
                   volume_sol := td_volume_sol td;
                   liquidity_sol := td_liquidity_sol td;
                   price_sol := td_price_sol td;
                   platform := td_platform td;
                   verified_contract := td_verified_contract td;
                   confidence_score := confidence;
                   discovery_timestamp := now_iso;
                   auto_added := false;
                   raw_data := token_dict td |} st)
    | _, _ => None
    end
  else Some st.

Section WithBuiltins.
Context {B : Builtins}.

(** The element at a position that the length test has shown to exist. *)
Definition item (token_array : list json) (i : nat) : json :=
  nth i token_array JNull.

(** The dict literal of [parse_token_array]. *)
Definition token_data_of_array (token_array : list json) : token_data :=
  {| td_pool_id := item token_array 0;
     td_token_address := item token_array 1;
     td_creator_address := item token_array 2;
     td_token_name := safe_string (item token_array 3);
     td_token_ticker := safe_string (item token_array 4);
     td_image_url := safe_string (item token_array 5);
     td_decimals := safe_int (item token_array 6);
     td_platform := safe_string (item token_array 7);
     td_website := safe_string (item token_array 9);
     td_twitter := safe_string (item token_array 10);
     td_telegram := safe_string (item token_array 11);
     td_price_sol := safe_float (item token_array 15);
     td_volume_sol := safe_float (item token_array 17);
     td_market_cap_sol := safe_float (item token_array 18);
     td_liquidity_sol := safe_float (item token_array 19);
     td_verified_contract := is_verified_platform (safe_string (item token_array 7));
     td_creation_timestamp :=
       safe_int (if (25 <? length token_array)%nat then item token_array 25 else JInt 0) |}.

(** [parse_token_array(token_array)] *)
Definition parse_token_array (cfg : config) (now_iso : string) (token_array : list json)
    (st : state) : option state :=
  if (length token_array <? 25)%nat then Some st
  else process_parsed_token cfg now_iso (token_data_of_array token_array) st.

(** The arrays of a run, each with the clock text of its call. *)
Fixpoint parse_all (cfg : config) (arrays : list (string * list json)) (st : state)
    : option state :=
  match arrays with
  | [] => Some st
  | (now_iso, token_array) :: rest =>
      match parse_token_array cfg now_iso token_array st with
      | Some st' => parse_all cfg rest st'
      | None => None
      end
  end.

End WithBuiltins.

(** What the store keeps between calls of [parse_token_array]: a record
    sits under its own address with a score between the discovery
    threshold and 1, its [auto_added] flag says whether the wallet is
    among the tracked ones, and a flagged record has a score at or above
    the auto-add threshold. *)
Definition store_invariant (cfg : config) (st : state) : Prop :=
  whales_discovered st = Z.of_nat (size (discovered_whales st)) /\
  (forall w rec, discovered_whales st !! w = Some rec ->
     wallet_address rec = w /\
     (discovery_threshold cfg <=? confidence_score rec)%float = true /\
     (confidence_score rec <=? 1)%float = true /\
     (auto_added rec = true <-> In w (tracked_wallets st)) /\
     (auto_added rec = true ->
      (auto_add_threshold cfg <=? confidence_score rec)%float = true)).

End enhanced_whale_discovery.

(** ** [final_production_whale_discovery.py]: class [FinalProductionWhaleSystem] *)
Module final_production_whale_discovery.
Import Py.

Record FinalWhaleDiscovery : Type := {
  wallet_address : string;
  token_name : string;
  token_ticker : string;
  token_address : string;
  volume_sol : float;
  confidence_score : float;
  discovery_timestamp : string;
  source_endpoint : string;
  raw_data : list json
}.

(** The token dict of [parse_final_token_array]: every value went
    through [str] or [float]. *)
Record token_data : Type := {
  td_token_address : string;
  td_creator_address : string;
  td_token_name : string;
  td_token_ticker : string;
  td_volume_sol : float;
  td_platform : string
}.

Record state : Type := {
  discovered_whales : gmap string FinalWhaleDiscovery;
  whales_discovered : Z;
  auto_added : Z;
  tracked_wallets : list string
}.

(** [calculate_final_score(token_data)] on binary64. *)
Definition calculate_final_score (td : token_data) : float :=
  let volume_sol := td_volume_sol td in
  if (10000 <=? volume_sol)%float then 1.0%float
  else if (1000 <=? volume_sol)%float then (0.8 + (volume_sol - 1000) / 45000)%float
  else if (100 <=? volume_sol)%float then (0.5 + (volume_sol - 100) / 4500)%float
  else (volume_sol / 200)%float.

(** The score of a volume: the other keys of the dict are not read. *)
Definition score_of_volume (volume_sol : float) : float :=
  calculate_final_score
    {| td_token_address := ""; td_creator_address := ""; td_token_name := "";
       td_token_ticker := ""; td_volume_sol := volume_sol; td_platform := "" |}.

(** The three arithmetic branches, by name. *)
Definition upper_branch (v : float) : float := (0.8 + (v - 1000) / 45000)%float.
Definition middle_branch (v : float) : float := (0.5 + (v - 100) / 4500)%float.
Definition lower_branch (v : float) : float := (v / 200)%float.

(** [auto_add_final_whale(whale)] *)
Definition auto_add_final_whale (whale : FinalWhaleDiscovery) (st : state) : state :=
  {| discovered_whales := discovered_whales st;
     whales_discovered := whales_discovered st;
     auto_added := auto_added st + 1;
     tracked_wallets := tracked_wallets st ++ [wallet_address whale] |}.

(** [discover_final_whale(token_data, source, raw_array)]; [now_iso] is
    [datetime.now().isoformat()]. *)
Definition discover_final_whale (now_iso : string) (td : token_data) (source : string)
    (raw_array : list json) (st : state) : state :=
  let wallet := td_creator_address td in
  match discovered_whales st !! wallet with
  | Some _ => st
  | None =>
      let whale :=
        {| wallet_address := wallet;
           token_name := td_token_name td;
           token_ticker := td_token_ticker td;
           token_address := td_token_address td;
           volume_sol := td_volume_sol td;
           confidence_score := calculate_final_score td;
           discovery_timestamp := now_iso;
           source_endpoint := source;
           raw_data := raw_array |} in
      let st' :=
        {| discovered_whales := <[wallet := whale]> (discovered_whales st);
           whales_discovered := whales_discovered st + 1;
           auto_added := auto_added st;
           tracked_wallets := tracked_wallets st |} in
      if (0.45 <=? confidence_score whale)%float then auto_add_final_whale whale st' else st'
  end.

Section WithBuiltins.
Context {B : Builtins}.

(** [str(token_array[i]) if len(token_array) > i else ''] *)
Definition str_at (token_array : list json) (i : nat) : string :=
  if (i <? length token_array)%nat then str (nth i token_array JNull) else EmptyString.

(** The dict literal of [parse_final_token_array]: [float] can raise. *)
Definition token_data_of_array (token_array : list json) : res token_data :=
  let! volume :=
    if (17 <? length token_array)%nat then float_ (nth 17 token_array JNull)
    else Ok 0.0%float in
  Ok {| td_token_address := str_at token_array 1;
        td_creator_address := str_at token_array 2;
        td_token_name := str_at token_array 3;
        td_token_ticker := str_at token_array 4;
        td_volume_sol := volume;
        td_platform := str_at token_array 7 |}.

(** [parse_final_token_array(token_array, source)]: the body runs under
    [try ... except Exception], whose handler logs. *)
Definition parse_final_token_array (now_iso : string) (token_array : list json)
    (source : string) (st : state) : state :=
  try_except
    (let! td := token_data_of_array token_array in
     let confidence := calculate_final_score td in
     if ((1000 <? td_volume_sol td)%float || (0.5 <? confidence)%float)%bool then
       if (0.25 <=? confidence)%float then
         Ok (discover_final_whale now_iso td source token_array st)
       else Ok st
     else Ok st)
    st.

(** One item [(source, data)] of the queue in [process_final_queue]:
    [parse_final_dict_message] only logs. *)
Definition process_final_item (now_iso : string) (source : string) (data : json) (st : state)
    : state :=
  match data with
  | JList l =>
      if (25 <? length l)%nat then parse_final_token_array now_iso l source st else st
  | _ => st
  end.

(** What the environment supplies for one round of the queue loop. *)
Record queue_item : Type := {
  qi_now_iso : string;
  qi_source : string;
  qi_data : json
}.

(** [process_final_queue] over the items taken from the queue. *)
Definition process_final_queue (items : list queue_item) (st : state) : state :=
  fold_left
    (fun s it => process_final_item (qi_now_iso it) (qi_source it) (qi_data it) s)
    items st.

End WithBuiltins.

(** [__init__] *)
Definition init : state :=
  {| discovered_whales := ∅; whales_discovered := 0; auto_added := 0; tracked_wallets := [] |}.

(** What the store keeps between items: a record sits under its own
    address, its score is the volume score of its own volume and at
    least 0.25, and the tracked wallets are the recorded wallets whose
    score is at or above 0.45. *)
Definition store_invariant (st : state) : Prop :=
  whales_discovered st = Z.of_nat (size (discovered_whales st)) /\
  auto_added st = Z.of_nat (length (tracked_wallets st)) /\
  NoDup (tracked_wallets st) /\
  (forall w, In w (tracked_wallets st) -> is_Some (discovered_whales st !! w)) /\
  (forall w rec, discovered_whales st !! w = Some rec ->
     wallet_address rec = w /\
     confidence_score rec = score_of_volume (volume_sol rec) /\
     (0.25 <=? confidence_score rec)%float = true /\
     (In w (tracked_wallets st) <-> (0.45 <=? confidence_score rec)%float = true)).

End final_production_whale_discovery.

(** ** [ultimate_whale_discovery_safe.py]: class [RateLimitSafeWhaleDiscovery] *)
Module ultimate_whale_discovery_safe.
Import Py.

(** [self.rate_limits] *)
Record rate_limits : Type := {
  max_concurrent_connections : Z;
  auth_requests_per_minute : Z;
  connection_attempts_per_minute : Z;
  min_connection_interval : Z;
  min_auth_interval : Z;
  subscription_requests_per_minute : Z;
  backoff_multiplier : Z;
  max_backoff : Z
}.

Definition default_rate_limits : rate_limits :=
  {| max_concurrent_connections := 1;
     auth_requests_per_minute := 5;
     connection_attempts_per_minute := 3;
     min_connection_interval := 30;
     min_auth_interval := 120;
     subscription_requests_per_minute := 5;
     backoff_multiplier := 2;
     max_backoff := 300 |}.

(** The rate-limit attributes of the object.  Clock readings
    ([time.time()], seconds) are rationals here: the governor's
    arithmetic on them is read exactly. *)
Record state : Type := {
  limits : rate_limits;
  connection_attempts : list Q;
  auth_attempts : list Q;
  last_connection_attempt : Q;
  last_auth_attempt : Q;
  consecutive_failures : Z;
  rate_limit_detected : bool;
  rate_limit_events : Z
}.

(** [__init__] *)
Definition init : state :=
  {| limits := default_rate_limits;
     connection_attempts := [];
     auth_attempts := [];
     last_connection_attempt := 0;
     last_auth_attempt := 0;
     consecutive_failures := 0;
     rate_limit_detected := false;
     rate_limit_events := 0 |}.

(** The state after one recorded attempt at [r], from [init]. *)
Definition one_attempt (r : Q) : state :=
  {| limits := default_rate_limits;
     connection_attempts := [r];
     auth_attempts := [];
     last_connection_attempt := r;
     last_auth_attempt := 0;
     consecutive_failures := 0;
     rate_limit_detected := false;
     rate_limit_events := 0 |}.

(** The second component of what [can_attempt_connection] returns, by
    the f-string that builds it. *)
Inductive reason : Type :=
| RateLimitCount (n : nat)      (* "Rate limit: {n}/3 connections this minute" *)
| RateLimitWait (remaining : Z) (* "Rate limit: {remaining}s until next connection allowed" *)
| CooldownMode                  (* "Rate limiting detected - in cooldown mode" *)
| SafeToConnect.                (* "Safe to connect" *)

(** [a < b] on clock readings. *)
Definition Qltb (a b : Q) : bool := negb (Qle_bool b a).

Definition with_connection_attempts (st : state) (l : list Q) : state :=
  {| limits := limits st;
     connection_attempts := l;
     auth_attempts := auth_attempts st;
     last_connection_attempt := last_connection_attempt st;
     last_auth_attempt := last_auth_attempt st;
     consecutive_failures := consecutive_failures st;
     rate_limit_detected := rate_limit_detected st;
     rate_limit_events := rate_limit_events st |}.

(** [can_attempt_connection()] at clock reading [now]: the pruned list
    is stored before any test. *)
Definition can_attempt_connection (now : Q) (st : state) : state * (bool * reason) :=
  let attempts := List.filter (fun t => Qltb (now - t) 60) (connection_attempts st) in
  let st := with_connection_attempts st attempts in
  if (connection_attempts_per_minute (limits st) <=? Z.of_nat (length attempts))%Z then
    (st, (false, RateLimitCount (length attempts)))
  else if Qltb (now - last_connection_attempt st) (inject_Z (min_connection_interval (limits st))) then
    let remaining :=
      int_of_Q (inject_Z (min_connection_interval (limits st)) - (now - last_connection_attempt st)) in
    (st, (false, RateLimitWait remaining))
  else if rate_limit_detected st then (st, (false, CooldownMode))
  else (st, (true, SafeToConnect)).

(** [record_connection_attempt()] at clock reading [now]. *)
Definition record_connection_attempt (now : Q) (st : state) : state :=
  {| limits := limits st;
     connection_attempts := connection_attempts st ++ [now];
     auth_attempts := auth_attempts st;
     last_connection_attempt := now;
     last_auth_attempt := last_auth_attempt st;
     consecutive_failures := consecutive_failures st;
     rate_limit_detected := rate_limit_detected st;
     rate_limit_events := rate_limit_events st |}.

(** The governor's part of one round of [safe_single_endpoint_strategy]:
    the check at [now], and, when it allows, the
    [record_connection_attempt] that opens [connect_to_endpoint_safely],
    at its own reading [now_rec]. *)
Definition acquire_connection (now now_rec : Q) (st : state) : state * (bool * reason) :=
  let '(st1, (can_connect, why)) := can_attempt_connection now st in
  if can_connect then (record_connection_attempt now_rec st1, (can_connect, why))
  else (st1, (can_connect, why)).

(** The wait a denial carries, when it carries one. *)
Definition wait_seconds (r : reason) : option Z :=
  match r with
  | RateLimitWait remaining => Some remaining
  | _ => None
  end.

(** [any(rate_limit_indicators)] *)
Definition rate_limit_indicators (status_code : Z) (response_text : string) : bool :=
  let text := lower response_text in
  ((status_code =? 429)%Z
   || ((status_code =? 401)%Z && str_contains "rate" text)
   || str_contains "rate limit" text
   || str_contains "too many requests" text
   || str_contains "quota exceeded" text)%bool.

(** [handle_rate_limit_response(status_code, response_text)]: the new
    state and the returned [backoff_time]. *)
Definition handle_rate_limit_response (status_code : Z) (response_text : string) (st : state)
    : state * Z :=
  if rate_limit_indicators status_code response_text then
    let failures := (consecutive_failures st + 1)%Z in
    let st' :=
      {| limits := limits st;
         connection_attempts := connection_attempts st;
         auth_attempts := auth_attempts st;
         last_connection_attempt := last_connection_attempt st;
         last_auth_attempt := last_auth_attempt st;
         consecutive_failures := failures;
         rate_limit_detected := true;
         rate_limit_events := (rate_limit_events st + 1)%Z |} in
    (st', Z.min (backoff_multiplier (limits st) ^ failures) (max_backoff (limits st)))
  else (st, 0%Z).

(** [n] rate-limit responses in a row (status 429), from [st]: the
    backoff times returned, in order, and the state reached. *)
Fixpoint violations (n : nat) (st : state) : list Z * state :=
  match n with
  | O => ([], st)
  | S n' =>
      let '(st', backoff_time) := handle_rate_limit_response 429 "" st in
      let '(l, st'') := violations n' st' in
      (backoff_time :: l, st'')
  end.

(** *** Authentication attempts *)

(** The second component of what [can_attempt_auth] returns. *)
Inductive auth_reason : Type :=
| AuthRateLimitCount (n : nat)      (* "Rate limit: {n}/5 auth requests this minute" *)
| AuthRateLimitWait (remaining : Z) (* "Rate limit: {remaining}s until next auth allowed" *)
| SafeToAuthenticate.               (* "Safe to authenticate" *)

Definition with_auth_attempts (st : state) (l : list Q) : state :=
  {| limits := limits st;
     connection_attempts := connection_attempts st;
     auth_attempts := l;
     last_connection_attempt := last_connection_attempt st;
     last_auth_attempt := last_auth_attempt st;
     consecutive_failures := consecutive_failures st;
     rate_limit_detected := rate_limit_detected st;
     rate_limit_events := rate_limit_events st |}.

(** [can_attempt_auth()] at clock reading [now]. *)
Definition can_attempt_auth (now : Q) (st : state) : state * (bool * auth_reason) :=
  let attempts := List.filter (fun t => Qltb (now - t) 60) (auth_attempts st) in
  let st := with_auth_attempts st attempts in
  if (auth_requests_per_minute (limits st) <=? Z.of_nat (length attempts))%Z then
    (st, (false, AuthRateLimitCount (length attempts)))
  else if Qltb (now - last_auth_attempt st) (inject_Z (min_auth_interval (limits st))) then
    let remaining :=
      int_of_Q (inject_Z (min_auth_interval (limits st)) - (now - last_auth_attempt st)) in
    (st, (false, AuthRateLimitWait remaining))
  else (st, (true, SafeToAuthenticate)).

(** [record_auth_attempt()] at clock reading [now]. *)
Definition record_auth_attempt (now : Q) (st : state) : state :=
  {| limits := limits st;
     connection_attempts := connection_attempts st;
     auth_attempts := auth_attempts st ++ [now];
     last_connection_attempt := last_connection_attempt st;
     last_auth_attempt := now;
     consecutive_failures := consecutive_failures st;
     rate_limit_detected := rate_limit_detected st;
     rate_limit_events := rate_limit_events st |}.

(** *** Runs of the governor *)

(** The requests of a run, each with the reading of its check and the
    reading of its record: the states and the answers, in order. *)
Fixpoint acquire_all (requests : list (Q * Q)) (st : state) : state * list (bool * reason) :=
  match requests with
  | [] => (st, [])
  | (now, now_rec) :: rest =>
      let '(st1, answer) := acquire_connection now now_rec st in
      let '(st2, answers) := acquire_all rest st1 in
      (st2, answer :: answers)
  end.

(** The clock does not run backwards over the readings of a run, from
    the reading [t]. *)
Fixpoint clock_ordered (t : Q) (requests : list (Q * Q)) : Prop :=
  match requests with
  | [] => True
  | (now, now_rec) :: rest => (t <= now)%Q /\ (now <= now_rec)%Q /\ clock_ordered now_rec rest
  end.

(** Successive readings of a list are at least 30 seconds apart. *)
Fixpoint spaced (l : list Q) : Prop :=
  match l with
  | [] => True
  | a :: l' => List.Forall (fun b => a + 30 <= b)%Q l' /\ spaced l'
  end.

(** What the recorded connection attempts keep, up to the clock reading
    [t], when every record follows a check that allowed it. *)
Definition governor_invariant (t : Q) (st : state) : Prop :=
  limits st = default_rate_limits /\
  spaced (connection_attempts st) /\
  List.Forall (fun a => a <= last_connection_attempt st)%Q (connection_attempts st) /\
  (last_connection_attempt st <= t)%Q.

(** *** The connection code around the governor *)

(** The attributes next to the governor's that the connection code
    moves: [self.subscription_attempts], two counters of [self.metrics]
    and [self.current_endpoint]. *)
Record session : Type := {
  governor : state;
  subscription_attempts : list Q;
  messages_received : Z;
  connection_failures : Z;
  current_endpoint : option string
}.

(** [__init__] *)
Definition new_session : session :=
  {| governor := init;
     subscription_attempts := [];
     messages_received := 0;
     connection_failures := 0;
     current_endpoint := None |}.

Definition with_governor (s : session) (g : state) : session :=
  {| governor := g;
     subscription_attempts := subscription_attempts s;
     messages_received := messages_received s;
     connection_failures := connection_failures s;
     current_endpoint := current_endpoint s |}.

Definition with_subscription_attempts (s : session) (l : list Q) : session :=
  {| governor := governor s;
     subscription_attempts := l;
     messages_received := messages_received s;
     connection_failures := connection_failures s;
     current_endpoint := current_endpoint s |}.

Definition with_current_endpoint (s : session) (e : option string) : session :=
  {| governor := governor s;
     subscription_attempts := subscription_attempts s;
     messages_received := messages_received s;
     connection_failures := connection_failures s;
     current_endpoint := e |}.

Definition count_connection_failure (s : session) : session :=
  {| governor := governor s;
     subscription_attempts := subscription_attempts s;
     messages_received := messages_received s;
     connection_failures := connection_failures s + 1;
     current_endpoint := current_endpoint s |}.

(** One round of the loop of [attempt_safe_subscriptions] at clock
    reading [now]; [sent] tells whether [ws.send] returned (its exception
    is caught in the round and logged).  The second component is [false]
    at the [break]. *)
Definition subscription_round (now : Q) (sent : bool) (s : session) : session * bool :=
  let attempts := List.filter (fun t => Qltb (now - t) 60) (subscription_attempts s) in
  if (subscription_requests_per_minute (limits (governor s)) <=? Z.of_nat (length attempts))%Z
  then (with_subscription_attempts s attempts, false)
  else if sent then (with_subscription_attempts s (attempts ++ [now]), true)
  else (with_subscription_attempts s attempts, true).

(** The loop over the subscriptions still to send, each with what the
    environment supplies for its round. *)
Fixpoint subscription_rounds (rounds : list (Q * bool)) (s : session) : session :=
  match rounds with
  | [] => s
  | (now, sent) :: rest =>
      let '(s', continue) := subscription_round now sent s in
      if continue then subscription_rounds rest s' else s'
  end.

(** [attempt_safe_subscriptions(ws, endpoint_name)]: the auth message,
    then the join of [new_pairs]. *)
Definition attempt_safe_subscriptions (auth join : Q * bool) (s : session) : session :=
  subscription_rounds [auth; join] s.

(** The class defines neither [process_sdk_new_pairs] nor
    [process_token_array]: looking either up on the object raises. *)
Definition undefined_method : res unit := Raise AttributeError.

(** [parse_message_safely(raw_message, endpoint_name, msg_num)], from
    the result of [json.loads] ([None] when it raises
    [JSONDecodeError]); the outer handler logs. *)
Definition parse_message_safely (data : option json) (s : session) : session :=
  try_except
    (match data with
     | Some (JDict d) =>
         if (eq_str (dict_get d "room" JNull) "new_pairs" && dict_has d "content")%bool then
           let! _ := undefined_method in Ok s
         else Ok s
     | Some (JList l) =>
         if (25 <? length l)%nat then let! _ := undefined_method in Ok s else Ok s
     | _ => Ok s
     end)
    s.

(** One round of the loop of [listen_for_data_safely]. *)
Definition on_message (data : option json) (s : session) : session :=
  let g := governor s in
  parse_message_safely data
    {| governor :=
         {| limits := limits g;
            connection_attempts := connection_attempts g;
            auth_attempts := auth_attempts g;
            last_connection_attempt := last_connection_attempt g;
            last_auth_attempt := last_auth_attempt g;
            consecutive_failures := 0;
            rate_limit_detected := false;
            rate_limit_events := rate_limit_events g |};
       subscription_attempts := subscription_attempts s;
       messages_received := messages_received s + 1;
       connection_failures := connection_failures s;
       current_endpoint := current_endpoint s |}.

(** [listen_for_data_safely(ws, endpoint_name)] over the frames
    received; the [finally] clause clears the current endpoint. *)
Definition listen_for_data_safely (frames : list (option json)) (s : session) : session :=
  with_current_endpoint (fold_left (fun s' data => on_message data s') frames s) None.

(** How the [try] block of [connect_to_endpoint_safely] ends: the
    connection is made, the two subscription rounds run and the frames
    are listened to; or one of the handled exceptions is raised by the
    connect. *)
Inductive connect_outcome : Type :=
| Connected (auth join : Q * bool) (frames : list (option json))
| ConnectTimeout
| ConnectInvalidStatus (status_code : Z)
| ConnectError.

Definition clear_rate_limit_detected (g : state) : state :=
  {| limits := limits g;
     connection_attempts := connection_attempts g;
     auth_attempts := auth_attempts g;
     last_connection_attempt := last_connection_attempt g;
     last_auth_attempt := last_auth_attempt g;
     consecutive_failures := consecutive_failures g;
     rate_limit_detected := false;
     rate_limit_events := rate_limit_events g |}.

(** [connect_to_endpoint_safely(endpoint)] at clock reading [now]: the
    session, what it returns, and the cooldown it slept. *)
Definition connect_to_endpoint_safely (name : string) (now : Q) (o : connect_outcome)
    (s : session) : session * bool * Z :=
  let s := with_governor s (record_connection_attempt now (governor s)) in
  match o with
  | Connected auth join frames =>
      let s := with_current_endpoint s (Some name) in
      let s := attempt_safe_subscriptions auth join s in
      (listen_for_data_safely frames s, true, 0%Z)
  | ConnectTimeout => (count_connection_failure s, false, 0%Z)
  | ConnectInvalidStatus status_code =>
      let '(g, backoff_time) := handle_rate_limit_response status_code "" (governor s) in
      if (0 <? backoff_time)%Z
      then (with_governor s (clear_rate_limit_detected g), false, backoff_time)
      else (with_governor s g, false, 0%Z)
  | ConnectError => (count_connection_failure s, false, 0%Z)
  end.

(** What the environment supplies for one endpoint of
    [safe_single_endpoint_strategy]: [self.running], the clock at the
    check and at the record, and how the connect ends. *)
Record strategy_round : Type := {
  sr_running : bool;
  sr_now_check : Q;
  sr_now_record : Q;
  sr_outcome : connect_outcome
}.

(** What the strategy does, in order: a denial and the wait after it, an
    attempt and whether it succeeded, the cooldown slept inside the
    attempt, the wait before the next endpoint. *)
Inductive strategy_action : Type :=
| Denied (why : reason) (wait_time : Z)
| Attempt (endpoint : string) (success : bool)
| Cooldown (backoff_time : Z)
| Backoff (backoff_time : Z).

(** The [for] loop of [safe_single_endpoint_strategy]. *)
Fixpoint strategy_loop (endpoints : list (string * strategy_round)) (s : session)
    : session * list strategy_action :=
  match endpoints with
  | [] => (s, [])
  | (name, r) :: rest =>
      if sr_running r then
        let '(g, (can_connect, why)) := can_attempt_connection (sr_now_check r) (governor s) in
        let s := with_governor s g in
        if can_connect then
          let '(s1, success, cooldown) :=
            connect_to_endpoint_safely name (sr_now_record r) (sr_outcome r) s in
          if success then (s1, [Attempt name true])
          else
            let backoff_time := Z.min 60 (30 * (consecutive_failures (governor s1) + 1)) in
            let '(s2, trace) := strategy_loop rest s1 in
            (s2, Attempt name false ::
                 (if (0 <? cooldown)%Z then [Cooldown cooldown] else []) ++
                 Backoff backoff_time :: trace)
        else
          let '(s2, trace) := strategy_loop rest s in
          (s2, Denied why (min_connection_interval (limits g)) :: trace)
      else (s, [])
  end.

(** [safe_single_endpoint_strategy()]: eucalyptus, then cluster7. *)
Definition safe_single_endpoint_strategy (first second : strategy_round) (s : session)
    : session * list strategy_action :=
  strategy_loop [("eucalyptus"%string, first); ("cluster7"%string, second)] s.

(** The endpoints a trace attempts, in order. *)
Definition attempted (trace : list strategy_action) : list string :=
  flat_map (fun a => match a with Attempt name _ => [name] | _ => [] end) trace.

(** The denials of a trace. *)
Definition denials (trace : list strategy_action) : list reason :=
  flat_map (fun a => match a with Denied why _ => [why] | _ => [] end) trace.

(** The waits of a trace before the next endpoint. *)
Definition backoffs (trace : list strategy_action) : list Z :=
  flat_map (fun a => match a with Backoff w => [w] | _ => [] end) trace.

(** A connect that does not get through. *)
Definition connect_failed (o : connect_outcome) : bool :=
  match o with
  | Connected _ _ _ => false
  | _ => true
  end.

End ultimate_whale_discovery_safe.

(** ** The magnitude policy as the specification words it *)
Module MagnitudeHeuristic.
Local Open Scope float_scope.

(** "values > 10,000 are treated as volume/market-cap candidates" *)
Definition volume_candidate (v : float) : bool := 10000 <? v.

(** "values in (100, 10,000] as liquidity candidates" *)
Definition liquidity_candidate (v : float) : bool := (100 <? v) && (v <=? 10000).

(** (volumeSol, marketCapSol, liquiditySol) for the candidate values in
    encounter order: the first and the second volume candidate, the first
    liquidity candidate, and 0 for a metric with no match. *)
Definition assign (values : list float) : float * float * float :=
  (nth 0 (List.filter volume_candidate values) 0,
   nth 1 (List.filter volume_candidate values) 0,
   nth 0 (List.filter liquidity_candidate values) 0).

End MagnitudeHeuristic.

(** ** The frames the specification calls malformed *)
Module MalformedFrames.
Import Py.

(** The keys of a [new_pairs] token that can add to its score. *)
Definition scoring_fields : list string :=
  ["initial_liquidity_sol"; "snipers_hold_percent"; "lp_burned"; "protocol";
   "website"; "twitter"; "telegram"]%string.

Definition lacks_scoring_fields (token : list (string * json)) : bool :=
  forallb (fun key => negb (dict_has token key)) scoring_fields.

(** "A positional array [...] too short": at most 25 elements, so that
    the array branch of the parser does not take it, or, nested under
    ['data'] in a message of another kind, fewer than 10.  "A room
    message whose content lacks required fields": a [new_pairs] message
    whose content is an object with none of the scoring fields, or no
    object and no list at all. *)
Definition malformed (frame : json) : bool :=
  match frame with
  | JList l => (length l <=? 25)%nat
  | JDict d =>
      if eq_str (dict_get d "room" JNull) "new_pairs" && dict_has d "content" then
        match dict_get d "content" JNull with
        | JDict token => lacks_scoring_fields token
        | JList _ => false
        | _ => true
        end
      else
        match assoc "data" d with
        | Some (JList l) => (length l <? 10)%nat
        | _ => false
        end
  | _ => false
  end.

End MalformedFrames.

(** ** Closed inputs for the examples *)

(** An instance of the builtins for frames that hold no text to convert:
    every string fails to parse as a float and [str] of a non-string is
    empty. *)
Definition no_text_builtins : Py.Builtins :=
  {| Py.float_of_str := fun _ => None; Py.repr := fun _ => EmptyString |}.

(** The token dict of the room message
    [{"room":"new_pairs","content":{"initial_liquidity_sol":1200,
    "snipers_hold_percent":60,"dev_holds_percent":3,"lp_burned":true,
    "protocol":"Raydium CLMM"}}]. *)
Definition scenario_B_token : list (string * Py.json) :=
  [("initial_liquidity_sol", Py.JInt 1200); ("snipers_hold_percent", Py.JInt 60);
   ("dev_holds_percent", Py.JInt 3); ("lp_burned", Py.JBool true);
   ("protocol", Py.JStr "Raydium CLMM")]%string.

Definition scenario_B_token_data : ultimate_whale_discovery.token_data :=
  {| ultimate_whale_discovery.td_timestamp := 0;
     ultimate_whale_discovery.td_source := "eucalyptus";
     ultimate_whale_discovery.td_token_address := Py.JStr "";
     ultimate_whale_discovery.td_creator_address := Py.JStr "";
     ultimate_whale_discovery.td_token_name := Py.JStr "Unknown";
     ultimate_whale_discovery.td_token_ticker := Py.JStr "UNKNOWN";
     ultimate_whale_discovery.td_platform := Py.JStr "Raydium CLMM";
     ultimate_whale_discovery.td_website := Py.JStr "";
     ultimate_whale_discovery.td_twitter := Py.JStr "";
     ultimate_whale_discovery.td_telegram := Py.JStr "";
     ultimate_whale_discovery.td_volume_sol := 0;
     ultimate_whale_discovery.td_market_cap_sol := 0;
     ultimate_whale_discovery.td_liquidity_sol := 1200;
     ultimate_whale_discovery.td_dev_holds_percent := Some 3%float;
     ultimate_whale_discovery.td_snipers_hold_percent := Some 60%float;
     ultimate_whale_discovery.td_lp_burned := Some (Py.JBool true) |}.

(** A positional array of length 5. *)
Definition short_array_frame : Py.json :=
  Py.JList [Py.JInt 1755144421; Py.JStr "TokAddr"; Py.JStr "CreatorAddr";
            Py.JStr "Rumor Coin"; Py.JStr "RUMOR"].

(** [{"room": "new_pairs", "content": {}}] *)
Definition empty_content_frame : Py.json :=
  Py.JDict [("room", Py.JStr "new_pairs"); ("content", Py.JDict [])]%string.

(** The room message of Scenario B as given: its content has no
    [deployer_address], no [token_address], no name and no ticker. *)
Definition scenario_B_bare_frame : Py.json :=
  Py.JDict [("room", Py.JStr "new_pairs"); ("content", Py.JDict scenario_B_token)]%string.

(** The room message of Scenario B with a deployer address. *)
Definition scenario_B_frame : Py.json :=
  Py.JDict [("room", Py.JStr "new_pairs");
            ("content", Py.JDict (("deployer_address", Py.JStr "CreatorAddr") :: scenario_B_token))]%string.

(** Two token dicts of the same creator ["W"] that name different
    tokens. *)
Definition first_coin : ultimate_whale_discovery.token_data :=
  {| ultimate_whale_discovery.td_timestamp := 1;
     ultimate_whale_discovery.td_source := "cluster7";
     ultimate_whale_discovery.td_token_address := Py.JStr "TokA";
     ultimate_whale_discovery.td_creator_address := Py.JStr "W";
     ultimate_whale_discovery.td_token_name := Py.JStr "First Coin";
     ultimate_whale_discovery.td_token_ticker := Py.JStr "FIRST";
     ultimate_whale_discovery.td_platform := Py.JStr "Raydium CLMM";
     ultimate_whale_discovery.td_website := Py.JStr "";
     ultimate_whale_discovery.td_twitter := Py.JStr "";
     ultimate_whale_discovery.td_telegram := Py.JStr "";
     ultimate_whale_discovery.td_volume_sol := 0;
     ultimate_whale_discovery.td_market_cap_sol := 0;
     ultimate_whale_discovery.td_liquidity_sol := 150;
     ultimate_whale_discovery.td_dev_holds_percent := None;
     ultimate_whale_discovery.td_snipers_hold_percent := None;
     ultimate_whale_discovery.td_lp_burned := None |}.

Definition second_coin : ultimate_whale_discovery.token_data :=
  {| ultimate_whale_discovery.td_timestamp := 2;
     ultimate_whale_discovery.td_source := "cluster7";
     ultimate_whale_discovery.td_token_address := Py.JStr "TokB";
     ultimate_whale_discovery.td_creator_address := Py.JStr "W";
     ultimate_whale_discovery.td_token_name := Py.JStr "Second Coin";
     ultimate_whale_discovery.td_token_ticker := Py.JStr "SECOND";
     ultimate_whale_discovery.td_platform := Py.JStr "Meteora";
     ultimate_whale_discovery.td_website := Py.JStr "";
     ultimate_whale_discovery.td_twitter := Py.JStr "";
     ultimate_whale_discovery.td_telegram := Py.JStr "";
     ultimate_whale_discovery.td_volume_sol := 0;
     ultimate_whale_discovery.td_market_cap_sol := 0;
     ultimate_whale_discovery.td_liquidity_sol := 2000;
     ultimate_whale_discovery.td_dev_holds_percent := None;
     ultimate_whale_discovery.td_snipers_hold_percent := None;
     ultimate_whale_discovery.td_lp_burned := None |}.

(** A whale of wallet ["W"] with a given score, as
    [process_parsed_token] builds it ([auto_added] at its default). *)
Definition whale_W (score : float) : enhanced_whale_discovery.WhaleDiscovery :=
  {| enhanced_whale_discovery.wallet_address := "W";
     enhanced_whale_discovery.token_name := "Rumor Coin";
     enhanced_whale_discovery.token_ticker := "RUMOR";
     enhanced_whale_discovery.token_address := "TokAddr";
     enhanced_whale_discovery.market_cap_sol := 0;
     enhanced_whale_discovery.volume_sol := 0;
     enhanced_whale_discovery.liquidity_sol := 0;
     enhanced_whale_discovery.price_sol := 0;
     enhanced_whale_discovery.platform := "Raydium CLMM";
     enhanced_whale_discovery.verified_contract := false;
     enhanced_whale_discovery.confidence_score := score;
     enhanced_whale_discovery.discovery_timestamp := "2025-08-14T04:07:01";
     enhanced_whale_discovery.auto_added := false;
     enhanced_whale_discovery.raw_data := Py.JNull |}.

(** A positional array in the shape of Scenario A: 26 fields, 13600.0 at
    position 14. *)
Definition scenario_A_array : list Py.json :=
  [Py.JInt 1755144421; Py.JStr "TokAddr"; Py.JStr "CreatorAddr"; Py.JStr "Rumor Coin";
   Py.JStr "RUMOR"; Py.JStr "https://img"; Py.JInt 9; Py.JStr "Raydium CLMM"; Py.JStr "{}";
   Py.JStr "site"; Py.JStr "tw"; Py.JStr "tg"; Py.JStr "";
   Py.JInt 0; Py.JFloat 13600.0; Py.JFloat 250.5; Py.JInt 99; Py.JInt 20000;
   Py.JNull; Py.JStr "n/a"; Py.JFloat 50000.0; Py.JFloat 700.0; Py.JInt 0; Py.JInt 0;
   Py.JInt 0; Py.JBool false]%string.

(** A positional array with liquidity 1200.0 at position 15, a Raydium
    platform and two social links. *)
Definition liquid_array : list Py.json :=
  [Py.JInt 1755144500; Py.JStr "TokLiquid"; Py.JStr "LiquidCreator"; Py.JStr "Deep Pool";
   Py.JStr "DEEP"; Py.JStr "https://img"; Py.JInt 9; Py.JStr "Raydium V4"; Py.JStr "{}";
   Py.JStr "site"; Py.JStr "tw"; Py.JStr ""; Py.JStr "";
   Py.JInt 0; Py.JInt 0; Py.JFloat 1200.0; Py.JInt 0; Py.JInt 0;
   Py.JInt 0; Py.JInt 0; Py.JInt 0; Py.JInt 0; Py.JInt 0; Py.JInt 0;
   Py.JInt 0; Py.JBool false]%string.

(** A [new_pairs] message of three tokens: Scenario B with a deployer, a
    token whose protocol is a number, and a third token that would score
    like the first. *)
Definition mixed_tokens_prefix : list Py.json :=
  [Py.JDict (("deployer_address", Py.JStr "CreatorAddr") :: scenario_B_token)]%string.

Definition numeric_protocol_token : list (string * Py.json) :=
  [("deployer_address", Py.JStr "Other"); ("protocol", Py.JInt 7)]%string.

Definition mixed_tokens_rest : list Py.json :=
  [Py.JDict (("deployer_address", Py.JStr "ThirdCreator") :: scenario_B_token)]%string.

(** Frames of a run of the listener: the room message of Scenario B, the
    array of Scenario A, a frame that is not JSON, the liquid array. *)
Definition run_frames : list ultimate_whale_discovery.frame :=
  [ {| ultimate_whale_discovery.fr_now := 1;
       ultimate_whale_discovery.fr_data := Some scenario_B_frame |};
    {| ultimate_whale_discovery.fr_now := 2;
       ultimate_whale_discovery.fr_data := Some (Py.JList scenario_A_array) |};
    {| ultimate_whale_discovery.fr_now := 3;
       ultimate_whale_discovery.fr_data := None |};
    {| ultimate_whale_discovery.fr_now := 4;
       ultimate_whale_discovery.fr_data := Some (Py.JList liquid_array) |} ].

(** The array of Scenario A with another value at position 17. *)
Definition scenario_A_with_volume (v : Py.json) : list Py.json :=
  firstn 17 scenario_A_array ++ v :: skipn 18 scenario_A_array.

(** The store after a first coin of creator ["W"] was recorded with
    score 0.5, and a room message of the same creator that scores 1.0. *)
Definition first_coin_state : ultimate_whale_discovery.state :=
  ultimate_whale_discovery.record_whale 1 "W" first_coin 0.5 Py.JNull
    (ultimate_whale_discovery.init 0).

Definition raising_frames : list ultimate_whale_discovery.frame :=
  [ {| ultimate_whale_discovery.fr_now := 2;
       ultimate_whale_discovery.fr_data :=
         Some (Py.JDict [("room", Py.JStr "new_pairs");
                         ("content",
                          Py.JDict (("deployer_address", Py.JStr "W") :: scenario_B_token))]%string) |};
    {| ultimate_whale_discovery.fr_now := 3;
       ultimate_whale_discovery.fr_data := Some (Py.JList scenario_A_array) |} ].

(** Items of the final production queue: Scenario A, then the same
    creator with a volume of 5000. *)
Definition first_final_items : list final_production_whale_discovery.queue_item :=
  [ {| final_production_whale_discovery.qi_now_iso := "2025-08-14T04:07:01";
       final_production_whale_discovery.qi_source := "cluster7";
       final_production_whale_discovery.qi_data := Py.JList scenario_A_array |} ]%string.

Definition later_final_items : list final_production_whale_discovery.queue_item :=
  [ {| final_production_whale_discovery.qi_now_iso := "2025-08-14T04:08:00";
       final_production_whale_discovery.qi_source := "eucalyptus";
       final_production_whale_discovery.qi_data :=
         Py.JList (scenario_A_with_volume (Py.JInt 5000)) |};
    {| final_production_whale_discovery.qi_now_iso := "2025-08-14T04:09:00";
       final_production_whale_discovery.qi_source := "eucalyptus";
       final_production_whale_discovery.qi_data := Py.JDict [] |} ]%string.

(** Arrays of a run of the enhanced parser. *)
Definition enhanced_arrays : list (string * list Py.json) :=
  [("2025-08-14T04:07:01", scenario_A_array);
   ("2025-08-14T04:07:02", liquid_array);
   ("2025-08-14T04:07:03", scenario_A_with_volume (Py.JInt 90))]%string.

(** Two rounds of the safe strategy: eucalyptus answers 429 at clock
    101, cluster7 times out after the waits have passed. *)
Definition rate_limited_round : ultimate_whale_discovery_safe.strategy_round :=
  {| ultimate_whale_discovery_safe.sr_running := true;
     ultimate_whale_discovery_safe.sr_now_check := 100;
     ultimate_whale_discovery_safe.sr_now_record := 101;
     ultimate_whale_discovery_safe.sr_outcome :=
       ultimate_whale_discovery_safe.ConnectInvalidStatus 429 |}.

Definition timed_out_round : ultimate_whale_discovery_safe.strategy_round :=
  {| ultimate_whale_discovery_safe.sr_running := true;
     ultimate_whale_discovery_safe.sr_now_check := 163;
     ultimate_whale_discovery_safe.sr_now_record := 164;
     ultimate_whale_discovery_safe.sr_outcome :=
       ultimate_whale_discovery_safe.ConnectTimeout |}.

(** A token dict of the final production script with a given volume. *)
Definition token_of_volume (volume_sol : float) : final_production_whale_discovery.token_data :=
  {| final_production_whale_discovery.td_token_address := "TokAddr";
     final_production_whale_discovery.td_creator_address := "W";
     final_production_whale_discovery.td_token_name := "Rumor Coin";
     final_production_whale_discovery.td_token_ticker := "RUMOR";
     final_production_whale_discovery.td_volume_sol := volume_sol;
     final_production_whale_discovery.td_platform := "Raydium CLMM" |}.

(** The token dict of Scenario B with a number where the platform is
    expected. *)
Definition numeric_platform_token_data : ultimate_whale_discovery.token_data :=
  {| ultimate_whale_discovery.td_timestamp := 1755144421;
     ultimate_whale_discovery.td_source := "eucalyptus";
     ultimate_whale_discovery.td_token_address := Py.JStr "TokAddr";
     ultimate_whale_discovery.td_creator_address := Py.JStr "W";
     ultimate_whale_discovery.td_token_name := Py.JStr "Rumor Coin";
     ultimate_whale_discovery.td_token_ticker := Py.JStr "RUMOR";
     ultimate_whale_discovery.td_platform := Py.JInt 7;
     ultimate_whale_discovery.td_website := Py.JStr "";
     ultimate_whale_discovery.td_twitter := Py.JStr "";
     ultimate_whale_discovery.td_telegram := Py.JStr "";
     ultimate_whale_discovery.td_volume_sol := 0;
     ultimate_whale_discovery.td_market_cap_sol := 0;
     ultimate_whale_discovery.td_liquidity_sol := 1500;
     ultimate_whale_discovery.td_dev_holds_percent := None;
     ultimate_whale_discovery.td_snipers_hold_percent := None;
     ultimate_whale_discovery.td_lp_burned := None |}.

(** ** Binary64 rounding, read in rational arithmetic

    The specification of the primitive operations ([SpecFloat]) rounds a
    result by shifting its mantissa and inspecting the bits shifted out.
    The definitions below name what those steps compute, for the proof
    that the rounded operations of [calculate_final_score] are monotone:
    they are no part of the scripts. *)
Module Rounding.
Import SpecFloat.
Local Open Scope Q_scope.

(** The record [shr_1] works on, read off a non-negative rational: its
    integer part, the first bit after the point, and whether anything
    follows that bit. *)
Definition record_of (y : Q) : shr_record :=
  {| shr_m := Qfloor y;
     shr_r := Z.odd (Qfloor (2 * y));
     shr_s := negb (Qeq_bool (2 * y) (inject_Z (Qfloor (2 * y)))) |}.

(** [round_nearest_even] of the record of [y]. *)
Definition rne (y : Q) : Z :=
  round_nearest_even (shr_m (record_of y)) (loc_of_shr_record (record_of y)).

(** [ce] is the exponent of the binary64 format for the positive
    rational [v]: [v / 2 ** ce] has at most [prec] digits before the
    point, and exactly [prec] unless [ce] is the least exponent. *)
Definition canon (v : Q) (ce : Z) : Prop :=
  (SpecFloat.emin prec emax <= ce)%Z /\
  v < 2 ^ (ce + prec) /\
  ((SpecFloat.emin prec emax < ce)%Z -> 2 ^ (ce + prec - 1) <= v).

(** The float with mantissa [m <= 2 ** prec] at exponent [ce]. *)
Definition rounded (m ce : Z) : spec_float :=
  if (m =? 0)%Z then S754_zero false
  else if (m <? 2 ^ prec)%Z then
    if (ce <=? emax - prec)%Z then S754_finite false (Z.to_pos m) ce
    else S754_infinity false
  else
    if (ce + 1 <=? emax - prec)%Z then S754_finite false (Z.to_pos (2 ^ (prec - 1))) (ce + 1)
    else S754_infinity false.

(** The rational a finite float stands for. *)
Definition value (x : spec_float) : Q :=
  match x with
  | S754_finite false m e => inject_Z (Zpos m) * 2 ^ e
  | S754_finite true m e => - (inject_Z (Zpos m) * 2 ^ e)
  | _ => 0
  end.

(** [r] is the positive rational [v] rounded to binary64. *)
Definition rounds_to (v : Q) (r : spec_float) : Prop :=
  exists ce : Z, canon v ce /\ r = rounded (rne (v / 2 ^ ce)) ce.

(** A zero, a positive finite float or [+infinity]. *)
Definition nonneg (x : spec_float) : bool :=
  match x with
  | S754_zero _ | S754_finite false _ _ | S754_infinity false => true
  | _ => false
  end.

(** [x] is an integer. *)
Definition is_int (x : Q) : bool := Qeq_bool x (inject_Z (Qfloor x)).

End Rounding.

(* ===================================================================== *)
(** * Part II: properties                                                 *)
(* ===================================================================== *)

(** ** Comparisons of binary64 values *)
Section FloatOrder.
Local Open Scope float_scope.

Lemma SFcompare_antisym (x y : spec_float) :
  SFcompare y x = option_map CompOpp (SFcompare x y).
Proof.
  destruct x as [sx|sx| |sx mx ex], y as [sy|sy| |sy my ey]; simpl;
    try destruct sx; try destruct sy; simpl; try reflexivity.
  - rewrite (Z.compare_antisym ex ey). destruct (ex ?= ey)%Z; simpl; try reflexivity.
    change (PosDef.Pos.compare_cont Eq my mx) with (Pos.compare my mx).
    change (PosDef.Pos.compare_cont Eq mx my) with (Pos.compare mx my).
    rewrite (Pos.compare_antisym mx my). now rewrite CompOpp_involutive.
  - rewrite (Z.compare_antisym ex ey). destruct (ex ?= ey)%Z; simpl; try reflexivity.
    change (PosDef.Pos.compare_cont Eq my mx) with (Pos.compare my mx).
    change (PosDef.Pos.compare_cont Eq mx my) with (Pos.compare mx my).
    now rewrite (Pos.compare_antisym mx my).
Qed.

Lemma ltb_leb (x y : float) : (x <? y) = true -> (x <=? y) = true.
Proof.
  rewrite FloatAxioms.ltb_spec, FloatAxioms.leb_spec. unfold SFltb, SFleb.
  destruct (SFcompare _ _) as [[| |]|]; congruence.
Qed.

Lemma ltb_irrefl (x : float) : (x <? x) = false.
Proof.
  rewrite FloatAxioms.ltb_spec. unfold SFltb.
  pose proof (SFcompare_antisym (Prim2SF x) (Prim2SF x)) as H.
  destruct (SFcompare _ _) as [[| |]|]; simpl in H; congruence.
Qed.

Lemma ltb_asym (x y : float) : (x <? y) = true -> (y <? x) = false.
Proof.
  rewrite !FloatAxioms.ltb_spec. unfold SFltb.
  rewrite (SFcompare_antisym (Prim2SF x) (Prim2SF y)).
  destruct (SFcompare _ _) as [[| |]|]; simpl; congruence.
Qed.

Lemma ltb_not_leb (x y : float) : (x <? y) = true -> (y <=? x) = false.
Proof.
  rewrite FloatAxioms.ltb_spec, FloatAxioms.leb_spec. unfold SFltb, SFleb.
  rewrite (SFcompare_antisym (Prim2SF x) (Prim2SF y)).
  destruct (SFcompare _ _) as [[| |]|]; simpl; congruence.
Qed.

Lemma SFcompare_None (x y : spec_float) :
  SFcompare x y = None -> x = S754_nan \/ y = S754_nan.
Proof.
  destruct x as [sx|sx| |sx mx ex], y as [sy|sy| |sy my ey]; simpl; auto;
    try destruct sx; try destruct sy; discriminate.
Qed.

Lemma is_nan_spec (x : float) : is_nan x = false -> Prim2SF x <> S754_nan.
Proof.
  unfold is_nan. rewrite FloatAxioms.eqb_spec. unfold SFeqb. intros H E.
  rewrite E in H. discriminate.
Qed.

(** Two values that are not NaN are ordered one way or the other. *)
Lemma not_ltb_leb (x y : float) :
  is_nan x = false -> is_nan y = false -> (x <? y) = false -> (y <=? x) = true.
Proof.
  intros Hx Hy. apply is_nan_spec in Hx, Hy.
  rewrite FloatAxioms.ltb_spec, FloatAxioms.leb_spec. unfold SFltb, SFleb.
  rewrite (SFcompare_antisym (Prim2SF x) (Prim2SF y)).
  destruct (SFcompare (Prim2SF x) (Prim2SF y)) as [[| |]|] eqn:E; simpl; try congruence.
  apply SFcompare_None in E. tauto.
Qed.

Lemma ltb_not_nan (x y : float) : (x <? y) = true -> is_nan x = false /\ is_nan y = false.
Proof.
  unfold is_nan. rewrite FloatAxioms.ltb_spec, !FloatAxioms.eqb_spec. unfold SFltb, SFeqb.
  destruct (Prim2SF x) as [sx|sx| |sx mx ex], (Prim2SF y) as [sy|sy| |sy my ey];
    simpl; try discriminate; intros _;
    try destruct sx; try destruct sy; simpl; auto;
    rewrite ?Z.compare_refl; simpl;
    change (PosDef.Pos.compare_cont Eq) with Pos.compare;
    rewrite ?Pos.compare_refl; auto.
Qed.

Lemma is_nan_eqb (x : float) : is_nan x = negb (x =? x).
Proof. reflexivity. Qed.

Lemma leb_refl (x : float) : is_nan x = false -> (x <=? x) = true.
Proof.
  unfold is_nan. rewrite FloatAxioms.eqb_spec, FloatAxioms.leb_spec. unfold SFeqb, SFleb.
  destruct (SFcompare _ _) as [[| |]|]; simpl; congruence.
Qed.

Lemma SFleb_trans (x y z : spec_float) :
  SFleb x y = true -> SFleb y z = true -> SFleb x z = true.
Proof.
  unfold SFleb.
  destruct x as [sx|sx| |sx mx ex], y as [sy|sy| |sy my ey], z as [sz|sz| |sz mz ez]; simpl;
    try destruct sx; try destruct sy; try destruct sz; simpl; try congruence;
    change (PosDef.Pos.compare_cont Eq) with Pos.compare;
    repeat match goal with
      | |- context [(?a ?= ?b)%Z] => destruct (Z.compare_spec a b)
      | |- context [(?a ?= ?b)%positive] => destruct (Pos.compare_spec a b)
      end; simpl; try congruence; try lia; subst; try lia.
Qed.

Lemma leb_not_nan (x y : float) : (x <=? y) = true -> is_nan x = false /\ is_nan y = false.
Proof.
  unfold is_nan. rewrite FloatAxioms.leb_spec, !FloatAxioms.eqb_spec. unfold SFleb, SFeqb.
  destruct (Prim2SF x) as [sx|sx| |sx mx ex], (Prim2SF y) as [sy|sy| |sy my ey];
    simpl; try discriminate; intros _;
    try destruct sx; try destruct sy; simpl; auto;
    rewrite ?Z.compare_refl; simpl;
    change (PosDef.Pos.compare_cont Eq) with Pos.compare;
    rewrite ?Pos.compare_refl; auto.
Qed.

Lemma not_leb_leb (x y : float) :
  is_nan x = false -> is_nan y = false -> (x <=? y) = false -> (y <=? x) = true.
Proof.
  intros Hx Hy. apply is_nan_spec in Hx, Hy.
  rewrite !FloatAxioms.leb_spec. unfold SFleb.
  rewrite (SFcompare_antisym (Prim2SF x) (Prim2SF y)).
  destruct (SFcompare (Prim2SF x) (Prim2SF y)) as [[| |]|] eqn:E; simpl; try congruence.
  apply SFcompare_None in E. tauto.
Qed.

Lemma leb_trans (x y z : float) :
  (x <=? y) = true -> (y <=? z) = true -> (x <=? z) = true.
Proof. rewrite !FloatAxioms.leb_spec. apply SFleb_trans. Qed.

End FloatOrder.

(** ** Rounding to binary64 is monotone *)

(** *** Shifts and rounding to nearest, ties to even *)
Section RoundingLemmas.
Import SpecFloat Rounding.
Local Open Scope Q_scope.

Lemma record_of_comp (x y : Q) : x == y -> record_of x = record_of y.
Proof.
  intros H. unfold record_of.
  assert (H2 : 2 * x == 2 * y) by now rewrite H.
  rewrite (Qfloor_comp _ _ H), (Qfloor_comp _ _ H2).
  now rewrite (Qeqb_comp _ _ H2 _ _ (Qeq_refl _)).
Qed.

Lemma Qfloor_half (x : Q) : Qfloor (x / 2) = (Qfloor x / 2)%Z.
Proof.
  destruct x as [n d]. unfold Qdiv, Qinv, Qmult, Qfloor. cbn.
  rewrite Z.mul_1_r, Pos2Z.inj_mul. rewrite Z.div_div; lia.
Qed.

Lemma Qfloor_double (y : Q) :
  Qfloor (2 * y) = (2 * Qfloor y + Z.b2z (Z.odd (Qfloor (2 * y))))%Z.
Proof.
  assert (H : Qfloor y = (Qfloor (2 * y) / 2)%Z).
  { rewrite <- Qfloor_half. apply Qfloor_comp. field. }
  rewrite H, Z.add_comm.
  rewrite (Z.div_mod (Qfloor (2 * y)) 2) at 1 by lia.
  rewrite Zmod_odd. destruct (Z.odd _); cbn [Z.b2z]; lia.
Qed.

Lemma is_int_half (x : Q) :
  is_int (x / 2) = is_int x && negb (Z.odd (Qfloor x)).
Proof.
  unfold is_int. rewrite Qfloor_half.
  destruct (Qeq_bool (x / 2) _) eqn:E1.
  - apply Qeq_bool_iff in E1.
    assert (Hx : x == inject_Z (2 * (Qfloor x / 2))).
    { rewrite inject_Z_mult. rewrite <- E1. field. }
    assert (Hf : Qfloor x = (2 * (Qfloor x / 2))%Z).
    { rewrite (Qfloor_comp _ _ Hx) at 1. apply Qfloor_Z. }
    symmetry. apply andb_true_iff. split.
    + apply Qeq_bool_iff. rewrite Hf at 1. exact Hx.
    + rewrite Hf, Z.odd_mul. reflexivity.
  - symmetry. apply andb_false_iff.
    destruct (Qeq_bool x _) eqn:E2; [right | now left].
    destruct (Z.odd (Qfloor x)) eqn:Hodd; [reflexivity | exfalso].
    apply Qeq_bool_iff in E2.
    assert (Hf : Qfloor x = (2 * (Qfloor x / 2))%Z).
    { pose proof (Z.div_mod (Qfloor x) 2 ltac:(lia)) as Hdm.
      rewrite Zmod_odd, Hodd in Hdm. lia. }
    assert (E : x / 2 == inject_Z (Qfloor x / 2)).
    { rewrite E2 at 1. rewrite Hf at 1. rewrite inject_Z_mult. field. }
    apply Qeq_bool_iff in E. congruence.
Qed.

Lemma shr_1_nonneg (m : Z) (r s : bool) :
  (0 <= m)%Z ->
  shr_1 {| shr_m := m; shr_r := r; shr_s := s |}
  = {| shr_m := (m / 2)%Z; shr_r := Z.odd m; shr_s := r || s |}.
Proof.
  intros Hm. rewrite <- Z.div2_div.
  destruct m as [|[p|p|]|p]; try reflexivity; lia.
Qed.

Lemma Qfloor_nonneg (y : Q) : 0 <= y -> (0 <= Qfloor y)%Z.
Proof. intros H. change 0%Z with (Qfloor 0). now apply Qfloor_resp_le. Qed.

Lemma shr_1_record_of (y : Q) : 0 <= y -> shr_1 (record_of y) = record_of (y / 2).
Proof.
  intros Hy. unfold record_of at 1. rewrite shr_1_nonneg by now apply Qfloor_nonneg.
  unfold record_of.
  assert (H2 : 2 * (y / 2) == y) by field.
  rewrite (Qfloor_comp _ _ H2), Qfloor_half. f_equal.
  assert (Hint : is_int y = is_int (2 * y) && negb (Z.odd (Qfloor (2 * y)))).
  { rewrite <- is_int_half. unfold is_int.
    assert (H3 : 2 * y / 2 == y) by field.
    rewrite (Qfloor_comp _ _ H3).
    now rewrite (Qeqb_comp _ _ H3 _ _ (Qeq_refl _)). }
  assert (Hs : Qeq_bool (2 * (y / 2)) (inject_Z (Qfloor y)) = is_int y).
  { unfold is_int. now rewrite (Qeqb_comp _ _ H2 _ _ (Qeq_refl _)). }
  rewrite Hs, Hint. unfold is_int.
  destruct (Qeq_bool (2 * y) _), (Z.odd (Qfloor (2 * y))); reflexivity.
Qed.

Lemma pow2_pos (e : Z) : 0 < 2 ^ e.
Proof. now apply Qpower_0_lt. Qed.

Lemma pow2_neq_0 (e : Z) : ~ 2 ^ e == 0.
Proof. pose proof (pow2_pos e). lra. Qed.

Lemma pow2_add (a b : Z) : 2 ^ (a + b) == 2 ^ a * 2 ^ b.
Proof. apply Qpower_plus. discriminate. Qed.

Lemma pow2_le (a b : Z) : (a <= b)%Z -> 2 ^ a <= 2 ^ b.
Proof. intros H. apply Qpower_le_compat_l; [exact H | discriminate]. Qed.

Lemma pow2_lt_inv (a b : Z) : 2 ^ a < 2 ^ b -> (a < b)%Z.
Proof. intros H. now apply (Qpower_lt_compat_l_inv 2). Qed.

Lemma pow2_Z (n : Z) : (0 <= n)%Z -> inject_Z (2 ^ n) == 2 ^ n.
Proof. intros H. now rewrite Zpower_Qpower. Qed.

Lemma div_pow2_nonneg (y : Q) (e : Z) : 0 <= y -> 0 <= y / 2 ^ e.
Proof.
  intros H. apply Qle_shift_div_l; [apply pow2_pos | lra].
Qed.

Lemma div_pow2_le (x y : Q) (e : Z) : x <= y -> x / 2 ^ e <= y / 2 ^ e.
Proof.
  intros H. unfold Qdiv. apply Qmult_le_compat_r; [exact H |].
  apply Qinv_le_0_compat. apply Qlt_le_weak, pow2_pos.
Qed.

Lemma div_pow2_add (y : Q) (a b : Z) : y / 2 ^ a / 2 ^ b == y / 2 ^ (a + b).
Proof.
  rewrite pow2_add. field. split; apply pow2_neq_0.
Qed.

Lemma iter_pos_shr_1 (p : positive) (y : Q) :
  0 <= y -> iter_pos shr_1 p (record_of y) = record_of (y / 2 ^ Zpos p).
Proof.
  revert y. induction p as [p IH|p IH|]; intros y Hy; cbn [iter_pos].
  - assert (Hy2 : 0 <= y / 2) by (change (y / 2) with (y / 2 ^ 1); now apply div_pow2_nonneg).
    rewrite shr_1_record_of, IH, IH by auto using div_pow2_nonneg.
    apply record_of_comp. rewrite div_pow2_add.
    change (y / 2) with (y / 2 ^ 1). rewrite div_pow2_add.
    now replace (1 + (Z.pos p + Z.pos p))%Z with (Z.pos p~1) by lia.
  - rewrite IH, IH by auto using div_pow2_nonneg.
    apply record_of_comp. rewrite div_pow2_add.
    now replace (Z.pos p + Z.pos p)%Z with (Z.pos p~0) by lia.
  - now apply shr_1_record_of.
Qed.

(** The record of [y], read as the integer [4 * m + 2 * r + s], grows
    with [y]. *)
Lemma record_of_monotone (x y : Q) :
  x <= y ->
  (2 * Qfloor (2 * x) + Z.b2z (shr_s (record_of x))
   <= 2 * Qfloor (2 * y) + Z.b2z (shr_s (record_of y)))%Z.
Proof.
  intros H. cbn [record_of shr_s].
  assert (Hf : (Qfloor (2 * x) <= Qfloor (2 * y))%Z) by (apply Qfloor_resp_le; lra).
  destruct (Z.eq_dec (Qfloor (2 * x)) (Qfloor (2 * y))) as [E|E].
  2:{ destruct (Qeq_bool (2 * x) _), (Qeq_bool (2 * y) _); cbn [negb Z.b2z]; lia. }
  destruct (Qeq_bool (2 * x) _) eqn:Ex; [destruct (Qeq_bool (2 * y) _); cbn [negb Z.b2z]; lia |].
  destruct (Qeq_bool (2 * y) _) eqn:Ey; [exfalso | cbn [negb Z.b2z]; lia].
  apply Qeq_bool_iff in Ey. apply Qeq_bool_neq in Ex. apply Ex.
  pose proof (Qfloor_le (2 * x)) as Hx. rewrite E in *.
  apply Qle_antisym; lra.
Qed.

Lemma rne_monotone (x y : Q) : x <= y -> (rne x <= rne y)%Z.
Proof.
  intros H. pose proof (record_of_monotone x y H) as Hc.
  rewrite (Qfloor_double x), (Qfloor_double y) in Hc.
  unfold rne. revert Hc. cbn [record_of shr_m shr_s shr_r loc_of_shr_record].
  generalize (Qfloor x) (Qfloor y). intros m1 m2.
  destruct (Z.odd (Qfloor (2 * x))), (Z.odd (Qfloor (2 * y)));
    destruct (Qeq_bool (2 * x) _), (Qeq_bool (2 * y) _);
    cbn [negb Z.b2z round_nearest_even]; intros Hc;
    destruct (Z.even m1) eqn:E1; destruct (Z.even m2) eqn:E2; try lia;
    (destruct (Z.eq_dec m1 m2); [subst; congruence | lia]).
Qed.

Lemma rne_bounds (y : Q) : (Qfloor y <= rne y <= Qfloor y + 1)%Z.
Proof.
  unfold rne. cbn [record_of shr_m loc_of_shr_record].
  destruct (Z.odd _), (negb _); cbn [round_nearest_even]; try lia.
  destruct (Z.even _); lia.
Qed.

End RoundingLemmas.

(** *** What [binary_round_aux] computes *)
Section RoundingSpec.
Import SpecFloat Rounding.
Local Open Scope Q_scope.

Lemma digits2_pos_bounds (p : positive) :
  (2 ^ (Zpos (digits2_pos p) - 1) <= Zpos p < 2 ^ Zpos (digits2_pos p))%Z.
Proof.
  induction p as [p IH|p IH|]; cbn [digits2_pos]; [| | cbn; lia];
    rewrite Pos2Z.inj_succ;
    replace (Z.succ (Zpos (digits2_pos p)) - 1)%Z with (Z.succ (Zpos (digits2_pos p) - 1)) by lia;
    rewrite !Z.pow_succ_r by lia; lia.
Qed.

Lemma mul_div_pow2 (v : Q) (e : Z) : v / 2 ^ e * 2 ^ e == v.
Proof. field. apply pow2_neq_0. Qed.

Lemma floor_div_pow2 (v : Q) (e : Z) :
  inject_Z (Qfloor (v / 2 ^ e)) * 2 ^ e <= v /\
  v < inject_Z (Qfloor (v / 2 ^ e) + 1) * 2 ^ e.
Proof.
  pose proof (pow2_pos e) as Hp.
  pose proof (Qfloor_le (v / 2 ^ e)) as Hlo. pose proof (Qlt_floor (v / 2 ^ e)) as Hhi.
  split.
  - apply (Qmult_le_compat_r _ _ (2 ^ e)) in Hlo; [| lra].
    now rewrite mul_div_pow2 in Hlo.
  - apply (Qmult_lt_compat_r _ _ (2 ^ e)) in Hhi; [| lra].
    now rewrite mul_div_pow2 in Hhi.
Qed.

(** [v] between two integers at exponent [e], in powers of two. *)
Lemma between_pow2 (v : Q) (m e d : Z) :
  (0 <= d - 1)%Z -> (2 ^ (d - 1) <= m)%Z -> (m + 1 <= 2 ^ d)%Z ->
  inject_Z m * 2 ^ e <= v -> v < inject_Z (m + 1) * 2 ^ e ->
  2 ^ (d + e - 1) <= v /\ v < 2 ^ (d + e).
Proof.
  intros Hd Hlo Hhi Hv1 Hv2. pose proof (pow2_pos e) as Hp.
  split.
  - replace (d + e - 1)%Z with ((d - 1) + e)%Z by lia. rewrite pow2_add, <- pow2_Z by lia.
    apply Qle_trans with (inject_Z m * 2 ^ e); [| exact Hv1].
    apply Qmult_le_compat_r; [| lra]. now rewrite <- Zle_Qle.
  - rewrite pow2_add, <- pow2_Z by lia.
    apply Qlt_le_trans with (inject_Z (m + 1) * 2 ^ e); [exact Hv2 |].
    apply Qmult_le_compat_r; [| lra]. now rewrite <- Zle_Qle.
Qed.

Lemma fexp_of_magnitude (v : Q) (a ce : Z) :
  2 ^ (a - 1) <= v -> v < 2 ^ a -> canon v ce -> fexp prec emax a = ce.
Proof.
  intros Hlo Hhi (Hmin & Hlt & Hge). unfold fexp, SpecFloat.emin, prec, emax in *.
  assert (a - 1 < ce + 53)%Z by (apply pow2_lt_inv; lra).
  destruct (Z.eq_dec ce (3 - 1024 - 53)%Z) as [->|Hne]; [lia |].
  assert (ce + 53 - 1 < a)%Z by (apply pow2_lt_inv; specialize (Hge ltac:(lia)); lra).
  lia.
Qed.

Lemma canon_unique_le (v1 v2 : Q) (ce1 ce2 : Z) :
  v1 <= v2 -> canon v1 ce1 -> canon v2 ce2 -> (ce1 <= ce2)%Z.
Proof.
  intros Hv (Hmin1 & Hlt1 & Hge1) (Hmin2 & Hlt2 & Hge2).
  destruct (Z.le_gt_cases ce1 ce2) as [H|H]; [exact H | exfalso].
  specialize (Hge1 ltac:(lia)).
  assert (ce1 + prec - 1 < ce2 + prec)%Z by (apply pow2_lt_inv; lra). lia.
Qed.

Lemma shr_m_of_loc (m : Z) (l : location) : shr_m (shr_record_of_loc m l) = m.
Proof. now destruct l as [|[]]. Qed.

Lemma rne_canon_bounds (v : Q) (ce : Z) :
  0 < v -> canon v ce ->
  (0 <= rne (v / 2 ^ ce) <= 2 ^ prec)%Z /\
  ((SpecFloat.emin prec emax < ce)%Z -> (2 ^ (prec - 1) <= rne (v / 2 ^ ce))%Z).
Proof.
  intros Hv (Hmin & Hlt & Hge).
  pose proof (rne_bounds (v / 2 ^ ce)) as Hr.
  pose proof (floor_div_pow2 v ce) as [Hlo Hhi].
  pose proof (pow2_pos ce) as Hp.
  assert (H0 : (0 <= Qfloor (v / 2 ^ ce))%Z).
  { apply Qfloor_nonneg, div_pow2_nonneg. lra. }
  assert (H1 : (Qfloor (v / 2 ^ ce) < 2 ^ prec)%Z).
  { apply Z.lt_nge. intros Hc. rewrite Zle_Qle in Hc.
    rewrite pow2_Z in Hc by (unfold prec; lia).
    assert (2 ^ prec * 2 ^ ce <= v).
    { apply Qle_trans with (inject_Z (Qfloor (v / 2 ^ ce)) * 2 ^ ce); [| exact Hlo].
      apply Qmult_le_compat_r; [exact Hc | lra]. }
    rewrite <- pow2_add, Z.add_comm in H. lra. }
  split; [lia |]. intros Hce. specialize (Hge Hce).
  assert (H2 : (2 ^ (prec - 1) < Qfloor (v / 2 ^ ce) + 1)%Z).
  { apply Z.lt_nge. intros Hc. rewrite Zle_Qle in Hc.
    rewrite pow2_Z in Hc by (unfold prec; lia).
    assert (v < 2 ^ (prec - 1) * 2 ^ ce).
    { apply Qlt_le_trans with (inject_Z (Qfloor (v / 2 ^ ce) + 1) * 2 ^ ce); [exact Hhi |].
      apply Qmult_le_compat_r; [exact Hc | lra]. }
    rewrite <- pow2_add in H.
    replace (prec - 1 + ce)%Z with (ce + prec - 1)%Z in H by lia. lra. }
  lia.
Qed.

Lemma shr_to_canon (v : Q) (e ce : Z) :
  0 < v -> (e <= ce)%Z ->
  shr (record_of (v / 2 ^ e)) e (ce - e) = (record_of (v / 2 ^ ce), ce).
Proof.
  intros Hv He. unfold shr. destruct (ce - e)%Z as [|p|p] eqn:En; [| | lia].
  - now replace ce with e by lia.
  - rewrite iter_pos_shr_1 by (apply div_pow2_nonneg; lra).
    f_equal; [| lia]. apply record_of_comp. rewrite div_pow2_add.
    now replace (e + Z.pos p)%Z with ce by lia.
Qed.

Lemma shr_not_positive (mrs : shr_record) (e n : Z) : (n <= 0)%Z -> shr mrs e n = (mrs, e).
Proof. intros H. destruct n; [reflexivity | lia | reflexivity]. Qed.

(** [binary_round_aux] on a positive value [v] that is given at an
    exponent [e] not above its exponent [ce] in the format: the result
    is [v / 2 ** ce] rounded to the nearest integer, ties to even, at
    exponent [ce]. *)
Lemma binary_round_aux_spec (v : Q) (m e : Z) (l : location) (ce : Z) :
  0 < v ->
  shr_record_of_loc m l = record_of (v / 2 ^ e) ->
  canon v ce -> (e <= ce)%Z ->
  binary_round_aux prec emax false m e l = rounded (rne (v / 2 ^ ce)) ce.
Proof.
  intros Hv Hrep Hcanon He.
  assert (Hm : m = Qfloor (v / 2 ^ e)).
  { rewrite <- (shr_m_of_loc m l), Hrep. reflexivity. }
  assert (Hm0 : (0 <= m)%Z).
  { rewrite Hm. apply Qfloor_nonneg, div_pow2_nonneg. lra. }
  pose proof (floor_div_pow2 v e) as [Hlo Hhi]. rewrite <- Hm in Hlo, Hhi.
  assert (Hfexp : fexp prec emax (Zdigits2 m + e) = ce).
  { destruct m as [|p|p]; [| | lia].
    - cbn [Zdigits2 Z.add]. destruct Hcanon as (Hmin & Hlt & Hge).
      cbn in Hhi. rewrite Qmult_1_l in Hhi.
      destruct (Z.eq_dec ce (SpecFloat.emin prec emax)) as [->|Hne].
      + unfold fexp, SpecFloat.emin, prec, emax in *. lia.
      + exfalso. specialize (Hge ltac:(lia)).
        pose proof (pow2_le e ce He).
        assert (ce + prec - 1 < ce)%Z by (apply pow2_lt_inv; lra).
        unfold prec in *. lia.
    - cbn [Zdigits2]. pose proof (digits2_pos_bounds p) as [Hd1 Hd2].
      destruct (between_pow2 v (Zpos p) e (Zpos (digits2_pos p))) as [Hb1 Hb2];
        try assumption; try lia.
      now apply (fexp_of_magnitude v). }
  unfold binary_round_aux, shr_fexp. rewrite Hrep, Hfexp, shr_to_canon by assumption.
  change (round_nearest_even (shr_m (record_of (v / 2 ^ ce)))
            (loc_of_shr_record (record_of (v / 2 ^ ce)))) with (rne (v / 2 ^ ce)).
  destruct (rne_canon_bounds v ce Hv Hcanon) as [Hb _].
  destruct Hcanon as (Hmin & _).
  generalize dependent (rne (v / 2 ^ ce)). intros r Hb. unfold rounded.
  destruct (Z.eqb_spec r 0) as [->|Hr0].
  { rewrite shr_not_positive; [reflexivity |].
    cbn [Zdigits2 Z.add]. unfold fexp, SpecFloat.emin, prec, emax in *. lia. }
  destruct (Z.ltb_spec r (2 ^ prec)) as [Hlt|Hge].
  - destruct r as [|p|p]; [lia | | lia].
    rewrite shr_not_positive; [reflexivity |].
    cbn [Zdigits2]. pose proof (digits2_pos_bounds p) as [Hd1 Hd2].
    assert (Zpos (digits2_pos p) - 1 < prec)%Z.
    { apply (Z.pow_lt_mono_r_iff 2); unfold prec in *; lia. }
    unfold fexp, SpecFloat.emin, prec, emax in *. lia.
  - assert (Hr : r = (2 ^ prec)%Z) by lia. subst r.
    assert (Hn : (fexp prec emax (Zdigits2 (2 ^ prec) + ce) - ce = 1)%Z).
    { change (Zdigits2 (2 ^ prec)) with 54%Z.
      unfold fexp, SpecFloat.emin, prec, emax in *. lia. }
    rewrite Hn. reflexivity.
Qed.

Lemma finite_or_infinity_le (p1 p2 : positive) (e1 e2 : Z) :
  (e1 < e2 \/ (e1 = e2 /\ Zpos p1 <= Zpos p2))%Z ->
  SFleb (if (e1 <=? emax - prec)%Z then S754_finite false p1 e1 else S754_infinity false)
        (if (e2 <=? emax - prec)%Z then S754_finite false p2 e2 else S754_infinity false)
  = true.
Proof.
  change (emax - prec)%Z with 971%Z. intros H.
  destruct (Z.leb_spec e1 971), (Z.leb_spec e2 971); try reflexivity; [| lia].
  unfold SFleb. cbn [SFcompare].
  change (Pos.compare_cont Eq p1 p2) with (Pos.compare p1 p2).
  destruct (Z.compare_spec e1 e2); [| reflexivity | lia].
  destruct (Pos.compare_spec p1 p2); [reflexivity | reflexivity | lia].
Qed.

Lemma rounded_le (m1 m2 ce1 ce2 : Z) :
  (0 <= m1 <= 2 ^ prec)%Z -> (0 <= m2 <= 2 ^ prec)%Z -> (ce1 <= ce2)%Z ->
  (ce1 = ce2 -> m1 <= m2)%Z -> (ce1 < ce2 -> 2 ^ (prec - 1) <= m2)%Z ->
  SFleb (rounded m1 ce1) (rounded m2 ce2) = true.
Proof.
  unfold rounded.
  change (2 ^ prec)%Z with 9007199254740992%Z.
  change (2 ^ (prec - 1))%Z with 4503599627370496%Z.
  intros H1 H2 Hce Heq Hlt.
  destruct (Z.eqb_spec m1 0) as [->|Hm1].
  { destruct (Z.eqb_spec m2 0); [reflexivity |].
    destruct (m2 <? _)%Z; [destruct (ce2 <=? _)%Z | destruct (ce2 + 1 <=? _)%Z]; reflexivity. }
  destruct (Z.eqb_spec m2 0) as [->|Hm2]; [lia |].
  destruct (Z.ltb_spec m1 9007199254740992), (Z.ltb_spec m2 9007199254740992);
    apply finite_or_infinity_le; rewrite ?Z2Pos.id by lia; lia.
Qed.

(** Rounding to binary64 is monotone. *)
Lemma rounded_monotone (v1 v2 : Q) (ce1 ce2 : Z) :
  0 < v1 -> v1 <= v2 -> canon v1 ce1 -> canon v2 ce2 ->
  SFleb (rounded (rne (v1 / 2 ^ ce1)) ce1) (rounded (rne (v2 / 2 ^ ce2)) ce2) = true.
Proof.
  intros H0 Hle Hc1 Hc2.
  destruct (rne_canon_bounds v1 ce1 H0 Hc1) as [Hb1 _].
  destruct (rne_canon_bounds v2 ce2 ltac:(lra) Hc2) as [Hb2 Hn2].
  pose proof (canon_unique_le v1 v2 ce1 ce2 Hle Hc1 Hc2) as Hce.
  apply rounded_le; try assumption.
  - intros ->. apply rne_monotone. now apply div_pow2_le.
  - intros Hlt. apply Hn2. destruct Hc1 as (Hmin & _). lia.
Qed.

End RoundingSpec.

(** *** Sums, differences and quotients of positive floats *)
Section Operations.
Import SpecFloat Rounding.
Local Open Scope Q_scope.

Lemma canon_of_magnitude (v : Q) (a : Z) :
  2 ^ (a - 1) <= v -> v < 2 ^ a -> canon v (fexp prec emax a).
Proof.
  intros Hlo Hhi. unfold canon, fexp, SpecFloat.emin, prec, emax.
  split; [lia |]. split.
  - apply Qlt_le_trans with (2 ^ a); [exact Hhi |]. apply pow2_le. lia.
  - intros H. apply Qle_trans with (2 ^ (a - 1)); [| exact Hlo]. apply pow2_le. lia.
Qed.

Lemma canon_of_digits (p : positive) (e : Z) :
  canon (inject_Z (Zpos p) * 2 ^ e) (fexp prec emax (Zpos (digits2_pos p) + e)).
Proof.
  pose proof (digits2_pos_bounds p) as [Hd1 Hd2]. pose proof (pow2_pos e) as Hp.
  destruct (between_pow2 (inject_Z (Zpos p) * 2 ^ e) (Zpos p) e (Zpos (digits2_pos p)))
    as [Hb1 Hb2]; try lia.
  - apply Qle_refl.
  - apply Qmult_lt_compat_r; [exact Hp |]. rewrite <- Zlt_Qlt. lia.
  - now apply canon_of_magnitude.
Qed.

Lemma bounded_canonical (m : positive) (e : Z) :
  bounded prec emax m e = true ->
  fexp prec emax (Zpos (digits2_pos m) + e) = e /\ (e <= emax - prec)%Z.
Proof.
  unfold bounded, canonical_mantissa. intros H. apply andb_true_iff in H as [H1 H2].
  split; [now apply Z.eqb_eq | now apply Z.leb_le].
Qed.

Lemma canon_of_bounded (m : positive) (e : Z) :
  bounded prec emax m e = true -> canon (inject_Z (Zpos m) * 2 ^ e) e.
Proof.
  intros H. apply bounded_canonical in H as [H _].
  pose proof (canon_of_digits m e) as Hc. now rewrite H in Hc.
Qed.

Lemma value_pos (m : positive) (e : Z) : 0 < value (S754_finite false m e).
Proof.
  cbn [value]. apply Qmult_lt_0_compat; [| apply pow2_pos]. now rewrite <- (Zlt_Qlt 0).
Qed.

(** The order of valid non-negative floats is the order of their
    values. *)
Lemma SFleb_value (m1 m2 : positive) (e1 e2 : Z) :
  bounded prec emax m1 e1 = true -> bounded prec emax m2 e2 = true ->
  SFleb (S754_finite false m1 e1) (S754_finite false m2 e2) = true ->
  value (S754_finite false m1 e1) <= value (S754_finite false m2 e2).
Proof.
  intros H1 H2. apply canon_of_bounded in H1 as (Hmin1 & Hlt1 & _).
  apply canon_of_bounded in H2 as (Hmin2 & _ & Hge2).
  unfold SFleb. cbn [SFcompare value].
  change (Pos.compare_cont Eq m1 m2) with (Pos.compare m1 m2).
  destruct (Z.compare_spec e1 e2) as [->|He|He]; [| | discriminate].
  - destruct (Pos.compare_spec m1 m2) as [->|Hm|Hm]; try discriminate; intros _.
    + apply Qle_refl.
    + apply Qmult_le_compat_r; [| apply Qlt_le_weak, pow2_pos]. rewrite <- Zle_Qle. lia.
  - intros _. specialize (Hge2 ltac:(lia)).
    pose proof (pow2_le (e1 + prec) (e2 + prec - 1) ltac:(lia)). lra.
Qed.

Lemma record_of_Z (z : Z) :
  record_of (inject_Z z) = {| shr_m := z; shr_r := false; shr_s := false |}.
Proof.
  unfold record_of.
  assert (H2 : 2 * inject_Z z == inject_Z (2 * z)) by now rewrite inject_Z_mult.
  rewrite (Qfloor_comp _ _ H2), !Qfloor_Z, Z.odd_mul. cbn [Z.odd andb].
  now rewrite (Qeq_eq_bool _ _ H2).
Qed.

Lemma rne_Z (z : Z) : rne (inject_Z z) = z.
Proof. unfold rne. now rewrite record_of_Z. Qed.

Lemma canon_unique (v : Q) (ce1 ce2 : Z) : canon v ce1 -> canon v ce2 -> ce1 = ce2.
Proof.
  intros H1 H2.
  pose proof (canon_unique_le v v ce1 ce2 (Qle_refl v) H1 H2).
  pose proof (canon_unique_le v v ce2 ce1 (Qle_refl v) H2 H1). lia.
Qed.

Lemma rounds_to_monotone (v1 v2 : Q) (r1 r2 : spec_float) :
  0 < v1 -> v1 <= v2 -> rounds_to v1 r1 -> rounds_to v2 r2 -> SFleb r1 r2 = true.
Proof.
  intros H0 Hle (ce1 & Hc1 & ->) (ce2 & Hc2 & ->). now apply rounded_monotone.
Qed.

Lemma rounded_nonneg (m ce : Z) : nonneg (rounded m ce) = true.
Proof.
  unfold rounded.
  destruct (m =? 0)%Z; [reflexivity |].
  destruct (m <? _)%Z; [destruct (ce <=? _)%Z | destruct (ce + 1 <=? _)%Z]; reflexivity.
Qed.

Lemma rounds_to_nonneg (v : Q) (r : spec_float) : rounds_to v r -> nonneg r = true.
Proof. intros (ce & _ & ->). apply rounded_nonneg. Qed.

(** A valid float is its own value, rounded. *)
Lemma rounds_to_self (m : positive) (e : Z) :
  bounded prec emax m e = true ->
  rounds_to (value (S754_finite false m e)) (S754_finite false m e).
Proof.
  intros H. exists e. split; [now apply canon_of_bounded |].
  pose proof (bounded_canonical m e H) as [Hf He].
  cbn [value].
  assert (Hq : inject_Z (Zpos m) * 2 ^ e / 2 ^ e == inject_Z (Zpos m)).
  { field. apply pow2_neq_0. }
  unfold rne. rewrite (record_of_comp _ _ Hq), record_of_Z.
  cbn [shr_m loc_of_shr_record round_nearest_even]. unfold rounded.
  pose proof (digits2_pos_bounds m) as [Hd1 Hd2].
  assert (Hd : (Zpos (digits2_pos m) <= prec)%Z)
    by (unfold fexp, SpecFloat.emin, prec, emax in *; lia).
  assert (Hm : (Zpos m < 2 ^ prec)%Z).
  { apply Z.lt_le_trans with (2 ^ Zpos (digits2_pos m))%Z; [lia |].
    apply Z.pow_le_mono_r; lia. }
  cbn [Z.eqb]. apply Z.ltb_lt in Hm. rewrite Hm.
  apply Z.leb_le in He. now rewrite He.
Qed.

Lemma iter_xO (m d : positive) : Zpos (Pos.iter xO m d) = (Zpos m * 2 ^ Zpos d)%Z.
Proof.
  induction d as [|d IH] using Pos.peano_ind.
  - cbn. lia.
  - rewrite Pos.iter_succ, Pos2Z.inj_xO, IH, Pos2Z.inj_succ, Z.pow_succ_r by lia. lia.
Qed.

Lemma shl_align_spec (m : positive) (e e' : Z) :
  let '(m', e'') := shl_align m e e' in
  e'' = Z.min e e' /\ Zpos m' = (Zpos m * 2 ^ (e - e''))%Z.
Proof.
  unfold shl_align. destruct (e' - e)%Z as [|d|d] eqn:Hd.
  - split; [lia |]. rewrite Z.sub_diag. cbn. lia.
  - split; [lia |]. rewrite Z.sub_diag. cbn. lia.
  - split; [lia |]. rewrite iter_xO. f_equal. f_equal. lia.
Qed.

Lemma value_shift (m : Z) (e e' : Z) :
  (e' <= e)%Z -> inject_Z (m * 2 ^ (e - e')) * 2 ^ e' == inject_Z m * 2 ^ e.
Proof.
  intros H. rewrite inject_Z_mult, pow2_Z by lia.
  rewrite <- Qmult_assoc, <- pow2_add. now replace (e - e' + e')%Z with e by lia.
Qed.

(** [binary_round] rounds the value of its argument. *)
Lemma binary_round_spec (p : positive) (e : Z) :
  rounds_to (inject_Z (Zpos p) * 2 ^ e) (binary_round prec emax false p e).
Proof.
  set (v := inject_Z (Zpos p) * 2 ^ e).
  assert (Hv : 0 < v) by apply (value_pos p e).
  pose proof (canon_of_digits p e) as Hc. fold v in Hc.
  exists (fexp prec emax (Zpos (digits2_pos p) + e)). split; [exact Hc |].
  unfold binary_round.
  pose proof (shl_align_spec p e (fexp prec emax (Zpos (digits2_pos p) + e))) as Hs.
  destruct (shl_align p e _) as [mz ez]. destruct Hs as [Hez Hmz].
  apply binary_round_aux_spec; try assumption; [| lia].
  cbn [shr_record_of_loc]. rewrite <- record_of_Z. apply record_of_comp.
  rewrite Hmz. unfold v. rewrite <- (value_shift (Zpos p) e ez) by lia.
  field. apply pow2_neq_0.
Qed.

Lemma canon_comp (v v' : Q) (ce : Z) : v == v' -> canon v ce -> canon v' ce.
Proof. intros H (H1 & H2 & H3). unfold canon. rewrite <- H. auto. Qed.

Lemma rounds_to_comp (v v' : Q) (r : spec_float) : v == v' -> rounds_to v r -> rounds_to v' r.
Proof.
  intros H (ce & Hc & ->). exists ce. split; [now apply (canon_comp v) |].
  unfold rne. assert (Hq : v / 2 ^ ce == v' / 2 ^ ce) by now rewrite H.
  now rewrite (record_of_comp _ _ Hq).
Qed.

Lemma binary_normalize_spec (M e : Z) :
  (0 < M)%Z -> rounds_to (inject_Z M * 2 ^ e) (binary_normalize prec emax M e false).
Proof.
  intros H. destruct M as [|p|p]; [lia | | lia]. apply binary_round_spec.
Qed.

Lemma shl_align_min (m : positive) (e e' : Z) :
  (e' <= e)%Z -> Zpos (fst (shl_align m e e')) = (Zpos m * 2 ^ (e - e'))%Z.
Proof.
  intros H. pose proof (shl_align_spec m e e') as Hs.
  destruct (shl_align m e e') as [m' e'']. destruct Hs as [-> Hm]. cbn [fst].
  rewrite Hm. f_equal. f_equal. lia.
Qed.

(** [x - c] for positive finite floats with [c <= x]. *)
Lemma SFsub_spec (mx mc : positive) (ex ec : Z) :
  let x := S754_finite false mx ex in
  let c := S754_finite false mc ec in
  value c <= value x ->
  (value x == value c /\ SFsub prec emax x c = S754_zero false) \/
  (value c < value x /\ rounds_to (value x - value c) (SFsub prec emax x c)).
Proof.
  intros x c Hle. unfold x, c in *. cbn [SFsub cond_Zopp].
  rewrite !shl_align_min by lia.
  set (ez := Z.min ex ec).
  set (M := (Zpos mx * 2 ^ (ex - ez) - Zpos mc * 2 ^ (ec - ez))%Z).
  assert (HM : inject_Z M * 2 ^ ez
               == value (S754_finite false mx ex) - value (S754_finite false mc ec)).
  { unfold M. cbn [value]. unfold Z.sub at 1. rewrite inject_Z_plus, inject_Z_opp.
    rewrite <- (value_shift (Zpos mx) ex ez), <- (value_shift (Zpos mc) ec ez) by lia.
    ring. }
  pose proof (pow2_pos ez) as Hp.
  destruct (Z.lt_trichotomy M 0) as [Hneg|[H0|Hpos]].
  - exfalso. assert (inject_Z M * 2 ^ ez < 0 * 2 ^ ez); [| lra].
    apply Qmult_lt_compat_r; [exact Hp |].
    assert (Hq : inject_Z M < inject_Z 0) by (rewrite <- Zlt_Qlt; lia). exact Hq.
  - left. rewrite H0 in *. split; [| reflexivity].
    assert (Hz : inject_Z 0 * 2 ^ ez == 0) by ring. lra.
  - right. assert (0 < inject_Z M * 2 ^ ez).
    { apply Qmult_lt_0_compat; [| exact Hp].
      assert (Hq : inject_Z 0 < inject_Z M) by (rewrite <- Zlt_Qlt; lia). exact Hq. }
    split; [lra |]. apply (rounds_to_comp _ _ _ HM). now apply binary_normalize_spec.
Qed.

(** [c + x] for positive finite floats. *)
Lemma SFadd_spec (mc mx : positive) (ec ex : Z) :
  let c := S754_finite false mc ec in
  let x := S754_finite false mx ex in
  rounds_to (value c + value x) (SFadd prec emax c x).
Proof.
  intros c x. unfold x, c in *. cbn [SFadd cond_Zopp].
  rewrite !shl_align_min by lia.
  set (ez := Z.min ec ex).
  set (M := (Zpos mc * 2 ^ (ec - ez) + Zpos mx * 2 ^ (ex - ez))%Z).
  assert (HM : inject_Z M * 2 ^ ez
               == value (S754_finite false mc ec) + value (S754_finite false mx ex)).
  { unfold M. cbn [value]. rewrite inject_Z_plus.
    rewrite <- (value_shift (Zpos mc) ec ez), <- (value_shift (Zpos mx) ex ez) by lia.
    ring. }
  apply (rounds_to_comp _ _ _ HM). apply binary_normalize_spec.
  unfold M. assert (0 < 2 ^ (ec - ez))%Z by (apply Z.pow_pos_nonneg; lia).
  assert (0 < 2 ^ (ex - ez))%Z by (apply Z.pow_pos_nonneg; lia). nia.
Qed.

Lemma inject_Z_neq_0 (D : Z) : (0 < D)%Z -> ~ inject_Z D == 0.
Proof. intros HD H. unfold Qeq in H. cbn in H. lia. Qed.

Lemma fraction_is_integer (A D : Z) :
  (0 < D)%Z ->
  Qeq_bool (inject_Z A / inject_Z D) (inject_Z (A / D)) = (A mod D =? 0)%Z.
Proof.
  intros HD. pose proof (Z.div_mod A D ltac:(lia)) as Hdm.
  assert (HDq : ~ inject_Z D == 0) by now apply inject_Z_neq_0.
  destruct (Z.eqb_spec (A mod D) 0) as [E|E].
  - apply Qeq_eq_bool. rewrite Hdm at 1. rewrite E, Z.add_0_r, inject_Z_mult. now field.
  - destruct (Qeq_bool _ _) eqn:Eb; [exfalso | reflexivity].
    apply Qeq_bool_iff in Eb. apply E.
    assert (Hq : inject_Z A == inject_Z (A / D * D)).
    { rewrite inject_Z_mult, <- Eb. now field. }
    apply (proj1 (inject_Z_injective _ _)) in Hq. rewrite Hq. apply Z.mod_mul. lia.
Qed.

(** The quotient and the location [SFdiv_core_binary] computes are the
    record of the fraction. *)
Lemma record_of_fraction (N D : Z) :
  (0 <= N)%Z -> (0 < D)%Z ->
  shr_record_of_loc (N / D) (new_location D (N mod D))
  = record_of (inject_Z N / inject_Z D).
Proof.
  intros HN HD.
  assert (HDq : ~ inject_Z D == 0) by now apply inject_Z_neq_0.
  assert (H2 : 2 * (inject_Z N / inject_Z D) == inject_Z (2 * N) / inject_Z D).
  { rewrite inject_Z_mult. now field. }
  unfold record_of.
  rewrite (Qfloor_comp _ _ H2), (Qeqb_comp _ _ H2 _ _ (Qeq_refl _)).
  rewrite <- !Zdiv_Qdiv, fraction_is_integer by exact HD.
  pose proof (Z.div_mod N D ltac:(lia)) as Hdm.
  pose proof (Z.mod_pos_bound N D HD) as Hr.
  set (q := (N / D)%Z) in *. set (r := (N mod D)%Z) in *.
  assert (Hcases : (2 * r < D /\ 2 * N / D = 2 * q /\ (2 * N) mod D = 2 * r)%Z \/
                   (D <= 2 * r /\ 2 * N / D = 2 * q + 1 /\ (2 * N) mod D = 2 * r - D)%Z).
  { destruct (Z.lt_ge_cases (2 * r) D) as [Hlt|Hge]; [left | right]; (split; [lia |]).
    - split; [symmetry; apply (Z.div_unique_pos _ _ _ (2 * r)%Z); lia |
              symmetry; apply (Z.mod_unique_pos _ _ (2 * q)%Z); lia].
    - split; [symmetry; apply (Z.div_unique_pos _ _ _ (2 * r - D)%Z); lia |
              symmetry; apply (Z.mod_unique_pos _ _ (2 * q + 1)%Z); lia]. }
  assert (Hodd1 : Z.odd (2 * q) = false) by now rewrite Z.odd_mul.
  assert (Hodd2 : Z.odd (2 * q + 1) = true) by (rewrite Z.add_comm, Z.odd_add_mul_2; reflexivity).
  unfold new_location, new_location_even, new_location_odd.
  destruct (Z.even D) eqn:Heven; cbv beta iota;
    (destruct (Z.eqb_spec r 0) as [Hr0|Hr0];
     [destruct Hcases as [(_ & -> & ->)|(? & _)]; [| lia];
      rewrite Hodd1, Hr0; reflexivity |]).
  - destruct (Z.compare_spec (2 * r) D) as [E|E|E];
      destruct Hcases as [(? & -> & ->)|(? & -> & ->)]; try lia;
      rewrite ?Hodd1, ?Hodd2; cbn [shr_record_of_loc]; f_equal.
    + replace (2 * r - D)%Z with 0%Z by lia. reflexivity.
    + destruct (Z.eqb_spec (2 * r) 0); [lia | reflexivity].
    + destruct (Z.eqb_spec (2 * r - D) 0); [lia | reflexivity].
  - assert (Hne : (2 * r <> D)%Z).
    { intros E. rewrite <- E, Z.even_mul in Heven. discriminate. }
    destruct (Z.compare_spec (2 * r + 1) D) as [E|E|E];
      destruct Hcases as [(? & -> & ->)|(? & -> & ->)]; try lia;
      rewrite ?Hodd1, ?Hodd2; cbn [shr_record_of_loc]; f_equal.
    + destruct (Z.eqb_spec (2 * r) 0); [lia | reflexivity].
    + destruct (Z.eqb_spec (2 * r) 0); [lia | reflexivity].
    + destruct (Z.eqb_spec (2 * r - D) 0); [lia | reflexivity].
Qed.

(** [x / c] for positive finite floats. *)
Lemma SFdiv_spec (mx mc : positive) (ex ec : Z) :
  let x := S754_finite false mx ex in
  let c := S754_finite false mc ec in
  rounds_to (value x / value c) (SFdiv prec emax x c).
Proof.
  intros x c. unfold x, c. cbn [SFdiv xorb]. unfold SFdiv_core_binary. cbn [Zdigits2].
  set (X := value (S754_finite false mx ex)). set (C := value (S754_finite false mc ec)).
  assert (HX : 0 < X) by apply value_pos. assert (HC : 0 < C) by apply value_pos.
  set (d1 := Zpos (digits2_pos mx)). set (d2 := Zpos (digits2_pos mc)).
  set (delta := (d1 + ex - (d2 + ec))%Z).
  set (e' := Z.min (fexp prec emax delta) (ex - ec)).
  set (s := (ex - ec - e')%Z).
  assert (Hs : (0 <= s)%Z) by (unfold s, e'; lia).
  assert (Hm' : match s with
                | 0%Z => Zpos mx
                | Zpos _ => Z.shiftl (Zpos mx) s
                | Zneg _ => 0%Z
                end = (Zpos mx * 2 ^ s)%Z).
  { destruct s as [|p|p] eqn:Es; [cbn; lia | | lia]. now rewrite Z.shiftl_mul_pow2. }
  rewrite Hm'. set (N := (Zpos mx * 2 ^ s)%Z).
  assert (HN : (0 < N)%Z).
  { unfold N. assert (0 < 2 ^ s)%Z by (apply Z.pow_pos_nonneg; lia). nia. }
  assert (Hdiv : Z.div_eucl N (Zpos mc) = ((N / Zpos mc)%Z, (N mod Zpos mc)%Z)).
  { unfold Z.div, Z.modulo. now destruct (Z.div_eucl N (Zpos mc)). }
  rewrite Hdiv.
  assert (Hv : 0 < X / C).
  { apply Qlt_shift_div_l; [exact HC | lra]. }
  (* the magnitude of the quotient *)
  pose proof (digits2_pos_bounds mx) as [Hx1 Hx2]. fold d1 in Hx1, Hx2.
  pose proof (digits2_pos_bounds mc) as [Hc1 Hc2]. fold d2 in Hc1, Hc2.
  destruct (between_pow2 X (Zpos mx) ex d1) as [HX1 HX2]; try lia; try (unfold d1; lia).
  { apply Qle_refl. }
  { unfold X. cbn [value]. apply Qmult_lt_compat_r; [apply pow2_pos |].
    rewrite <- Zlt_Qlt. lia. }
  destruct (between_pow2 C (Zpos mc) ec d2) as [HC1 HC2]; try lia; try (unfold d2; lia).
  { apply Qle_refl. }
  { unfold C. cbn [value]. apply Qmult_lt_compat_r; [apply pow2_pos |].
    rewrite <- Zlt_Qlt. lia. }
  assert (Hlo : 2 ^ (delta - 1) <= X / C).
  { apply Qle_shift_div_l; [exact HC |].
    apply Qle_trans with (2 ^ (delta - 1) * 2 ^ (d2 + ec)).
    - apply Qmult_le_l; [apply pow2_pos | lra].
    - rewrite <- pow2_add. now replace (delta - 1 + (d2 + ec))%Z with (d1 + ex - 1)%Z
        by (unfold delta; lia). }
  assert (Hhi : X / C < 2 ^ (delta + 1)).
  { apply Qlt_shift_div_r; [exact HC |].
    apply Qlt_le_trans with (2 ^ (delta + 1) * 2 ^ (d2 + ec - 1)).
    - rewrite <- pow2_add. now replace (delta + 1 + (d2 + ec - 1))%Z with (d1 + ex)%Z
        by (unfold delta; lia).
    - apply Qmult_le_l; [apply pow2_pos | lra]. }
  assert (Hcanon : exists a, (delta <= a)%Z /\ canon (X / C) (fexp prec emax a)).
  { destruct (Qlt_le_dec (X / C) (2 ^ delta)) as [Hlt|Hge].
    - exists delta. split; [lia |]. now apply canon_of_magnitude.
    - exists (delta + 1)%Z. split; [lia |]. apply canon_of_magnitude; [| exact Hhi].
      now replace (delta + 1 - 1)%Z with delta by lia. }
  destruct Hcanon as (a & Ha & Hcanon).
  exists (fexp prec emax a). split; [exact Hcanon |].
  apply binary_round_aux_spec; try assumption.
  - rewrite record_of_fraction by lia. apply record_of_comp.
    unfold N, X, C. cbn [value]. rewrite inject_Z_mult, pow2_Z by exact Hs.
    assert (Hex : 2 ^ ex == 2 ^ s * 2 ^ e' * 2 ^ ec).
    { rewrite <- !pow2_add. now replace (s + e' + ec)%Z with ex by (unfold s; lia). }
    rewrite Hex. field. repeat split; try apply pow2_neq_0.
    now apply inject_Z_neq_0.
  - unfold e', fexp. lia.
Qed.

End Operations.

(** *** The operations are monotone *)
Section OrderedOperations.
Import SpecFloat Rounding.
Local Open Scope Q_scope.

Lemma SFleb_zero_nonneg (s : bool) (r : spec_float) :
  nonneg r = true -> SFleb (S754_zero s) r = true.
Proof. now destruct r as [?|[]| |[] ? ?]. Qed.

Lemma SFleb_nonneg_infinity (r : spec_float) :
  nonneg r = true -> SFleb r (S754_infinity false) = true.
Proof. now destruct r as [?|[]| |[] ? ?]. Qed.

(** What lies at or above a positive finite float. *)
Lemma above_finite (m : positive) (e : Z) (x : spec_float) :
  SFleb (S754_finite false m e) x = true ->
  x = S754_infinity false \/ exists mx ex, x = S754_finite false mx ex.
Proof.
  destruct x as [?|[]| |[] mx ex]; try discriminate; [now left | right; eauto].
Qed.

Lemma above_infinity (x : spec_float) :
  SFleb (S754_infinity false) x = true -> x = S754_infinity false.
Proof. now destruct x as [?|[]| |[] mx ex]. Qed.

Lemma above_nonneg (x y : spec_float) :
  nonneg x = true -> SFleb x y = true -> nonneg y = true.
Proof.
  destruct x as [?|[]| |[] ? ?]; try discriminate; now destruct y as [?|[]| |[] ? ?].
Qed.

Lemma nonneg_cases (x : spec_float) :
  nonneg x = true ->
  (exists s, x = S754_zero s) \/ x = S754_infinity false \/
  exists mx ex, x = S754_finite false mx ex.
Proof.
  destruct x as [s|[]| |[] mx ex]; try discriminate; eauto.
Qed.

Lemma SFsub_monotone (c x y : spec_float) (mc : positive) (ec : Z) :
  c = S754_finite false mc ec ->
  SpecFloat.valid_binary prec emax c = true ->
  SpecFloat.valid_binary prec emax x = true ->
  SpecFloat.valid_binary prec emax y = true ->
  SFleb c x = true -> SFleb x y = true ->
  SFleb (SFsub prec emax x c) (SFsub prec emax y c) = true /\
  nonneg (SFsub prec emax x c) = true /\ nonneg (SFsub prec emax y c) = true.
Proof.
  intros -> Vc Vx Vy Hcx Hxy.
  destruct (above_finite _ _ _ Hcx) as [->|(mx & ex & ->)].
  { apply above_infinity in Hxy. subst y. now repeat split. }
  pose proof (SFleb_value _ _ _ _ Vc Vx Hcx) as Hvx.
  destruct (above_finite _ _ _ Hxy) as [->|(my & ey & ->)].
  { assert (Hn : nonneg (SFsub prec emax (S754_finite false mx ex) (S754_finite false mc ec))
                 = true).
    { destruct (SFsub_spec mx mc ex ec Hvx) as [[_ ->]|[_ Hr]];
        [reflexivity | now apply (rounds_to_nonneg _ _ Hr)]. }
    split; [| split]; try assumption; try reflexivity.
    now apply SFleb_nonneg_infinity. }
  pose proof (SFleb_value _ _ _ _ Vx Vy Hxy) as Hvy.
  assert (Hcy : value (S754_finite false mc ec) <= value (S754_finite false my ey)) by lra.
  destruct (SFsub_spec mx mc ex ec Hvx) as [[Hex ->]|[Hltx Hrx]];
    destruct (SFsub_spec my mc ey ec Hcy) as [[Hey ->]|[Hlty Hry]].
  - now repeat split.
  - pose proof (rounds_to_nonneg _ _ Hry) as Hn.
    split; [now apply SFleb_zero_nonneg | now split].
  - exfalso. lra.
  - split; [| split; eauto using rounds_to_nonneg].
    apply (rounds_to_monotone _ _ _ _) with (3 := Hrx) (4 := Hry); lra.
Qed.

Lemma SFdiv_monotone (c x y : spec_float) (mc : positive) (ec : Z) :
  c = S754_finite false mc ec ->
  SpecFloat.valid_binary prec emax x = true ->
  SpecFloat.valid_binary prec emax y = true ->
  nonneg x = true -> SFleb x y = true ->
  SFleb (SFdiv prec emax x c) (SFdiv prec emax y c) = true /\
  nonneg (SFdiv prec emax x c) = true /\ nonneg (SFdiv prec emax y c) = true.
Proof.
  intros -> Vx Vy Hx Hxy.
  pose proof (value_pos mc ec) as Hc.
  pose proof (above_nonneg x y Hx Hxy) as Hy.
  assert (Hn : forall z, nonneg z = true ->
                         nonneg (SFdiv prec emax z (S754_finite false mc ec)) = true).
  { intros z Hz. destruct (nonneg_cases z Hz) as [(s' & ->)|[->|(mz & ez & ->)]];
      try reflexivity.
    apply (rounds_to_nonneg _ _ (SFdiv_spec mz mc ez ec)). }
  split; [| now split; apply Hn].
  destruct (nonneg_cases x Hx) as [(s & ->)|[->|(mx & ex & ->)]].
  - cbn [SFdiv]. apply SFleb_zero_nonneg. now apply Hn.
  - apply above_infinity in Hxy. now subst y.
  - destruct (above_finite _ _ _ Hxy) as [->|(my & ey & ->)].
    + apply SFleb_nonneg_infinity. now apply Hn.
    + pose proof (SFleb_value _ _ _ _ Vx Vy Hxy) as Hv.
      pose proof (value_pos mx ex) as Hpx.
      apply (rounds_to_monotone _ _ _ _) with (3 := SFdiv_spec mx mc ex ec)
                                              (4 := SFdiv_spec my mc ey ec).
      * apply Qlt_shift_div_l; [exact Hc | lra].
      * unfold Qdiv. apply Qmult_le_compat_r; [exact Hv |].
        apply Qinv_le_0_compat. lra.
Qed.

(** [c + z] for a valid positive [c] and a zero or a positive finite [z]:
    the sum of the values, rounded. *)
Lemma SFadd_rounds (mc : positive) (ec : Z) (z : spec_float) :
  bounded prec emax mc ec = true ->
  (exists s, z = S754_zero s) \/ (exists mz ez, z = S754_finite false mz ez) ->
  rounds_to (value (S754_finite false mc ec) + value z)
            (SFadd prec emax (S754_finite false mc ec) z).
Proof.
  intros Vc [(s & ->)|(mz & ez & ->)].
  - cbn [SFadd]. apply (rounds_to_comp (value (S754_finite false mc ec))).
    + cbn [value]. ring.
    + now apply rounds_to_self.
  - apply SFadd_spec.
Qed.

Lemma value_zero_or_finite (z : spec_float) :
  (exists s, z = S754_zero s) \/ (exists mz ez, z = S754_finite false mz ez) ->
  0 <= value z.
Proof.
  intros [(s & ->)|(mz & ez & ->)]; [apply Qle_refl | apply Qlt_le_weak, value_pos].
Qed.

Lemma SFadd_monotone (c x y : spec_float) (mc : positive) (ec : Z) :
  c = S754_finite false mc ec ->
  SpecFloat.valid_binary prec emax c = true ->
  SpecFloat.valid_binary prec emax x = true ->
  SpecFloat.valid_binary prec emax y = true ->
  nonneg x = true -> SFleb x y = true ->
  SFleb (SFadd prec emax c x) (SFadd prec emax c y) = true /\
  nonneg (SFadd prec emax c x) = true /\ nonneg (SFadd prec emax c y) = true.
Proof.
  intros -> Vc Vx Vy Hx Hxy.
  pose proof (value_pos mc ec) as Hc.
  pose proof (above_nonneg x y Hx Hxy) as Hy.
  assert (Hfin : forall z, nonneg z = true ->
            z = S754_infinity false \/
            ((exists s, z = S754_zero s) \/ (exists mz ez, z = S754_finite false mz ez))).
  { intros z Hz. destruct (nonneg_cases z Hz) as [?|[?|?]]; auto. }
  assert (Hn : forall z, nonneg z = true ->
                         nonneg (SFadd prec emax (S754_finite false mc ec) z) = true).
  { intros z Hz. destruct (Hfin z Hz) as [->|Hz']; [reflexivity |].
    apply (rounds_to_nonneg _ _ (SFadd_rounds mc ec z Vc Hz')). }
  split; [| now split; apply Hn].
  destruct (Hfin y Hy) as [->|Hy']; [apply SFleb_nonneg_infinity; now apply Hn |].
  destruct (Hfin x Hx) as [->|Hx'].
  { apply above_infinity in Hxy. subst y. destruct Hy' as [(? & ?)|(? & ? & ?)]; discriminate. }
  pose proof (value_zero_or_finite x Hx') as Hvx.
  apply (rounds_to_monotone _ _ _ _) with (3 := SFadd_rounds mc ec x Vc Hx')
                                          (4 := SFadd_rounds mc ec y Vc Hy'); [lra |].
  assert (value x <= value y); [| lra].
  destruct Hx' as [(s & ->)|(mx & ex & ->)].
  - now apply value_zero_or_finite.
  - destruct (above_finite _ _ _ Hxy) as [->|(my & ey & ->)].
    + destruct Hy' as [(? & ?)|(? & ? & ?)]; discriminate.
    + now apply SFleb_value.
Qed.

End OrderedOperations.

(** *** The primitive operations are monotone *)
Section Binary64Monotone.
Import Rounding.
Local Open Scope float_scope.

Lemma leb_0_nonneg (x : float) : (0 <=? x) = nonneg (Prim2SF x).
Proof.
  rewrite FloatAxioms.leb_spec. change (Prim2SF 0) with (S754_zero false).
  now destruct (Prim2SF x) as [?|[]| |[] ? ?].
Qed.

(** [x - c] grows with [x], from [c] on. *)
Lemma sub_monotone (c x y : float) (mc : positive) (ec : Z) :
  Prim2SF c = S754_finite false mc ec ->
  (c <=? x) = true -> (x <=? y) = true ->
  (x - c <=? y - c) = true /\ (0 <=? x - c) = true /\ (0 <=? y - c) = true.
Proof.
  rewrite !leb_0_nonneg, !FloatAxioms.leb_spec, !FloatAxioms.sub_spec.
  intros Hc. apply SFsub_monotone with (mc := mc) (ec := ec);
    auto using FloatAxioms.Prim2SF_valid.
Qed.

(** [x / c] grows with [x], from zero on. *)
Lemma div_monotone (c x y : float) (mc : positive) (ec : Z) :
  Prim2SF c = S754_finite false mc ec ->
  (0 <=? x) = true -> (x <=? y) = true ->
  (x / c <=? y / c) = true /\ (0 <=? x / c) = true /\ (0 <=? y / c) = true.
Proof.
  rewrite !leb_0_nonneg, !FloatAxioms.leb_spec, !FloatAxioms.div_spec.
  intros Hc. apply SFdiv_monotone with (mc := mc) (ec := ec);
    auto using FloatAxioms.Prim2SF_valid.
Qed.

(** [c + x] grows with [x], from zero on. *)
Lemma add_monotone (c x y : float) (mc : positive) (ec : Z) :
  Prim2SF c = S754_finite false mc ec ->
  (0 <=? x) = true -> (x <=? y) = true ->
  (c + x <=? c + y) = true /\ (0 <=? c + x) = true /\ (0 <=? c + y) = true.
Proof.
  rewrite !leb_0_nonneg, !FloatAxioms.leb_spec, !FloatAxioms.add_spec.
  intros Hc. apply SFadd_monotone with (mc := mc) (ec := ec);
    auto using FloatAxioms.Prim2SF_valid.
Qed.

End Binary64Monotone.

(** ** Comparisons of rationals *)
Section RationalOrder.

Lemma Qle_bool_true (a b : Q) : Qle_bool a b = true -> (a <= b)%Q.
Proof. apply Qle_bool_iff. Qed.

Lemma Qle_bool_false (a b : Q) : Qle_bool a b = false -> (b < a)%Q.
Proof.
  intros H. apply Qnot_le_lt. intros Hle.
  apply Qle_bool_iff in Hle. congruence.
Qed.

End RationalOrder.

(** ** The volume score of the final production script *)
Section VolumeScore.
Import Py final_production_whale_discovery.
Local Open Scope float_scope.

(** Each branch is a composition of the rounded operations above, with
    a positive finite constant: on binary64 it is non-decreasing from
    the cut-point it starts at. *)
Lemma upper_branch_monotone (x y : float) :
  (1000 <=? x) = true -> (x <=? y) = true -> (upper_branch x <=? upper_branch y) = true.
Proof.
  intros H1 H. unfold upper_branch.
  destruct (sub_monotone 1000 x y _ _ eq_refl H1 H) as (Hs & Hx & _).
  destruct (div_monotone 45000 _ _ _ _ eq_refl Hx Hs) as (Hd & Hdx & _).
  apply (add_monotone 0.8 _ _ _ _ eq_refl Hdx Hd).
Qed.

Lemma middle_branch_monotone (x y : float) :
  (100 <=? x) = true -> (x <=? y) = true -> (middle_branch x <=? middle_branch y) = true.
Proof.
  intros H1 H. unfold middle_branch.
  destruct (sub_monotone 100 x y _ _ eq_refl H1 H) as (Hs & Hx & _).
  destruct (div_monotone 4500 _ _ _ _ eq_refl Hx Hs) as (Hd & Hdx & _).
  apply (add_monotone 0.5 _ _ _ _ eq_refl Hdx Hd).
Qed.

Lemma lower_branch_monotone (x y : float) :
  (0 <=? x) = true -> (x <=? y) = true -> (lower_branch x <=? lower_branch y) = true.
Proof.
  intros H0 H. unfold lower_branch. apply (div_monotone 200 _ _ _ _ eq_refl H0 H).
Qed.

(** The joins on binary64, at each cut-point and at the float just
    below it. *)
Lemma calculate_final_score_float_cut_points :
  (score_of_volume (next_down 100) = 0.49999999999999994 /\ score_of_volume 100 = 0.5 /\
   score_of_volume (next_down 1000) = 0.7 /\ score_of_volume 1000 = 0.8 /\
   score_of_volume (next_down 10000) = 1.0 /\ score_of_volume 10000 = 1.0)%float.
Proof. vm_compute. repeat split; reflexivity. Qed.

(** The score on binary64 is non-decreasing on volumes from zero on
    ([+infinity] included), and at most 1.0: inside a branch by the
    monotonicity of the branch, across a cut-point by the values the
    branches take there, which are computed. *)
Lemma calculate_final_score_ordered (td1 td2 : token_data) :
  (0 <=? td_volume_sol td1) = true ->
  (td_volume_sol td1 <=? td_volume_sol td2) = true ->
  (calculate_final_score td1 <=? calculate_final_score td2) = true /\
  (calculate_final_score td2 <=? 1) = true.
Proof.
  intros H0 Hle. unfold calculate_final_score.
  set (v1 := td_volume_sol td1) in *. set (v2 := td_volume_sol td2) in *.
  destruct (leb_not_nan _ _ Hle) as [Hn1 Hn2].
  pose proof (leb_trans _ _ _ H0 Hle) as H0'.
  fold (upper_branch v1) (upper_branch v2) (middle_branch v1) (middle_branch v2)
    (lower_branch v1) (lower_branch v2).
  assert (Hcut : forall c v,
             is_nan v = false -> (c <=? v) = false -> is_nan c = false -> (v <=? c) = true)
    by (intros c v Hv Hc Hcn; now apply not_leb_leb).
  destruct (10000 <=? v2) eqn:B4.
  - split; [| reflexivity].
    destruct (10000 <=? v1) eqn:A4; [reflexivity |].
    apply Hcut in A4; [| assumption | reflexivity].
    destruct (1000 <=? v1) eqn:A3.
    { apply (leb_trans _ _ _ (upper_branch_monotone _ _ A3 A4)). reflexivity. }
    apply Hcut in A3; [| assumption | reflexivity].
    destruct (100 <=? v1) eqn:A2.
    { apply (leb_trans _ _ _ (middle_branch_monotone _ _ A2 A3)). reflexivity. }
    apply Hcut in A2; [| assumption | reflexivity].
    apply (leb_trans _ _ _ (lower_branch_monotone _ _ H0 A2)). reflexivity.
  - assert (A4 : (10000 <=? v1) = false).
    { destruct (10000 <=? v1) eqn:A4; [| reflexivity].
      rewrite (leb_trans _ _ _ A4 Hle) in B4. discriminate. }
    rewrite A4. pose proof (Hcut _ _ Hn2 B4 eq_refl) as B4'.
    destruct (1000 <=? v2) eqn:B3.
    + split; [| apply (leb_trans _ _ _ (upper_branch_monotone _ _ B3 B4')); reflexivity].
      destruct (1000 <=? v1) eqn:A3; [now apply upper_branch_monotone |].
      apply Hcut in A3; [| assumption | reflexivity].
      assert (Hbot : (0.8 <=? upper_branch v2) = true)
        by (apply (leb_trans _ (upper_branch 1000));
            [reflexivity | now apply upper_branch_monotone]).
      destruct (100 <=? v1) eqn:A2.
      { apply (leb_trans _ 0.8); [| assumption].
        apply (leb_trans _ _ _ (middle_branch_monotone _ _ A2 A3)). reflexivity. }
      apply Hcut in A2; [| assumption | reflexivity].
      apply (leb_trans _ 0.8); [| assumption].
      apply (leb_trans _ _ _ (lower_branch_monotone _ _ H0 A2)). reflexivity.
    + assert (A3 : (1000 <=? v1) = false).
      { destruct (1000 <=? v1) eqn:A3; [| reflexivity].
        rewrite (leb_trans _ _ _ A3 Hle) in B3. discriminate. }
      rewrite A3. pose proof (Hcut _ _ Hn2 B3 eq_refl) as B3'.
      destruct (100 <=? v2) eqn:B2.
      * split; [| apply (leb_trans _ _ _ (middle_branch_monotone _ _ B2 B3')); reflexivity].
        destruct (100 <=? v1) eqn:A2; [now apply middle_branch_monotone |].
        apply Hcut in A2; [| assumption | reflexivity].
        apply (leb_trans _ 0.5).
        -- apply (leb_trans _ _ _ (lower_branch_monotone _ _ H0 A2)). reflexivity.
        -- apply (leb_trans _ (middle_branch 100));
             [reflexivity | now apply middle_branch_monotone].
      * assert (A2 : (100 <=? v1) = false).
        { destruct (100 <=? v1) eqn:A2; [| reflexivity].
          rewrite (leb_trans _ _ _ A2 Hle) in B2. discriminate. }
        rewrite A2. pose proof (Hcut _ _ Hn2 B2 eq_refl) as B2'.
        split; [now apply lower_branch_monotone |].
        apply (leb_trans _ _ _ (lower_branch_monotone _ _ H0' B2')). reflexivity.
Qed.

(** C9.  On binary64, as the script computes it, [calculate_final_score]
    is non-decreasing on non-negative volumes and bounded above by 1.0:
    for all 0 <= v1 <= v2, score v1 <= score v2 <= 1.0.  The branches
    join at the cut-points 100, 1000 and 10000 with no step down: from
    the float just below each cut-point to the cut-point the score goes
    from 0.49999999999999994 to 0.5, from 0.7 to 0.8 and from 1.0 to
    1.0. *)
Theorem calculate_final_score_monotone (td1 td2 : token_data) :
  (0 <=? td_volume_sol td1) = true ->
  (td_volume_sol td1 <=? td_volume_sol td2) = true ->
  (calculate_final_score td1 <=? calculate_final_score td2) = true /\
  (calculate_final_score td2 <=? 1.0) = true /\
  (score_of_volume (next_down 100) <=? score_of_volume 100) = true /\
  (score_of_volume (next_down 1000) <=? score_of_volume 1000) = true /\
  (score_of_volume (next_down 10000) <=? score_of_volume 10000) = true.
Proof.
  intros H0 Hle.
  destruct (calculate_final_score_ordered td1 td2 H0 Hle) as [Hmono Hbound].
  split; [exact Hmono |]. split; [exact Hbound |]. repeat split; reflexivity.
Qed.

Lemma calculate_final_score_monotone_witness :
  (0 <=? td_volume_sol (token_of_volume 999.9)) = true /\
  (td_volume_sol (token_of_volume 999.9) <=? td_volume_sol (token_of_volume 1000)) = true /\
  (calculate_final_score (token_of_volume 999.9)
   <=? calculate_final_score (token_of_volume 1000)) = true /\
  (calculate_final_score (token_of_volume 1000) <=? 1.0) = true.
Proof.
  split; [reflexivity |]. split; [reflexivity |].
  destruct (calculate_final_score_monotone (token_of_volume 999.9) (token_of_volume 1000)
              eq_refl eq_refl) as (Hmono & Hbound & _).
  now split.
Defined.

(** The scores of that pair, and of the largest finite volume and
    [+infinity]. *)
Example calculate_final_score_values :
  calculate_final_score (token_of_volume 999.9) = 0.69997777777777781 /\
  calculate_final_score (token_of_volume 1000) = 0.8 /\
  calculate_final_score (token_of_volume 0x1.fffffffffffffp+1023) = 1.0 /\
  calculate_final_score (token_of_volume infinity) = 1.0.
Proof. vm_compute. repeat split; reflexivity. Qed.

End VolumeScore.

(** ** The confidence scorers *)
Section Scorer.
Import Py ultimate_whale_discovery.
Local Open Scope float_scope.

(** [min(1.0, max(0.0, score))] lies in the unit interval whatever
    [score] is: a NaN, an infinity, a negative sum or one above 1. *)
Lemma clamp_in_unit_interval (score : float) :
  (0 <=? Py.min 1.0 (Py.max 0.0 score)) = true /\
  (Py.min 1.0 (Py.max 0.0 score) <=? 1) = true.
Proof.
  unfold Py.min, Py.max.
  destruct (0 <? score) eqn:Hpos.
  - destruct (score <? 1) eqn:Hlt.
    + split; now apply ltb_leb.
    + split; reflexivity.
  - split; reflexivity.
Qed.

(** The room message of Scenario B scores 0.4 + 0.4 + 0.1 + 0.1 + 0.1,
    clamped to 1.0. *)
Example scenario_B_score :
  token_data_of_sdk (B := no_text_builtins) 0 "eucalyptus" scenario_B_token
    = Ok scenario_B_token_data /\
  calculate_whale_confidence scenario_B_token_data = Ok 1.0.
Proof. split; vm_compute; reflexivity. Qed.

(** Sums outside the unit interval and fields that are no numbers: a
    dev holding of 80% alone gives -0.2, clamped to 0.0; three NaN pass
    no test and give 0.0; infinite liquidity and sniper share with every
    bonus give 1.25, clamped to 1.0; an infinite dev holding on Pump AMM
    gives -0.15, clamped to 0.0. *)
Example adversarial_scores :
  let td liquidity snipers dev lp platform social :=
    {| td_timestamp := 0; td_source := ""; td_token_address := JStr "";
       td_creator_address := JStr "W"; td_token_name := JStr ""; td_token_ticker := JStr "";
       td_platform := JStr platform; td_website := JStr social; td_twitter := JStr social;
       td_telegram := JStr social; td_volume_sol := 0; td_market_cap_sol := 0;
       td_liquidity_sol := liquidity; td_dev_holds_percent := Some dev;
       td_snipers_hold_percent := Some snipers; td_lp_burned := Some (JBool lp) |} in
  calculate_whale_confidence (td 0 0 80 false "Unknown" "") = Ok 0.0 /\
  calculate_whale_confidence (td nan nan nan false "Unknown" "") = Ok 0.0 /\
  calculate_whale_confidence (td infinity infinity 0 true "Meteora DLMM" "x") = Ok 1.0 /\
  calculate_whale_confidence (td neg_infinity (-5) infinity false "Pump AMM" "") = Ok 0.0.
Proof. vm_compute. repeat split; reflexivity. Qed.

(** C1 (counterexample).  Two inputs on which a scorer returns no value
    in [0, 1]: with a number as platform ['Raydium' in platform] raises
    [TypeError], and [calculate_whale_confidence] with it; on a volume
    of -50 [calculate_final_score], which has no clamp, returns
    -0.25. *)
Lemma scorers_leave_the_unit_interval :
  calculate_whale_confidence numeric_platform_token_data = Raise TypeError /\
  final_production_whale_discovery.calculate_final_score (token_of_volume (-50)) = -0.25 /\
  (0 <=? final_production_whale_discovery.calculate_final_score (token_of_volume (-50)))
  = false.
Proof. vm_compute. repeat split; reflexivity. Qed.

(** C1 (amended).  For every token dict whose platform is text, a list
    or a dict -- whatever its liquidity, sniper and dev percentages (NaN
    and the infinities included), its [lp_burned] value and its social
    fields -- [calculate_whale_confidence] returns, and the value it
    returns lies in the closed interval [0, 1].  [calculate_final_score]
    has no clamp: its value lies in [0, 1] for every volume from zero
    on. *)
Theorem scorers_in_unit_interval
    (td : token_data) (final_td : final_production_whale_discovery.token_data) :
  match td_platform td with
  | JStr _ | JList _ | JDict _ => True
  | _ => False
  end ->
  (0 <=? final_production_whale_discovery.td_volume_sol final_td) = true ->
  (exists r : float,
     calculate_whale_confidence td = Ok r /\ (0 <=? r) = true /\ (r <=? 1) = true) /\
  (0 <=? final_production_whale_discovery.calculate_final_score final_td) = true /\
  (final_production_whale_discovery.calculate_final_score final_td <=? 1) = true.
Proof.
  intros Hplatform Hvolume. split.
  - assert (Hin : forall s, exists b, str_in s (td_platform td) = Ok b).
    { intros s. destruct (td_platform td); try contradiction; eexists; reflexivity. }
    unfold calculate_whale_confidence.
    destruct (Hin "Raydium"%string) as [raydium ->]. cbn [bind].
    destruct raydium; cbn [bind].
    + eexists. split; [reflexivity | apply clamp_in_unit_interval].
    + destruct (Hin "Meteora"%string) as [meteora ->]. cbn [bind].
      destruct meteora; cbn [bind].
      * eexists. split; [reflexivity | apply clamp_in_unit_interval].
      * destruct (Hin "Pump AMM"%string) as [pump ->]. cbn [bind].
        eexists. split; [reflexivity | apply clamp_in_unit_interval].
  - destruct (calculate_final_score_ordered (token_of_volume 0) final_td eq_refl Hvolume)
      as [Hmono Hbound].
    split; [| exact Hbound].
    apply (leb_trans _ (final_production_whale_discovery.calculate_final_score
                          (token_of_volume 0))); [reflexivity | exact Hmono].
Qed.

Lemma scorers_in_unit_interval_witness :
  (exists r : float,
     calculate_whale_confidence scenario_B_token_data = Ok r /\
     (0 <=? r) = true /\ (r <=? 1) = true) /\
  (0 <=? final_production_whale_discovery.calculate_final_score (token_of_volume 13600))
  = true /\
  (final_production_whale_discovery.calculate_final_score (token_of_volume 13600) <=? 1)
  = true.
Proof.
  exact (scorers_in_unit_interval scenario_B_token_data (token_of_volume 13600) I eq_refl).
Defined.

End Scorer.

(** ** The array normaliser: [safe_float_extract] and the magnitude policy *)
Section ArrayNormalizer.
Import Py ultimate_whale_discovery.
Context {B : Builtins}.
Local Open Scope float_scope.

(** The function without its exception handler. *)
Lemma safe_float_extract_cases (array : list json) (index : Z) (default : float) :
  safe_float_extract array index default =
    if (index <? Z.of_nat (length array))%Z then
      match Py.index array index with
      | Ok x =>
          if is_none x then default
          else match float_ x with
               | Ok val => if is_nan val then default else val
               | Raise _ => default
               end
      | Raise _ => default
      end
    else default.
Proof.
  unfold safe_float_extract, is_nan.
  destruct (index <? Z.of_nat (length array))%Z; [| reflexivity].
  destruct (Py.index array index) as [x|e]; [| reflexivity]. cbn [bind try_except].
  destruct (is_none x); [reflexivity |].
  destruct (float_ x) as [val|e]; [| reflexivity]. cbn [bind try_except].
  now destruct (val =? val).
Qed.

Lemma safe_float_extract_not_nan (array : list json) (index : Z) (default : float) :
  is_nan default = false -> is_nan (safe_float_extract array index default) = false.
Proof.
  intros Hd. rewrite safe_float_extract_cases.
  destruct (index <? Z.of_nat (length array))%Z; [| assumption].
  destruct (Py.index array index) as [x|e]; [| assumption].
  destruct (is_none x); [assumption |].
  destruct (float_ x) as [val|e]; [| assumption].
  now destruct (is_nan val) eqn:E.
Qed.

Lemma index_out_of_range {A : Type} (l : list A) (i : Z) :
  (Z.of_nat (length l) <= i \/ i < - Z.of_nat (length l))%Z ->
  exists e, Py.index l i = Raise e.
Proof.
  intros H. unfold Py.index.
  destruct (i <? 0)%Z eqn:Hneg;
    [apply Z.ltb_lt in Hneg | apply Z.ltb_ge in Hneg];
    destruct (_ && _)%bool eqn:Hin; eauto;
    apply andb_true_iff in Hin as [H1 H2];
    apply Z.leb_le in H1; apply Z.ltb_lt in H2; lia.
Qed.

(** A list that holds a NaN, a [None], text that is no number, an int
    and an infinity: the first three read as 0.0, and so does an index
    past the end. *)
Example safe_float_extract_examples :
  map (fun i => safe_float_extract (B := no_text_builtins)
                  [JFloat nan; JNull; JStr "n/a"; JInt 7; JFloat infinity] i 0.0)
      [0; 1; 2; 3; 4; 5; -1; -6]%Z
  = [0.0; 0.0; 0.0; 7.0; infinity; 0.0; infinity; 0.0].
Proof. vm_compute. reflexivity. Qed.

(** *** The magnitude policy *)

Lemma zero_spec : Prim2SF 0 = S754_zero false.
Proof. reflexivity. Qed.

(** A value above a positive bound is positive, and not equal to 0. *)
Lemma above_positive (c v : float) :
  (0 <? c) = true -> (c <? v) = true -> (0 <? v) = true /\ (v =? 0) = false.
Proof.
  rewrite !FloatAxioms.ltb_spec, FloatAxioms.eqb_spec, zero_spec.
  unfold SFltb, SFeqb.
  destruct (Prim2SF c) as [sc|sc| |sc mc ec], (Prim2SF v) as [sv|sv| |sv mv ev];
    simpl; try destruct sc; try destruct sv; simpl; try discriminate; auto.
Qed.

Lemma volume_candidate_nonzero (v : float) :
  MagnitudeHeuristic.volume_candidate v = true -> (0 <? v) = true /\ (v =? 0) = false.
Proof. apply above_positive. reflexivity. Qed.

Lemma liquidity_candidate_nonzero (v : float) :
  MagnitudeHeuristic.liquidity_candidate v = true -> (0 <? v) = true /\ (v =? 0) = false.
Proof.
  unfold MagnitudeHeuristic.liquidity_candidate. intros H.
  apply andb_true_iff in H as [H _]. revert H. apply above_positive. reflexivity.
Qed.

(** How the two tests of the loop body classify a value. *)
Lemma classify_candidate (v : float) :
  MagnitudeHeuristic.volume_candidate v = (10000 <? v) /\
  MagnitudeHeuristic.liquidity_candidate v = (negb (10000 <? v) && (100 <? v))%bool.
Proof.
  split; [reflexivity |]. unfold MagnitudeHeuristic.liquidity_candidate.
  destruct (10000 <? v) eqn:Hbig.
  - rewrite (ltb_not_leb _ _ Hbig). apply andb_false_r.
  - destruct (100 <? v) eqn:Hmid; [| reflexivity].
    destruct (ltb_not_nan _ _ Hmid) as [_ Hv].
    now rewrite (not_ltb_leb 10000 v eq_refl Hv Hbig).
Qed.

Lemma filter_head {A : Type} (f : A -> bool) (l : list A) (x : A) (rest : list A) :
  List.filter f l = x :: rest -> f x = true.
Proof.
  intros H. assert (Hin : In x (List.filter f l)) by (rewrite H; now left).
  now apply filter_In in Hin.
Qed.

Lemma filter_second {A : Type} (f : A -> bool) (l : list A) (x y : A) (rest : list A) :
  List.filter f l = x :: y :: rest -> f y = true.
Proof.
  intros H. assert (Hin : In y (List.filter f l)) by (rewrite H; right; now left).
  now apply filter_In in Hin.
Qed.

(** One round of the loop keeps the three metrics equal to what the
    policy assigns to the values met so far. *)
Lemma assign_metric_step (seen : list float) (iv : Z * float) :
  assign_metric (MagnitudeHeuristic.assign seen) iv
  = MagnitudeHeuristic.assign (seen ++ [snd iv]).
Proof.
  destruct iv as [idx val]. unfold MagnitudeHeuristic.assign, assign_metric.
  rewrite !List.filter_app. cbn [snd List.filter].
  destruct (classify_candidate val) as [-> ->].
  destruct (10000 <? val) eqn:Hbig; cbn [negb andb].
  - rewrite app_nil_r.
    destruct (List.filter MagnitudeHeuristic.volume_candidate seen) as [|b [|b2 rest]] eqn:Hf.
    + reflexivity.
    + apply filter_head in Hf. apply volume_candidate_nonzero in Hf as [_ Hb].
      cbn [nth app]. now rewrite Hb.
    + pose proof (filter_head _ _ _ _ Hf) as H1. pose proof (filter_second _ _ _ _ _ Hf) as H2.
      apply volume_candidate_nonzero in H1 as [_ H1].
      apply volume_candidate_nonzero in H2 as [_ H2].
      cbn [nth app]. now rewrite H1, H2.
  - destruct (100 <? val) eqn:Hmid.
    + rewrite app_nil_r.
      destruct (List.filter MagnitudeHeuristic.liquidity_candidate seen) as [|m rest] eqn:Hf.
      * reflexivity.
      * apply filter_head in Hf. apply liquidity_candidate_nonzero in Hf as [_ Hm].
        cbn [nth app]. now rewrite Hm.
    + now rewrite !app_nil_r.
Qed.

Lemma assign_metric_fold (values : list (Z * float)) (seen : list float) :
  fold_left assign_metric values (MagnitudeHeuristic.assign seen)
  = MagnitudeHeuristic.assign (seen ++ map snd values).
Proof.
  revert seen. induction values as [|iv values IH]; intros seen.
  - now rewrite app_nil_r.
  - cbn [fold_left map]. rewrite assign_metric_step, IH.
    now rewrite <- app_assoc.
Qed.

Lemma assign_financial_metrics_spec (values : list (Z * float)) :
  assign_financial_metrics values = MagnitudeHeuristic.assign (map snd values).
Proof. exact (assign_metric_fold values []). Qed.

(** The values the first loop keeps are the positive candidate values. *)
Lemma financial_values_spec (token_array : list json) :
  map snd (financial_values token_array)
  = List.filter (fun v => 0 <? v) (candidate_values token_array).
Proof.
  unfold financial_values, candidate_values.
  induction financial_candidates as [|idx l IH]; [reflexivity |].
  cbn [flat_map map List.filter]. rewrite map_app, IH.
  now destruct (0 <? safe_float_extract token_array idx 0).
Qed.

(** Dropping the values that are not positive drops no candidate. *)
Lemma assign_positive (values : list float) :
  MagnitudeHeuristic.assign (List.filter (fun v => 0 <? v) values)
  = MagnitudeHeuristic.assign values.
Proof.
  assert (Hf : forall f : float -> bool,
             (forall v, f v = true -> (0 <? v) = true) ->
             List.filter f (List.filter (fun v => 0 <? v) values) = List.filter f values).
  { intros f Hf. induction values as [|v values IH]; [reflexivity |].
    cbn [List.filter]. destruct (0 <? v) eqn:Hv; cbn [List.filter].
    - now rewrite IH.
    - destruct (f v) eqn:Hfv; [| exact IH].
      apply Hf in Hfv. congruence. }
  unfold MagnitudeHeuristic.assign.
  rewrite !Hf; [reflexivity | |]; intros v Hv.
  - now apply liquidity_candidate_nonzero.
  - now apply volume_candidate_nonzero.
Qed.

(** The three metrics of the token dict are never NaN: what reaches the
    scorer from the array parser is a finite or infinite float. *)
Lemma token_data_of_array_not_nan (now : float) (source : string) (token_array : list json) :
  let td := token_data_of_array now source token_array in
  is_nan (td_volume_sol td) = false /\
  is_nan (td_market_cap_sol td) = false /\
  is_nan (td_liquidity_sol td) = false.
Proof.
  cbv zeta. unfold token_data_of_array.
  rewrite assign_financial_metrics_spec, financial_values_spec, assign_positive.
  unfold MagnitudeHeuristic.assign.
  cbn [td_volume_sol td_market_cap_sol td_liquidity_sol].
  assert (Hnth : forall (f : float -> bool) (n : nat) (l : list float),
             (forall v, f v = true -> is_nan v = false) ->
             is_nan (nth n (List.filter f l) 0) = false).
  { intros f n l Hf. destruct (nth_in_or_default n (List.filter f l) 0) as [Hin | ->].
    - apply filter_In in Hin as [_ Hv]. now apply Hf.
    - reflexivity. }
  repeat split; apply Hnth; intros v Hv.
  - apply volume_candidate_nonzero in Hv as [Hv _]. now apply ltb_not_nan in Hv.
  - apply volume_candidate_nonzero in Hv as [Hv _]. now apply ltb_not_nan in Hv.
  - apply liquidity_candidate_nonzero in Hv as [Hv _]. now apply ltb_not_nan in Hv.
Qed.

(** C10.  For every list and every index [safe_float_extract] returns a
    float (the handler leaves no exception) that is not NaN.  An index
    out of range, a [None] entry, a value [float()] rejects and a NaN all
    give the default 0.0; any other entry gives its float value, finite
    or infinite.  So the three metrics the array parser hands to the
    scorer are never NaN. *)
Theorem safe_float_extract_never_nan (array : list json) (index : Z) :
  is_nan (safe_float_extract array index 0.0) = false /\
  ((Z.of_nat (length array) <= index \/ index < - Z.of_nat (length array))%Z ->
   safe_float_extract array index 0.0 = 0.0) /\
  (forall x : json,
     Py.index array index = Ok x ->
     x = JNull \/ (exists e, float_ x = Raise e) \/ float_ x = Ok nan ->
     safe_float_extract array index 0.0 = 0.0) /\
  (forall (x : json) (val : float),
     (index < Z.of_nat (length array))%Z ->
     Py.index array index = Ok x -> x <> JNull ->
     float_ x = Ok val -> is_nan val = false ->
     safe_float_extract array index 0.0 = val) /\
  (forall (now : float) (source : string),
     let td := token_data_of_array now source array in
     is_nan (td_volume_sol td) = false /\
     is_nan (td_market_cap_sol td) = false /\
     is_nan (td_liquidity_sol td) = false).
Proof.
  split; [now apply safe_float_extract_not_nan |].
  split; [| split; [| split]]; [| | | intros now source; apply token_data_of_array_not_nan].
  - intros Hout. rewrite safe_float_extract_cases.
    destruct (index_out_of_range array index Hout) as [e He]. rewrite He.
    now destruct (index <? Z.of_nat (length array))%Z.
  - intros x Hx Hbad. rewrite safe_float_extract_cases, Hx.
    destruct (index <? Z.of_nat (length array))%Z; [| reflexivity].
    destruct Hbad as [-> | [[e He] | Hnan]]; [reflexivity | |].
    + rewrite He. now destruct (is_none x).
    + rewrite Hnan. now destruct (is_none x).
  - intros x val Hlt Hx Hnone Hval Hnan. rewrite safe_float_extract_cases, Hx, Hval, Hnan.
    apply Z.ltb_lt in Hlt. rewrite Hlt.
    destruct x; try reflexivity. congruence.
Qed.

(** C4.  For every positional array the three metrics of the token dict
    are the ones the magnitude policy assigns to the candidate values at
    positions 13 to 24, in encounter order: [volume_sol] is the first
    value above 10,000, [market_cap_sol] the second, [liquidity_sol] the
    first value in (100, 10,000]; a metric with no match is 0, and a
    metric once assigned is not overwritten. *)
Theorem process_token_array_magnitude_policy (now : float) (source : string)
    (token_array : list json) :
  let td := token_data_of_array now source token_array in
  (td_volume_sol td, td_market_cap_sol td, td_liquidity_sol td)
  = MagnitudeHeuristic.assign (candidate_values token_array).
Proof.
  cbv zeta. unfold token_data_of_array.
  rewrite assign_financial_metrics_spec, financial_values_spec, assign_positive.
  now destruct (MagnitudeHeuristic.assign (candidate_values token_array)) as [[v m] l].
Qed.

(** The array parser never leaves the model: the creator address it
    builds is a string. *)
Lemma process_token_array_total (now : float) (token_array : list json) (source : string)
    (st : state) :
  exists st', process_token_array now token_array source st = Some st'.
Proof.
  unfold process_token_array.
  destruct (length token_array <? 10)%nat; [eauto |].
  unfold token_data_of_array.
  destruct (assign_financial_metrics _) as [[v m] l].
  destruct (calculate_whale_confidence _) as [c|e]; cbn [bind try_except]; [| eauto].
  destruct (0.4 <? c); cbn; eauto.
Qed.

End ArrayNormalizer.

(** The array of Scenario A, normalised and scored: 13600.0 and 20000
    are the first two values above 10,000, 250.5 the first in
    (100, 10,000]; the [None] and the text at positions 18 and 19 read
    as 0.0. *)
Example scenario_A_normalised :
  let td :=
    ultimate_whale_discovery.token_data_of_array (B := no_text_builtins)
      0 "cluster7" scenario_A_array in
  ultimate_whale_discovery.candidate_values (B := no_text_builtins) scenario_A_array
    = [0; 13600; 250.5; 99; 20000; 0; 0; 50000; 700; 0; 0; 0]%float /\
  ultimate_whale_discovery.td_token_ticker td = Py.JStr "RUMOR" /\
  ultimate_whale_discovery.td_platform td = Py.JStr "Raydium CLMM" /\
  ultimate_whale_discovery.td_volume_sol td = 13600%float /\
  ultimate_whale_discovery.td_market_cap_sol td = 20000%float /\
  ultimate_whale_discovery.td_liquidity_sol td = 250.5%float /\
  ultimate_whale_discovery.calculate_whale_confidence td = Py.Ok 0.6500000000000001%float.
Proof. vm_compute. repeat split; reflexivity. Qed.

(** ** Malformed frames *)
Section Malformed.
Import Py ultimate_whale_discovery MalformedFrames.
Context {B : Builtins}.
Local Open Scope float_scope.

Lemma dict_has_false (d : list (string * json)) (key : string) (default : json) :
  dict_has d key = false -> dict_get d key default = default.
Proof. unfold dict_has, dict_get. now destruct (assoc key d). Qed.

(** A token with no scoring field scores at most the 0.1 of the dev
    test, whatever its other fields hold: below the 0.4 that records. *)
Lemma unscored_token_confidence (td : token_data) (dev : float) :
  td_liquidity_sol td = 0.0 ->
  td_snipers_hold_percent td = Some 0.0 ->
  td_dev_holds_percent td = Some dev ->
  td_lp_burned td = Some (JBool false) ->
  td_platform td = JStr "Unknown" ->
  td_website td = JStr "" -> td_twitter td = JStr "" -> td_telegram td = JStr "" ->
  exists c, calculate_whale_confidence td = Ok c /\ (0.4 <? c) = false.
Proof.
  intros Hl Hs Hd Hb Hp Hw Ht Hg. unfold calculate_whale_confidence.
  rewrite Hl, Hs, Hd, Hb, Hp, Hw, Ht, Hg. vm_compute.
  destruct (dev <=? 5); [| destruct (50 <=? dev)];
    eexists; split; reflexivity.
Qed.

Lemma unscored_token_ignored (now : float) (source : string) (token : list (string * json))
    (st : state) :
  lacks_scoring_fields token = true ->
  sdk_tokens_loop now source [JDict token] st = Some st.
Proof.
  intros H. unfold lacks_scoring_fields, scoring_fields in H. cbn [forallb] in H.
  repeat (apply andb_true_iff in H as [?H H]).
  repeat match goal with
    | Hk : negb (dict_has token _) = true |- _ => apply negb_true_iff in Hk
    end.
  cbn [sdk_tokens_loop]. unfold process_sdk_token, token_data_of_sdk.
  unfold safe_get_float at 1.
  rewrite (dict_has_false token "initial_liquidity_sol") by assumption.
  cbn [is_none float_ bind].
  destruct (safe_get_float token "supply" 0) as [supply|e]; [| reflexivity].
  cbn [bind].
  destruct (safe_get_float token "dev_holds_percent" 0) as [dev|e]; [| reflexivity].
  cbn [bind]. unfold safe_get_float.
  rewrite (dict_has_false token "snipers_hold_percent") by assumption.
  cbn [is_none float_ bind].
  rewrite (dict_has_false token "protocol"), (dict_has_false token "website"),
    (dict_has_false token "twitter"), (dict_has_false token "telegram"),
    (dict_has_false token "lp_burned") by assumption.
  match goal with
  | |- context [calculate_whale_confidence ?td] =>
      destruct (unscored_token_confidence td dev) as [c [Hc Hlow]]; try reflexivity;
      rewrite Hc
  end.
  cbn [bind]. now rewrite Hlow.
Qed.

(** C5 (amended).  A positional array that is too short (at most 25
    elements, one of length 5 in particular; fewer than 10 when nested
    under ['data']) and a [new_pairs] room message whose content has
    none of the scoring fields or is no object are handled without an
    exception and record no discovery.  No counter of
    malformed messages is kept: [parse_real_message] returns the state
    it was given, and the listener adds 1 to [messages_received], as it
    does for every frame. *)
Theorem malformed_frame_changes_nothing (now : float) (frame : json) (endpoint : string)
    (st : state) :
  malformed frame = true ->
  parse_real_message now (Some frame) endpoint st = Some st /\
  exists st',
    listen_step now (Some frame) endpoint st = Some st' /\
    discovered_whales st' = discovered_whales st /\
    tracked_wallets st' = tracked_wallets st /\
    messages_received (metrics_of st') = (messages_received (metrics_of st) + 1)%Z /\
    whales_discovered (metrics_of st') = whales_discovered (metrics_of st) /\
    auto_added (metrics_of st') = auto_added (metrics_of st).
Proof.
  intros Hbad.
  assert (Hparse : forall s, parse_real_message now (Some frame) endpoint s = Some s).
  { intros s. destruct frame as [| | | | |l|d]; try discriminate; cbn [malformed] in Hbad.
    - cbn [parse_real_message]. apply Nat.leb_le in Hbad.
      destruct (25 <? length l)%nat eqn:Hlen; [| reflexivity].
      apply Nat.ltb_lt in Hlen. lia.
    - cbn [parse_real_message].
      destruct (eq_str (dict_get d "room" JNull) "new_pairs" && dict_has d "content")%bool.
      + unfold process_sdk_new_pairs.
        destruct (dict_get d "content" JNull) as [| | | | |l|token]; try reflexivity;
          try discriminate.
        now apply unscored_token_ignored.
      + destruct (dict_get d "room" (JStr "")) as [| | | |room| |]; try reflexivity.
        destruct (String.prefix "v:" room && dict_has d "content")%bool; [reflexivity |].
        unfold handle_structured_message.
        destruct (dict_has d "type"); [| reflexivity].
        destruct (assoc "data" d) as [[| | | | |l|]|]; try discriminate.
        unfold process_token_array. now rewrite Hbad. }
  split; [apply Hparse |].
  eexists. split; [unfold listen_step; apply Hparse |]. cbn. tauto.
Qed.

End Malformed.

Lemma malformed_frame_changes_nothing_witness :
  MalformedFrames.malformed short_array_frame = true /\
  ultimate_whale_discovery.parse_real_message (B := no_text_builtins)
    0 (Some short_array_frame) "cluster7" (ultimate_whale_discovery.init 0)
  = Some (ultimate_whale_discovery.init 0).
Proof.
  split; [reflexivity |].
  exact (proj1 (malformed_frame_changes_nothing (B := no_text_builtins) 0 short_array_frame
                  "cluster7" (ultimate_whale_discovery.init 0) eq_refl)).
Defined.

(** The two frames of the specification's example are malformed in this
    sense. *)
Example malformed_examples :
  MalformedFrames.malformed short_array_frame = true /\
  MalformedFrames.malformed empty_content_frame = true /\
  MalformedFrames.malformed scenario_B_bare_frame = false /\
  MalformedFrames.malformed scenario_B_frame = false.
Proof. repeat split. Qed.

(** C5 (counterexample).  The array of length 5 is parsed with no
    exception and no discovery, and no counter goes up: whatever is read
    off the metrics is what it was.  In the listener the only counter
    that moves is [messages_received], and it moves the same way for the
    well-formed room message of Scenario B.  And a room message whose
    content lacks the creator address and the token fields is not
    dropped: the missing fields take their defaults and the token is
    recorded, and promoted, under the empty address. *)
Lemma malformed_frame_counter_missing :
  let st := ultimate_whale_discovery.init 0 in
  (exists st',
     ultimate_whale_discovery.parse_real_message (B := no_text_builtins)
       0 (Some short_array_frame) "cluster7" st = Some st' /\
     ultimate_whale_discovery.discovered_whales st' = ∅ /\
     forall counter : ultimate_whale_discovery.metrics -> Z,
       counter (ultimate_whale_discovery.metrics_of st')
       = counter (ultimate_whale_discovery.metrics_of st)) /\
  (option_map (fun s => ultimate_whale_discovery.metrics_of s)
     (ultimate_whale_discovery.listen_step (B := no_text_builtins)
        0 (Some short_array_frame) "cluster7" st)
   = Some {| ultimate_whale_discovery.messages_received := 1;
             ultimate_whale_discovery.whales_discovered := 0;
             ultimate_whale_discovery.auto_added := 0;
             ultimate_whale_discovery.start_time := 0;
             ultimate_whale_discovery.last_whale_time := 0 |}) /\
  (option_map (fun s => ultimate_whale_discovery.metrics_of s)
     (ultimate_whale_discovery.listen_step (B := no_text_builtins)
        0 (Some scenario_B_frame) "cluster7" st)
   = Some {| ultimate_whale_discovery.messages_received := 1;
             ultimate_whale_discovery.whales_discovered := 1;
             ultimate_whale_discovery.auto_added := 1;
             ultimate_whale_discovery.start_time := 0;
             ultimate_whale_discovery.last_whale_time := 0 |}) /\
  (exists st',
     ultimate_whale_discovery.parse_real_message (B := no_text_builtins)
       0 (Some scenario_B_bare_frame) "cluster7" st = Some st' /\
     is_Some (ultimate_whale_discovery.discovered_whales st' !! ""%string) /\
     ultimate_whale_discovery.tracked_wallets st' = [""%string]).
Proof.
  cbv zeta. split; [| split; [| split]].
  - eexists. split; [reflexivity |]. split; reflexivity.
  - vm_compute. reflexivity.
  - vm_compute. reflexivity.
  - eexists. split; [vm_compute; reflexivity |].
    split; [| reflexivity]. vm_compute. eauto.
Qed.

(** ** The discovery store of [ultimate_whale_discovery.py] *)
Section DiscoveryStore.
Import Py ultimate_whale_discovery.
Local Open Scope float_scope.

Lemma record_whale_discovery_string (now : float) (td : token_data) (c : float) (raw : json)
    (st : state) (w : string) :
  td_creator_address td = JStr w ->
  record_whale_discovery now td c raw st = Ok (Some (record_whale now w td c raw st)).
Proof. intros H. unfold record_whale_discovery. now rewrite H. Qed.

(** The records of the other wallets are not touched. *)
Lemma record_whale_other (now : float) (w w' : string) (td : token_data) (c : float)
    (raw : json) (st : state) :
  w' <> w ->
  discovered_whales (record_whale now w td c raw st) !! w' = discovered_whales st !! w'.
Proof.
  intros Hne. unfold record_whale.
  destruct (discovered_whales st !! w) as [existing|] eqn:Hw.
  - destruct (confidence_score existing <? c); [| reflexivity].
    cbn. now rewrite lookup_insert_ne.
  - destruct (0.7 <? c); cbn; now rewrite lookup_insert_ne.
Qed.

(** What a call does to the record of its own wallet. *)
Lemma record_whale_seen (now : float) (w : string) (td : token_data) (c : float)
    (raw : json) (st : state) (existing : WhaleDiscovery) :
  discovered_whales st !! w = Some existing ->
  record_whale now w td c raw st =
    if confidence_score existing <? c then
      {| discovered_whales := <[w := set_confidence_score existing c]> (discovered_whales st);
         metrics_of := metrics_of st;
         tracked_wallets := tracked_wallets st |}
    else st.
Proof. intros H. unfold record_whale. now rewrite H. Qed.

Lemma record_whale_unseen (now : float) (w : string) (td : token_data) (c : float)
    (raw : json) (st : state) :
  discovered_whales st !! w = None ->
  exists whale,
    discovered_whales (record_whale now w td c raw st) = <[w := whale]> (discovered_whales st) /\
    confidence_score whale = c /\ token_name whale = td_token_name td /\
    token_address whale = td_token_address td /\ raw_data whale = raw.
Proof.
  intros H. unfold record_whale. rewrite H.
  eexists. split; [destruct (0.7 <? c); reflexivity |]. cbn. tauto.
Qed.

(** Over any run of calls, for any wallets, the stored score of a wallet
    only goes up and its stored event stays the one that created the
    record. *)
Lemma record_all_best_score (events : list scored_event) (st : state) (w : string)
    (existing : WhaleDiscovery) :
  discovered_whales st !! w = Some existing ->
  is_nan (confidence_score existing) = false ->
  exists e',
    discovered_whales (record_all events st) !! w = Some e' /\
    (confidence_score existing <=? confidence_score e') = true /\
    is_nan (confidence_score e') = false /\
    token_name e' = token_name existing /\ raw_data e' = raw_data existing.
Proof.
  revert st existing. induction events as [|ev events IH]; intros st existing Hw Hnan.
  - exists existing. cbn. repeat split; try assumption. now apply leb_refl.
  - cbn [record_all fold_left].
    set (st1 := record_whale (ev_now ev) (ev_wallet ev) (ev_token_data ev)
                  (ev_confidence ev) (ev_raw_data ev) st).
    assert (Hstep : exists e1,
               discovered_whales st1 !! w = Some e1 /\
               (confidence_score existing <=? confidence_score e1) = true /\
               is_nan (confidence_score e1) = false /\
               token_name e1 = token_name existing /\ raw_data e1 = raw_data existing).
    { subst st1. destruct (decide (w = ev_wallet ev)) as [->|Hne].
      - rewrite (record_whale_seen _ _ _ _ _ _ _ Hw).
        destruct (confidence_score existing <? ev_confidence ev) eqn:Hlt.
        + eexists. split; [cbn; apply lookup_insert_eq |]. cbn.
          split; [now apply ltb_leb |]. split; [| tauto].
          now apply ltb_not_nan in Hlt.
        + exists existing. repeat split; try assumption. now apply leb_refl.
      - rewrite record_whale_other by assumption.
        exists existing. repeat split; try assumption. now apply leb_refl. }
    destruct Hstep as (e1 & H1 & Hle1 & Hnan1 & Hname1 & Hraw1).
    destruct (IH st1 e1 H1 Hnan1) as (e' & H' & Hle' & Hnan' & Hname' & Hraw').
    exists e'. split; [exact H' |]. split; [now apply (leb_trans _ _ _ Hle1) |].
    split; [assumption |]. split; congruence.
Qed.

(** The tracked wallets grow by the wallet of a call exactly when the
    call creates the record with a confidence above 0.7. *)
Lemma record_whale_promotion (now : float) (w : string) (td : token_data) (c : float)
    (raw : json) (st : state) :
  tracked_wallets (record_whale now w td c raw st)
  = match discovered_whales st !! w with
    | Some _ => tracked_wallets st
    | None => if 0.7 <? c then tracked_wallets st ++ [w] else tracked_wallets st
    end.
Proof.
  unfold record_whale. destruct (discovered_whales st !! w) as [existing|].
  - now destruct (confidence_score existing <? c).
  - now destruct (0.7 <? c).
Qed.

(** The run 0.3, 0.5, 0.2 for one wallet, from the empty store. *)
Lemma record_whale_three_scores (now now2 now3 : float) (w : string) (td td2 td3 : token_data)
    (raw raw2 raw3 : json) :
  let st3 :=
    record_whale now3 w td3 0.2 raw3
      (record_whale now2 w td2 0.5 raw2 (record_whale now w td 0.3 raw (init now))) in
  size (discovered_whales st3) = 1%nat /\
  exists e,
    discovered_whales st3 !! w = Some e /\ confidence_score e = 0.5 /\
    token_name e = td_token_name td.
Proof.
  cbv zeta.
  destruct (record_whale_unseen now w td 0.3 raw (init now) (lookup_empty w))
    as [whale1 [Hst1 [Hc1 [Hn1 _]]]].
  set (st1 := record_whale now w td 0.3 raw (init now)) in *.
  assert (H1 : discovered_whales st1 !! w = Some whale1)
    by (rewrite Hst1; apply lookup_insert_eq).
  rewrite (record_whale_seen now2 w td2 0.5 raw2 st1 whale1 H1), Hc1.
  replace (0.3 <? 0.5) with true by reflexivity.
  match goal with |- context [record_whale now3 w td3 0.2 raw3 ?s] => set (st2 := s) end.
  assert (H2 : discovered_whales st2 !! w = Some (set_confidence_score whale1 0.5))
    by apply lookup_insert_eq.
  rewrite (record_whale_seen now3 w td3 0.2 raw3 st2 _ H2).
  cbn [confidence_score set_confidence_score].
  replace (0.5 <? 0.2) with false by reflexivity.
  split.
  - subst st2. cbn [discovered_whales]. rewrite Hst1. cbn [init discovered_whales].
    rewrite insert_insert_eq, insert_empty. apply map_size_singleton.
  - exists (set_confidence_score whale1 0.5).
    split; [exact H2 |]. split; [reflexivity | exact Hn1].
Qed.

(** C3 (amended).  The store keeps at most one record per wallet and its
    best score never goes down.  On a seen wallet a confidence strictly
    above the stored score replaces the score and nothing else -- the
    stored record keeps the token data of the event that created it --
    and a lower or equal confidence leaves the whole state as it was.  On
    an unseen wallet one record is added.  Over any further run of calls
    the stored score stays at or above what it was.  Fed 0.3, 0.5 and
    0.2 for one wallet, an empty store ends with exactly one record, with
    score 0.5. *)
Theorem record_whale_keeps_best_score (now : float) (w : string) (td : token_data)
    (c : float) (raw : json) (st : state) :
  let st' := record_whale now w td c raw st in
  (forall w' : string,
     w' <> w -> discovered_whales st' !! w' = discovered_whales st !! w') /\
  match discovered_whales st !! w with
  | Some existing =>
      size (discovered_whales st') = size (discovered_whales st) /\
      (if confidence_score existing <? c
       then discovered_whales st' !! w = Some (set_confidence_score existing c)
       else st' = st) /\
      exists e',
        discovered_whales st' !! w = Some e' /\
        (confidence_score e' <? confidence_score existing) = false /\
        (is_nan (confidence_score existing) = false ->
         (confidence_score existing <=? confidence_score e') = true)
  | None =>
      size (discovered_whales st') = S (size (discovered_whales st)) /\
      exists whale,
        discovered_whales st' !! w = Some whale /\
        confidence_score whale = c /\ token_name whale = td_token_name td
  end /\
  (forall (events : list scored_event) (existing : WhaleDiscovery),
     discovered_whales st !! w = Some existing ->
     is_nan (confidence_score existing) = false ->
     exists e',
       discovered_whales (record_all events st) !! w = Some e' /\
       (confidence_score existing <=? confidence_score e') = true /\
       token_name e' = token_name existing) /\
  forall (now2 now3 : float) (td2 td3 : token_data) (raw2 raw3 : json),
    let st3 :=
      record_whale now3 w td3 0.2 raw3
        (record_whale now2 w td2 0.5 raw2 (record_whale now w td 0.3 raw (init now))) in
    size (discovered_whales st3) = 1%nat /\
    exists e,
      discovered_whales st3 !! w = Some e /\ confidence_score e = 0.5 /\
      token_name e = td_token_name td.
Proof.
  cbv zeta. split; [intros w' Hne; now apply record_whale_other |]. split.
  - destruct (discovered_whales st !! w) as [existing|] eqn:Hw.
    + rewrite (record_whale_seen _ _ _ _ _ _ _ Hw).
      destruct (confidence_score existing <? c) eqn:Hlt; cbn.
      * split; [| split].
        -- apply map_size_insert_Some. now rewrite Hw.
        -- apply lookup_insert_eq.
        -- eexists. split; [apply lookup_insert_eq |]. cbn.
           split; [now apply ltb_asym | intros _; now apply ltb_leb].
      * split; [reflexivity |]. split; [reflexivity |].
        exists existing. split; [assumption |].
        split; [apply ltb_irrefl | apply leb_refl].
    + destruct (record_whale_unseen now w td c raw st Hw) as [whale [Hst [Hc [Hn _]]]].
      rewrite Hst. split; [now apply map_size_insert_None |].
      exists whale. split; [apply lookup_insert_eq | tauto].
  - split.
    + intros events existing Hw Hnan.
      destruct (record_all_best_score events st w existing Hw Hnan)
        as (e' & H' & Hle & _ & Hname & _).
      exists e'. tauto.
    + intros now2 now3 td2 td3 raw2 raw3.
      apply (record_whale_three_scores now now2 now3 w td td2 td3 raw raw2 raw3).
Qed.

(** C3 (counterexample).  The creator ["W"] is recorded with the first
    coin at 0.5, then met again with the second coin at 0.8: the stored
    score becomes 0.8 while the stored event is still the first coin. *)
Lemma best_event_is_not_replaced :
  let st1 := record_whale 1 "W" first_coin 0.5 JNull (init 0) in
  let st2 := record_whale 2 "W" second_coin 0.8 JNull st1 in
  record_whale_discovery 1 first_coin 0.5 JNull (init 0) = Ok (Some st1) /\
  record_whale_discovery 2 second_coin 0.8 JNull st1 = Ok (Some st2) /\
  exists e,
    discovered_whales st2 !! "W"%string = Some e /\
    confidence_score e = 0.8 /\
    token_name e = JStr "First Coin" /\
    token_address e = JStr "TokA" /\
    liquidity_sol e = 150 /\
    token_name e <> td_token_name second_coin.
Proof.
  cbv zeta. split; [reflexivity |]. split; [reflexivity |].
  erewrite (record_whale_seen 2) by (cbn; apply lookup_insert_eq).
  replace (confidence_score _ <? 0.8) with true by reflexivity.
  cbn. eexists. split; [apply lookup_insert_eq |].
  cbn. repeat split; discriminate.
Qed.

End DiscoveryStore.

(** The store of the final production script keeps the first record of a
    wallet as it is: a later event changes nothing, its score
    included. *)
Lemma discover_final_whale_first_record_stays (now_iso : string)
    (td : final_production_whale_discovery.token_data) (source : string)
    (raw_array : list Py.json) (st : final_production_whale_discovery.state) :
  is_Some (final_production_whale_discovery.discovered_whales st
             !! final_production_whale_discovery.td_creator_address td) ->
  final_production_whale_discovery.discover_final_whale now_iso td source raw_array st = st.
Proof.
  intros [existing H]. unfold final_production_whale_discovery.discover_final_whale.
  now rewrite H.
Qed.

(** ** Promotion in the store of [enhanced_whale_discovery.py] *)
Section Promotion.
Import Py enhanced_whale_discovery.
Local Open Scope float_scope.

Lemma promotion_invariant_init : promotion_invariant init.
Proof.
  repeat split; cbn; [constructor | intros w [] ].
Qed.

Lemma promotion_invariant_step (cfg : config) (whale : WhaleDiscovery) (st : state) :
  promotion_invariant st -> promotion_invariant (process_whale_discovery cfg whale st).
Proof.
  intros (Hnodup & Hdom & Hcount). unfold process_whale_discovery.
  destruct (discovered_whales st !! wallet_address whale) as [existing|] eqn:Hw.
  - destruct (confidence_score existing <? confidence_score whale); [| now repeat split].
    repeat split; cbn; try assumption.
    intros w Hin. destruct (decide (wallet_address whale = w)) as [<-|Hne].
    + rewrite lookup_insert_eq. eauto.
    + rewrite lookup_insert_ne by assumption. now apply Hdom.
  - assert (Hfresh : ~ In (wallet_address whale) (tracked_wallets st)).
    { intros Hin. apply Hdom in Hin. rewrite Hw in Hin. now destruct Hin. }
    destruct (auto_add_threshold cfg <=? confidence_score whale); repeat split; cbn.
    + apply NoDup_app. split; [assumption |]. split.
      * intros x Hx Hx'. apply list_elem_of_In in Hx, Hx'.
        destruct Hx' as [<- | []]. contradiction.
      * apply NoDup_singleton.
    + intros w Hin. apply in_app_or in Hin.
      destruct (decide (wallet_address whale = w)) as [<-|Hne].
      * rewrite lookup_alter_eq, lookup_insert_eq. cbn. eauto.
      * rewrite lookup_alter_ne, lookup_insert_ne by assumption.
        destruct Hin as [Hin | [Heq | []]]; [now apply Hdom | contradiction].
    + rewrite length_app, Hcount. cbn. lia.
    + assumption.
    + intros w Hin. destruct (decide (wallet_address whale = w)) as [<-|Hne].
      * rewrite lookup_insert_eq. eauto.
      * rewrite lookup_insert_ne by assumption. now apply Hdom.
    + assumption.
Qed.

Lemma promotion_invariant_run (cfg : config) (whales : list WhaleDiscovery) (st : state) :
  promotion_invariant st -> promotion_invariant (process_all cfg whales st).
Proof.
  revert st. induction whales as [|whale whales IH]; intros st Hst; [assumption |].
  cbn. apply IH. now apply promotion_invariant_step.
Qed.

(** C2 (amended).  A promotion is made by the call that creates the
    wallet's record, and only when that first score is at or above the
    auto-promote threshold (0.45 by default); a call on a wallet already
    in the store never promotes, whatever its score.  So over any run
    the tracked wallets repeat no wallet and [auto_added] counts them:
    at most one promotion in a wallet's lifetime.  In particular, a
    wallet fed a score at or above the threshold twice is promoted by
    the first call and not by the second. *)
Theorem promotion_on_creation_only (cfg : config) (whale : WhaleDiscovery) (st : state) :
  let wallet := wallet_address whale in
  let st' := process_whale_discovery cfg whale st in
  match discovered_whales st !! wallet with
  | Some existing =>
      auto_added_count st' = auto_added_count st /\
      tracked_wallets st' = tracked_wallets st /\
      exists e',
        discovered_whales st' !! wallet = Some e' /\ auto_added e' = auto_added existing
  | None =>
      if auto_add_threshold cfg <=? confidence_score whale then
        auto_added_count st' = (auto_added_count st + 1)%Z /\
        tracked_wallets st' = tracked_wallets st ++ [wallet] /\
        discovered_whales st' !! wallet = Some (set_auto_added whale)
      else
        auto_added_count st' = auto_added_count st /\
        tracked_wallets st' = tracked_wallets st /\
        discovered_whales st' !! wallet = Some whale
  end /\
  (forall whales : list WhaleDiscovery,
     let final := process_all cfg whales init in
     NoDup (tracked_wallets final) /\
     auto_added_count final = Z.of_nat (length (tracked_wallets final))) /\
  (forall second : WhaleDiscovery,
     wallet_address second = wallet ->
     discovered_whales st !! wallet = None ->
     (auto_add_threshold cfg <=? confidence_score whale) = true ->
     auto_added_count st' = (auto_added_count st + 1)%Z /\
     auto_added_count (process_whale_discovery cfg second st') = auto_added_count st').
Proof.
  cbv zeta. split; [| split].
  - unfold process_whale_discovery.
    destruct (discovered_whales st !! wallet_address whale) as [existing|] eqn:Hw.
    + destruct (confidence_score existing <? confidence_score whale); cbn.
      * repeat split. eexists. split; [apply lookup_insert_eq | reflexivity].
      * repeat split. eauto.
    + destruct (auto_add_threshold cfg <=? confidence_score whale); cbn.
      * repeat split. now rewrite lookup_alter_eq, lookup_insert_eq.
      * repeat split. apply lookup_insert_eq.
  - intros whales.
    destruct (promotion_invariant_run cfg whales init promotion_invariant_init)
      as (Hnodup & _ & Hcount).
    now split.
  - intros second Hsame Hnew Hhigh.
    assert (Hfirst : exists e,
               discovered_whales (process_whale_discovery cfg whale st)
                 !! wallet_address second = Some e).
    { rewrite Hsame. unfold process_whale_discovery. rewrite Hnew, Hhigh. cbn.
      rewrite lookup_alter_eq, lookup_insert_eq. cbn. eauto. }
    destruct Hfirst as [e He]. split.
    + unfold process_whale_discovery. now rewrite Hnew, Hhigh.
    + unfold process_whale_discovery at 1. rewrite He.
      now destruct (confidence_score e <? confidence_score second).
Qed.

(** C2 (counterexample).  Wallet ["W"] is recorded at 0.3 and met again
    at 0.5: its best score is now 0.5, at or above the threshold 0.45,
    its record still says [auto_added = False], and nothing was
    promoted. *)
Lemma late_threshold_crossing_not_promoted :
  let st := process_all default_config [whale_W 0.3; whale_W 0.5] init in
  exists e,
    discovered_whales st !! "W"%string = Some e /\
    confidence_score e = 0.5 /\
    (auto_add_threshold default_config <=? confidence_score e) = true /\
    auto_added e = false /\
    auto_added_count st = 0%Z /\
    tracked_wallets st = [].
Proof.
  cbv zeta. eexists. split; [vm_compute; reflexivity |].
  repeat split.
Qed.

(** The same wallet fed 0.5 twice: one promotion, made by the first
    call. *)
Example promoted_once :
  let st1 := process_whale_discovery default_config (whale_W 0.5) init in
  let st2 := process_whale_discovery default_config (whale_W 0.5) st1 in
  auto_added_count st1 = 1%Z /\ tracked_wallets st1 = ["W"%string] /\
  auto_added_count st2 = 1%Z /\ tracked_wallets st2 = ["W"%string].
Proof. vm_compute. repeat split. Qed.

End Promotion.

(** ** The rate-limit governor *)
Section Governor.
Import Py ultimate_whale_discovery_safe.

Lemma Qltb_true (a b : Q) : Qltb a b = true -> (a < b)%Q.
Proof.
  unfold Qltb. intros H. apply negb_true_iff in H. now apply Qle_bool_false.
Qed.

Lemma Qltb_lt (a b : Q) : (a < b)%Q -> Qltb a b = true.
Proof.
  intros H. unfold Qltb. apply negb_true_iff.
  destruct (Qle_bool b a) eqn:E; [| reflexivity].
  apply Qle_bool_true in E. lra.
Qed.

Lemma Qltb_ge (a b : Q) : (b <= a)%Q -> Qltb a b = false.
Proof.
  intros H. unfold Qltb. apply negb_false_iff. now apply Qle_bool_iff.
Qed.

(** [int(x)] is at least [n] when [x] is. *)
Lemma int_of_Q_lower (q : Q) (n : Z) :
  (0 <= n)%Z -> (inject_Z n <= q)%Q -> (n <= int_of_Q q)%Z.
Proof.
  intros Hn H. destruct q as [a b]. unfold int_of_Q, Qle in *. cbn in *.
  rewrite Z.quot_div_nonneg by lia.
  apply Z.div_le_lower_bound; lia.
Qed.

(** A first request on a fresh governor is allowed and recorded. *)
Lemma acquire_first (t r : Q) :
  (30 <= t)%Q ->
  acquire_connection t r init = (one_attempt r, (true, SafeToConnect)).
Proof.
  intros Ht. unfold acquire_connection, can_attempt_connection. cbn.
  rewrite Qltb_ge by (unfold inject_Z; lra). reflexivity.
Qed.

(** A request less than 30 seconds after the one recorded attempt is
    denied with the seconds that remain, and is not recorded. *)
Lemma acquire_too_soon (r t r' : Q) :
  (r <= t)%Q -> (t - r < 30)%Q ->
  acquire_connection t r' (one_attempt r)
  = (one_attempt r, (false, RateLimitWait (int_of_Q (inject_Z 30 - (t - r))))).
Proof.
  intros Hle Hlt. unfold acquire_connection, can_attempt_connection. cbn.
  rewrite (Qltb_lt (t - r) 60) by lra. cbn.
  rewrite (Qltb_lt (t - r) (inject_Z 30)) by (unfold inject_Z; lra).
  reflexivity.
Qed.

(** C6.  On a fresh governor (quota 3 per 60 seconds, 30 seconds between
    attempts) four connection requests made within 10 seconds end with a
    denial: the fourth returns [False] with the seconds to wait, at
    least 20.  Each request is a check at [t_i] and, when allowed, the
    recording at [r_i]; the clock is past the first 30 seconds of the
    epoch. *)
Theorem fourth_connection_request_denied (t1 r1 t2 r2 t3 r3 t4 r4 : Q) :
  (30 <= t1)%Q -> (t1 <= r1)%Q -> (r1 <= t2)%Q -> (t2 <= r2)%Q ->
  (r2 <= t3)%Q -> (t3 <= r3)%Q -> (r3 <= t4)%Q -> (t4 - t1 <= 10)%Q ->
  let s1 := fst (acquire_connection t1 r1 init) in
  let s2 := fst (acquire_connection t2 r2 s1) in
  let s3 := fst (acquire_connection t3 r3 s2) in
  exists remaining : Z,
    snd (acquire_connection t4 r4 s3) = (false, RateLimitWait remaining) /\
    wait_seconds (snd (snd (acquire_connection t4 r4 s3))) = Some remaining /\
    (0 < remaining)%Z /\ (20 <= remaining)%Z.
Proof.
  intros H1 H2 H3 H4 H5 H6 H7 H8. cbv zeta.
  rewrite acquire_first by assumption. cbn [fst].
  rewrite (acquire_too_soon r1 t2 r2) by lra. cbn [fst].
  rewrite (acquire_too_soon r1 t3 r3) by lra. cbn [fst].
  rewrite (acquire_too_soon r1 t4 r4) by lra. cbn [fst snd wait_seconds].
  assert (Hlow : (20 <= int_of_Q (inject_Z 30 - (t4 - r1)))%Z).
  { apply int_of_Q_lower; [lia |]. unfold inject_Z. lra. }
  eexists. repeat split; lia.
Qed.

Lemma fourth_connection_request_denied_witness :
  (30 <= 1755144421)%Q /\
  exists remaining : Z,
    snd (acquire_connection 1755144430 1755144430
           (fst (acquire_connection 1755144427 1755144427
                   (fst (acquire_connection 1755144424 1755144424
                           (fst (acquire_connection 1755144421 1755144421 init)))))))
    = (false, RateLimitWait remaining) /\
    wait_seconds
      (snd (snd (acquire_connection 1755144430 1755144430
                   (fst (acquire_connection 1755144427 1755144427
                           (fst (acquire_connection 1755144424 1755144424
                                   (fst (acquire_connection 1755144421 1755144421 init)))))))))
    = Some remaining /\
    (0 < remaining)%Z /\ (20 <= remaining)%Z.
Proof.
  split; [discriminate |].
  apply (fourth_connection_request_denied
           1755144421 1755144421 1755144424 1755144424
           1755144427 1755144427 1755144430 1755144430);
    discriminate.
Defined.

(** The four requests of the witness, evaluated: the first is allowed,
    the other three are denied with 27, 24 and 21 seconds to wait. *)
Example four_requests_evaluated :
  let '(s1, a1) := acquire_connection 1755144421 1755144421 init in
  let '(s2, a2) := acquire_connection 1755144424 1755144424 s1 in
  let '(s3, a3) := acquire_connection 1755144427 1755144427 s2 in
  let '(s4, a4) := acquire_connection 1755144430 1755144430 s3 in
  [a1; a2; a3; a4]
  = [(true, SafeToConnect); (false, RateLimitWait 27); (false, RateLimitWait 24);
     (false, RateLimitWait 21)].
Proof. vm_compute. reflexivity. Qed.

(** With three attempts on record in the window the quota test denies
    first, and its message carries a count, not a wait. *)
Example quota_denial_carries_no_wait :
  let st :=
    record_connection_attempt 1755144423
      (record_connection_attempt 1755144422
         (record_connection_attempt 1755144421 init)) in
  snd (can_attempt_connection 1755144430 st) = (false, RateLimitCount 3) /\
  wait_seconds (RateLimitCount 3) = None.
Proof. vm_compute. split; reflexivity. Qed.

(** The backoff times of [n] rate-limit responses in a row. *)
Lemma violations_backoff (n : nat) (st : state) :
  limits st = default_rate_limits ->
  fst (violations n st)
  = map (fun k => Z.min (2 ^ (consecutive_failures st + Z.of_nat k)) 300) (seq 1 n).
Proof.
  revert st. induction n as [|n IH]; intros st Hl; [reflexivity |].
  cbn [violations]. unfold handle_rate_limit_response.
  replace (rate_limit_indicators 429 "") with true by reflexivity.
  rewrite Hl. cbn [backoff_multiplier max_backoff].
  match goal with
  | |- context [violations n ?s] =>
      specialize (IH s eq_refl); destruct (violations n s) as [l s'] eqn:Hv
  end.
  cbn [fst] in *. rewrite IH. cbn [consecutive_failures seq map].
  f_equal. rewrite <- (seq_shift n 1), map_map.
  apply map_ext. intros k. f_equal. f_equal. lia.
Qed.

(** C8 (amended).  A reported rate-limit signal raises the failure count
    by one and returns a cooldown of 2 to the power of that count,
    capped at 300 seconds: 2 seconds on the first violation, doubling
    on each further one in a row, and 300 from the ninth on. *)
Theorem rate_limit_cooldown_doubles (n : nat) :
  (forall (st : state) (status_code : Z) (response_text : string),
     rate_limit_indicators status_code response_text = true ->
     let '(st', backoff_time) := handle_rate_limit_response status_code response_text st in
     consecutive_failures st' = (consecutive_failures st + 1)%Z /\
     rate_limit_detected st' = true /\
     backoff_time
     = Z.min (backoff_multiplier (limits st) ^ consecutive_failures st') (max_backoff (limits st))) /\
  fst (violations n init) = map (fun k => Z.min (2 ^ Z.of_nat k) 300) (seq 1 n) /\
  fst (violations 10 init) = [2; 4; 8; 16; 32; 64; 128; 256; 300; 300]%Z /\
  Forall (fun backoff_time => (2 <= backoff_time <= 300)%Z) (fst (violations n init)).
Proof.
  assert (H : fst (violations n init)
              = map (fun k => Z.min (2 ^ Z.of_nat k) 300) (seq 1 n)).
  { rewrite violations_backoff by reflexivity. apply map_ext. intros k.
    cbn [init consecutive_failures]. now rewrite Z.add_0_l. }
  split.
  { intros st status_code response_text Hsignal.
    unfold handle_rate_limit_response. rewrite Hsignal. now cbn. }
  split; [exact H |]. split; [reflexivity |].
  rewrite H. apply List.Forall_forall. intros x Hx.
  apply List.in_map_iff in Hx as [k [<- Hk]]. apply List.in_seq in Hk.
  assert (2 ^ 1 <= 2 ^ Z.of_nat k)%Z by (apply Z.pow_le_mono_r; lia).
  change (2 ^ 1)%Z with 2%Z in *. lia.
Qed.

(** C8 (counterexample).  The first reported violation (status 429 on a
    fresh governor) returns a cooldown of 2 seconds, not 30. *)
Lemma first_violation_cooldown_is_two :
  snd (handle_rate_limit_response 429 "" init) = 2%Z /\
  snd (handle_rate_limit_response 429 "" init) <> 30%Z.
Proof. split; [reflexivity | discriminate]. Qed.

End Governor.

(** ** The connection loop *)
Section Supervisor.
Import ultimate_whale_discovery.

Lemma connection_loop_capped (rounds : list round) :
  connection_loop max_retries rounds = [MaxRetriesExceeded].
Proof. now destruct rounds. Qed.

Lemma attempts_app (t1 t2 : list action) : attempts (t1 ++ t2) = (attempts t1 + attempts t2)%nat.
Proof. unfold attempts. now rewrite List.filter_app, length_app. Qed.

Lemma failures_cons (r : round) (rounds : list round) :
  failures (r :: rounds)
  = ((match outcome r with Listened => 0 | _ => 1 end) + failures rounds)%nat.
Proof. unfold failures. cbn [List.filter]. now destruct (outcome r). Qed.

Lemma listened_cons (r : round) (rounds : list round) :
  listened (r :: rounds)
  = ((match outcome r with Listened => 1 | _ => 0 end) + listened rounds)%nat.
Proof. unfold listened. cbn [List.filter]. now destruct (outcome r). Qed.

(** [retry_count] is local to the handler and only ever incremented:
    over rounds that end in a listened connection, a timeout or a reset
    the loop makes one attempt per round and arrives at the next round
    with [retry_count] raised by the number of failures, as long as that
    stays below the cap. *)
Lemma connection_loop_below_the_cap (pre rest : list round) (retry_count : Z) :
  forallb is_listened_timeout_or_reset pre = true ->
  (0 <= retry_count)%Z -> (retry_count + Z.of_nat (failures pre) < max_retries)%Z ->
  connection_loop retry_count (pre ++ rest)
  = connection_loop retry_count pre
    ++ connection_loop (retry_count + Z.of_nat (failures pre)) rest
  /\ attempts (connection_loop retry_count pre) = length pre.
Proof.
  revert retry_count. induction pre as [|p pre IH]; intros k Hall H0 Hcap.
  - unfold failures in *. cbn in *. unfold max_retries in *.
    destruct (Z.leb_spec 10 k); [lia |]. rewrite Z.add_0_r. now split.
  - cbn [forallb] in Hall. apply andb_true_iff in Hall as [Hp Hall].
    unfold is_listened_timeout_or_reset in Hp.
    apply andb_true_iff in Hp as [Hp Hout]. apply andb_true_iff in Hp as [Hrun Hafter].
    rewrite failures_cons in *.
    cbn [app connection_loop]. unfold max_retries in *.
    destruct (Z.leb_spec 10 k) as [Hge|Hlt]; [lia |].
    rewrite Hrun.
    assert (Hcases : exists k',
               retry_count_after k (outcome p) = Some k' /\
               k' = (k + Z.of_nat (match outcome p with Listened => 0 | _ => 1 end))%Z /\
               match outcome p with
               | InvalidStatusCode 401 => [RefreshAuthentication]
               | _ => []
               end = []).
    { destruct (outcome p); try discriminate; eexists; (split; [reflexivity |]);
        (split; [cbn; lia | reflexivity]). }
    destruct Hcases as (k' & -> & Hk' & ->). cbn [app].
    destruct (IH k' Hall) as [IHeq IHatt].
    { destruct (outcome p); cbn in Hk'; lia. }
    { destruct (outcome p); cbn in Hk', Hcap |- *; lia. }
    assert (Hlt' : (k' <? 10)%Z = true)
      by (apply Z.ltb_lt; destruct (outcome p); cbn in Hk', Hcap; lia).
    rewrite Hafter, Hlt'. cbn [andb app]. rewrite IHeq. split.
    + replace (k + Z.of_nat (match outcome p with Listened => 0 | _ => 1 end + failures pre))%Z
        with (k' + Z.of_nat (failures pre))%Z by (rewrite Nat2Z.inj_add; lia).
      reflexivity.
    + change (attempts (Connect (k + 1) :: Sleep ?w :: ?l)) with (S (attempts l)).
      now rewrite IHatt.
Qed.

Lemma length_listened_failures (rounds : list round) :
  length rounds = (listened rounds + failures rounds)%nat.
Proof.
  induction rounds as [|r rounds IH]; [reflexivity |].
  rewrite listened_cons, failures_cons. cbn [length]. destruct (outcome r); lia.
Qed.

(** C7 (amended).  [retry_count] counts the failures of the whole run:
    it is never reset, also not by a connection that was made and
    listened to.  A timeout or a reset that is failure number [n] of the
    run is followed, while [n] is below [max_retries = 10], by a wait of
    [min(2 ** n, 60)] seconds and a further attempt; failure number ten
    ends the loop ("max retries exceeded") whatever the environment
    offers next, after ten failed attempts and one attempt for each
    connection that was listened to. *)
Theorem connection_retries_capped (pre rest : list round) (r : round) :
  forallb is_listened_timeout_or_reset pre = true ->
  is_timeout_or_reset r = true ->
  let n := (Z.of_nat (failures pre) + 1)%Z in
  ((n < 10)%Z ->
   websocket_connection_handler (pre ++ r :: rest)
   = websocket_connection_handler pre
     ++ Connect n :: Sleep (Z.min (2 ^ n) 60) :: connection_loop n rest
   /\ forall next rest',
        rest = next :: rest' -> running_at_test next = true ->
        exists tail, connection_loop n rest = Connect (n + 1) :: tail) /\
  (n = 10%Z ->
   websocket_connection_handler (pre ++ r :: rest)
   = websocket_connection_handler pre ++ [Connect 10; MaxRetriesExceeded]
   /\ attempts (websocket_connection_handler (pre ++ r :: rest)) = (listened pre + 10)%nat).
Proof.
  intros Hall Hr. cbv zeta. unfold websocket_connection_handler.
  unfold is_timeout_or_reset in Hr.
  apply andb_true_iff in Hr as [Hr Hout]. apply andb_true_iff in Hr as [Hrun Hafter].
  assert (Hstep : retry_count_after (Z.of_nat (failures pre)) (outcome r)
                  = Some (Z.of_nat (failures pre) + 1)%Z)
    by (destruct (outcome r); try discriminate; reflexivity).
  assert (Hno401 : match outcome r with
                   | InvalidStatusCode 401 => [RefreshAuthentication]
                   | _ => []
                   end = []) by (destruct (outcome r); try discriminate; reflexivity).
  assert (Hhead : (Z.of_nat (failures pre) + 1 <= 10)%Z ->
                  connection_loop 0 (pre ++ r :: rest)
                  = connection_loop 0 pre
                    ++ Connect (Z.of_nat (failures pre) + 1)
                       :: (if (Z.of_nat (failures pre) + 1 <? 10)%Z
                           then [Sleep (Z.min (2 ^ (Z.of_nat (failures pre) + 1)) 60)]
                           else [])
                          ++ connection_loop (Z.of_nat (failures pre) + 1) rest
                  /\ attempts (connection_loop 0 pre) = length pre).
  { intros Hn.
    destruct (connection_loop_below_the_cap pre (r :: rest) 0 Hall)
      as [Heq Hatt]; [lia | unfold max_retries; lia |].
    rewrite Heq, Z.add_0_l. split; [| exact Hatt]. f_equal.
    cbn [connection_loop]. unfold max_retries.
    destruct (Z.leb_spec 10 (Z.of_nat (failures pre))); [lia |].
    now rewrite Hrun, Hstep, Hno401, Hafter, andb_true_r. }
  split.
  - intros Hn. destruct Hhead as [Heq _]; [lia |]. rewrite Heq.
    assert (Hlt : (Z.of_nat (failures pre) + 1 <? 10)%Z = true) by (apply Z.ltb_lt; lia).
    rewrite Hlt. split; [reflexivity |].
    intros next rest' -> Hnext. cbn [connection_loop]. unfold max_retries.
    destruct (Z.leb_spec 10 (Z.of_nat (failures pre) + 1)); [lia |].
    rewrite Hnext. eexists. reflexivity.
  - intros Hn. destruct Hhead as [Heq Hatt]; [lia |]. rewrite Heq, Hn.
    change (10 <? 10)%Z with false. cbn [app].
    assert (Hend : connection_loop 10 rest = [MaxRetriesExceeded]) by now destruct rest.
    rewrite Hend. split; [reflexivity |].
    rewrite attempts_app, Hatt, length_listened_failures.
    change (attempts [Connect 10; MaxRetriesExceeded]) with 1%nat. lia.
Qed.

Lemma connection_retries_capped_witness :
  forallb is_listened_timeout_or_reset [timeout_round; listened_round; reset_round] = true /\
  is_timeout_or_reset timeout_round = true /\
  websocket_connection_handler
    ([timeout_round; listened_round; reset_round] ++ timeout_round :: [timeout_round])
  = websocket_connection_handler [timeout_round; listened_round; reset_round]
    ++ Connect 3 :: Sleep 8 :: connection_loop 3 [timeout_round].
Proof.
  split; [reflexivity |]. split; [reflexivity |].
  apply (proj1 (connection_retries_capped
                  [timeout_round; listened_round; reset_round] [timeout_round]
                  timeout_round eq_refl eq_refl)).
  cbn. lia.
Defined.

(** The trace of that run: the connection that was listened to is
    attempt 2 and leaves the count at 1. *)
Example failures_around_a_listened_connection :
  websocket_connection_handler
    [timeout_round; listened_round; reset_round; timeout_round; timeout_round]
  = [Connect 1; Sleep 2; Connect 2; Sleep 2; Connect 2; Sleep 4; Connect 3; Sleep 8;
     Connect 4; Sleep 16].
Proof. reflexivity. Qed.

(** Nine timeouts, a connection that is listened to, and one more
    timeout: the loop ends at that timeout, after eleven attempts. *)
Example a_listened_connection_does_not_reset_the_count :
  websocket_connection_handler
    (repeat timeout_round 9 ++ listened_round :: timeout_round :: repeat timeout_round 3)
  = [Connect 1; Sleep 2; Connect 2; Sleep 4; Connect 3; Sleep 8; Connect 4; Sleep 16;
     Connect 5; Sleep 32; Connect 6; Sleep 60; Connect 7; Sleep 60; Connect 8; Sleep 60;
     Connect 9; Sleep 60; Connect 10; Sleep 60; Connect 10; MaxRetriesExceeded] /\
  attempts (websocket_connection_handler
              (repeat timeout_round 9 ++ listened_round :: timeout_round
               :: repeat timeout_round 3)) = 11%nat.
Proof. split; reflexivity. Qed.

(** C7 (counterexample).  Ten timeouts in a row, and the environment
    ready for more: the handler stops after the tenth attempt and makes
    no eleventh. *)
Lemma no_retry_after_ten_failures :
  websocket_connection_handler (repeat timeout_round 12)
  = [Connect 1; Sleep 2; Connect 2; Sleep 4; Connect 3; Sleep 8; Connect 4; Sleep 16;
     Connect 5; Sleep 32; Connect 6; Sleep 60; Connect 7; Sleep 60; Connect 8; Sleep 60;
     Connect 9; Sleep 60; Connect 10; MaxRetriesExceeded] /\
  attempts (websocket_connection_handler (repeat timeout_round 12)) = 10%nat /\
  ~ In (Connect 11) (websocket_connection_handler (repeat timeout_round 12)).
Proof.
  split; [reflexivity |]. split; [reflexivity |].
  vm_compute. intros H. repeat (destruct H as [H | H]; [discriminate |]). exact H.
Qed.

End Supervisor.

(** ** The connection loop under any environment *)
Section SupervisorTraces.
Import ultimate_whale_discovery.

Lemma sleeps_app (t1 t2 : list action) : sleeps (t1 ++ t2) = sleeps t1 ++ sleeps t2.
Proof. unfold sleeps. now rewrite flat_map_app. Qed.

Lemma connection_loop_sleeps (rounds : list round) (retry_count : Z) :
  (0 <= retry_count)%Z ->
  List.Forall (fun w => 1 <= w <= 60)%Z (sleeps (connection_loop retry_count rounds)).
Proof.
  revert retry_count. induction rounds as [|r rest IH]; intros k Hk; simpl.
  - destruct (max_retries <=? k)%Z; simpl; constructor.
  - destruct (max_retries <=? k)%Z; [simpl; constructor|].
    destruct (running_at_test r); [|simpl; constructor].
    change (sleeps (Connect (k + 1) :: ?l)) with (sleeps l).
    rewrite sleeps_app. apply List.Forall_app. split.
    { destruct (outcome r) as [| |c| |]; simpl; try constructor.
      destruct c as [|p|p]; simpl; try constructor.
      repeat (destruct p as [p|p|]; simpl; try constructor). }
    destruct (retry_count_after k (outcome r)) as [k'|] eqn:E; [|simpl; constructor].
    assert (Hk' : (0 <= k')%Z).
    { destruct (outcome r) as [| |c| |]; simpl in E;
        try destruct (c =? 403)%Z; inversion E; lia. }
    rewrite sleeps_app. apply List.Forall_app. split; [|now apply IH].
    destruct ((k' <? max_retries)%Z && running_after r)%bool; simpl; constructor; [|constructor].
    assert (0 < 2 ^ k')%Z by (apply Z.pow_pos_nonneg; lia). lia.
Qed.

(** X1: whatever the environment does, every wait of the connection
    loop lasts between 1 and 60 seconds. *)
Theorem every_retry_wait_is_bounded (rounds : list round) :
  List.Forall (fun w => 1 <= w <= 60)%Z (sleeps (websocket_connection_handler rounds)).
Proof. apply connection_loop_sleeps. lia. Qed.

Lemma connection_loop_attempts (rounds : list round) (retry_count : Z) :
  (0 <= retry_count <= max_retries)%Z ->
  (attempts (connection_loop retry_count rounds) + Z.to_nat retry_count
   <= listened rounds + 10)%nat.
Proof.
  revert retry_count. induction rounds as [|r rest IH]; intros k Hk; simpl;
    unfold max_retries in *.
  - destruct (Z.leb_spec 10 k); cbn; lia.
  - destruct (Z.leb_spec 10 k) as [Hcap|Hcap]; [cbn; lia|].
    destruct (running_at_test r); [|cbn; lia].
    change (attempts (Connect (k + 1) :: ?l)) with (S (attempts l)).
    rewrite attempts_app.
    assert (Hrefresh : attempts (match outcome r with
                                 | InvalidStatusCode 401 => [RefreshAuthentication]
                                 | _ => []
                                 end) = 0%nat).
    { destruct (outcome r) as [| |c| |]; try reflexivity.
      destruct c as [|p|p]; try reflexivity.
      repeat (destruct p as [p|p|]; try reflexivity). }
    rewrite Hrefresh. unfold listened in *. simpl.
    assert (Hstep : forall k' sleep,
               (k <= k' <= k + 1)%Z ->
               attempts sleep = 0%nat ->
               (S (attempts (sleep ++ connection_loop k' rest)) + Z.to_nat k
                <= S (length (List.filter
                                (fun r => match outcome r with Listened => true | _ => false end)
                                rest)) + 10)%nat
               /\ (k' = k + 1 ->
                   (S (attempts (sleep ++ connection_loop k' rest)) + Z.to_nat k
                    <= length (List.filter
                                 (fun r => match outcome r with Listened => true | _ => false end)
                                 rest) + 10)%nat)%Z).
    { intros k' sleep Hk' Hsleep. rewrite attempts_app, Hsleep.
      specialize (IH k' ltac:(lia)). split; [lia|]. intros ->.
      replace (Z.to_nat (k + 1)) with (S (Z.to_nat k)) in IH by lia. lia. }
    assert (Hsleep : forall k', attempts (if ((k' <? 10)%Z && running_after r)%bool
                                          then [Sleep (Z.min (2 ^ k') 60)] else []) = 0%nat).
    { intros k'. now destruct ((k' <? 10)%Z && running_after r)%bool. }
    destruct (outcome r) as [| |c| |] eqn:Ho; simpl;
      try (apply (Hstep (k + 1)%Z); [lia|apply Hsleep|reflexivity]).
    + apply (Hstep k); [lia|apply Hsleep].
    + destruct (c =? 403)%Z; [cbn; lia|].
      apply (Hstep (k + 1)%Z); [lia|apply Hsleep|reflexivity].
Qed.

(** X2: whatever the environment does, the connection loop makes at most
    ten attempts beyond those whose connection was made and listened
    to. *)
Theorem failed_attempts_are_capped (rounds : list round) :
  (attempts (websocket_connection_handler rounds) <= listened rounds + 10)%nat.
Proof.
  pose proof (connection_loop_attempts rounds 0 ltac:(unfold max_retries; lia)) as H.
  unfold websocket_connection_handler. simpl in H. lia.
Qed.

Lemma connection_loop_listened (n : nat) :
  connection_loop 0 (repeat listened_round n) = concat (repeat [Connect 1; Sleep 1] n).
Proof. induction n as [|n IH]; [reflexivity|]. simpl repeat. simpl. now rewrite IH. Qed.

(** X4: a connection that is made and then closed does not count as a
    failure: after any number [n] of such rounds the loop has connected
    [n] times, each time as attempt 1 and each time after a wait of one
    second, and it has not given up. *)
Theorem closed_connections_are_retried_without_bound (n : nat) :
  websocket_connection_handler (repeat listened_round n)
  = concat (repeat [Connect 1; Sleep 1] n)
  /\ attempts (websocket_connection_handler (repeat listened_round n)) = n
  /\ ~ In MaxRetriesExceeded (websocket_connection_handler (repeat listened_round n)).
Proof.
  unfold websocket_connection_handler. rewrite connection_loop_listened.
  split; [reflexivity|]. split.
  - induction n as [|n IH]; [reflexivity|]. simpl. unfold attempts in *. simpl. now rewrite IH.
  - induction n as [|n IH]; simpl; [tauto|]. intros [H|[H|H]]; try discriminate. tauto.
Qed.

End SupervisorTraces.

(** ** The governor from any state, and over runs *)
Section GovernorProtocol.
Import ultimate_whale_discovery_safe.

(** X5: from every state of the governor with the default limits, a
    connection attempt recorded at [r] makes [can_attempt_connection]
    deny at every reading before [r + 30], and an authentication attempt
    recorded at [r] makes [can_attempt_auth] deny at every reading before
    [r + 120]. *)
Theorem minimum_spacing_from_every_state (r now : Q) (st : state) :
  limits st = default_rate_limits ->
  ((now - r < 30)%Q ->
   fst (snd (can_attempt_connection now (record_connection_attempt r st))) = false) /\
  ((now - r < 120)%Q ->
   fst (snd (can_attempt_auth now (record_auth_attempt r st))) = false).
Proof.
  intros Hl. split; intros Hnow.
  - unfold can_attempt_connection. simpl. rewrite Hl. simpl.
    destruct (3 <=? _)%Z; [reflexivity|].
    now rewrite (Qltb_lt (now - r) (inject_Z 30) Hnow).
  - unfold can_attempt_auth. simpl. rewrite Hl. simpl.
    destruct (5 <=? _)%Z; [reflexivity|].
    now rewrite (Qltb_lt (now - r) (inject_Z 120) Hnow).
Qed.

Lemma minimum_spacing_from_every_state_witness :
  fst (snd (can_attempt_connection 129 (record_connection_attempt 100 init))) = false /\
  fst (snd (can_attempt_auth 219 (record_auth_attempt 100 init))) = false.
Proof.
  destruct (minimum_spacing_from_every_state 100 129 init eq_refl) as [Hc _].
  destruct (minimum_spacing_from_every_state 100 219 init eq_refl) as [_ Ha].
  split; [apply Hc | apply Ha]; reflexivity.
Defined.

Lemma spaced_filter (f : Q -> bool) (l : list Q) : spaced l -> spaced (List.filter f l).
Proof.
  induction l as [|a l IH]; simpl; [tauto|]. intros [Ha Hl].
  destruct (f a); simpl; [|now apply IH]. split; [|now apply IH].
  apply List.Forall_forall. intros b Hb. apply List.filter_In in Hb.
  rewrite List.Forall_forall in Ha. apply Ha. tauto.
Qed.

Lemma spaced_app (l : list Q) (b : Q) :
  spaced l -> List.Forall (fun a => a + 30 <= b)%Q l -> spaced (l ++ [b]).
Proof.
  induction l as [|a l IH]; simpl; [intros _ _; split; [constructor|exact I]|].
  intros [Ha Hl] Hb. inversion Hb as [|? ? Hab Hlb]; subst. split; [|now apply IH].
  apply List.Forall_app. split; [exact Ha|]. constructor; [exact Hab|constructor].
Qed.

(** At most two readings that are 30 apart lie within the 60 seconds
    before a reading that is not earlier than any of them. *)
Lemma spaced_window (now last : Q) (l : list Q) :
  spaced l -> List.Forall (fun a => a <= last)%Q l -> (last <= now)%Q ->
  (length (List.filter (fun t => Qltb (now - t) 60) l) <= 2)%nat.
Proof.
  intros Hs Hl Hnow.
  assert (Hs' := spaced_filter (fun t => Qltb (now - t) 60) l Hs).
  assert (Hin : forall a, In a (List.filter (fun t => Qltb (now - t) 60) l) ->
                          (now - a < 60)%Q /\ (a <= now)%Q).
  { intros a Ha. apply List.filter_In in Ha. destruct Ha as [Ha Hlt].
    apply Qltb_true in Hlt. rewrite List.Forall_forall in Hl. specialize (Hl a Ha).
    split; [exact Hlt|lra]. }
  destruct (List.filter _ l) as [|a [|b [|c rest]]]; simpl; try lia.
  exfalso. simpl in Hs'. destruct Hs' as [Ha [Hb _]].
  inversion Ha as [|? ? Hab _]; subst. inversion Hb as [|? ? Hbc _]; subst.
  destruct (Hin a ltac:(simpl; auto)) as [Ha60 _].
  destruct (Hin c ltac:(simpl; auto)) as [_ Hc].
  lra.
Qed.

Lemma acquire_connection_invariant (t now now_rec : Q) (st : state) :
  governor_invariant t st -> (t <= now)%Q -> (now <= now_rec)%Q ->
  governor_invariant now_rec (fst (acquire_connection now now_rec st)) /\
  forall n, snd (snd (acquire_connection now now_rec st)) <> RateLimitCount n.
Proof.
  intros (Hl & Hs & Hle & Ht) Hnow Hrec.
  pose proof (spaced_window now (last_connection_attempt st) (connection_attempts st) Hs Hle
                ltac:(lra)) as Hwin.
  pose proof (spaced_filter (fun t => Qltb (now - t) 60) _ Hs) as Hs'.
  assert (Hle' : List.Forall (fun a => a <= last_connection_attempt st)%Q
                   (List.filter (fun t => Qltb (now - t) 60) (connection_attempts st))).
  { apply List.Forall_forall. intros a Ha. apply List.filter_In in Ha.
    rewrite List.Forall_forall in Hle. apply Hle. tauto. }
  unfold acquire_connection, can_attempt_connection. simpl. rewrite Hl. simpl.
  destruct (Z.leb_spec 3 (Z.of_nat (length (List.filter (fun t => Qltb (now - t) 60)
                                              (connection_attempts st))))) as [Hq|Hq];
    [lia|].
  destruct (Qltb (now - last_connection_attempt st) (inject_Z 30)) eqn:Hint; simpl.
  - split; [|discriminate]. repeat split; simpl; auto. lra.
  - assert (Hgap : (last_connection_attempt st + 30 <= now)%Q).
    { unfold Qltb in Hint. apply negb_false_iff in Hint. apply Qle_bool_true in Hint.
      change (inject_Z 30) with 30%Q in Hint. lra. }
    destruct (rate_limit_detected st); simpl.
    + split; [|discriminate]. repeat split; simpl; auto. lra.
    + split; [|discriminate]. repeat split; simpl; auto.
      * apply spaced_app; [exact Hs'|].
        eapply List.Forall_impl; [|exact Hle']. simpl. intros a Ha. lra.
      * apply List.Forall_app. split.
        -- eapply List.Forall_impl; [|exact Hle']. simpl. intros a Ha. lra.
        -- constructor; [lra|constructor].
      * lra.
Qed.

Lemma acquire_all_quota (requests : list (Q * Q)) (t : Q) (st : state) :
  governor_invariant t st -> clock_ordered t requests ->
  List.Forall (fun answer => forall n, snd answer <> RateLimitCount n)
    (snd (acquire_all requests st)).
Proof.
  revert t st. induction requests as [|[now now_rec] rest IH]; intros t st Hinv Hclock; simpl.
  - constructor.
  - destruct Hclock as (Hnow & Hrec & Hrest).
    destruct (acquire_connection_invariant t now now_rec st Hinv Hnow Hrec) as [Hinv' Hans].
    destruct (acquire_connection now now_rec st) as [st1 answer]. simpl in *.
    specialize (IH now_rec st1 Hinv' Hrest).
    destruct (acquire_all rest st1) as [st2 answers]. simpl in *.
    constructor; assumption.
Qed.

(** X6: when every connection attempt is recorded after a check that
    allowed it and the clock does not run backwards, the check never
    answers with the per-minute quota ("n/3 connections this minute"):
    the 30-second interval leaves at most two attempts in any minute. *)
Theorem connection_quota_never_binds (requests : list (Q * Q)) :
  clock_ordered 0 requests ->
  List.Forall (fun answer => forall n, snd answer <> RateLimitCount n)
    (snd (acquire_all requests init)).
Proof.
  apply acquire_all_quota. repeat split; simpl; try constructor. lra.
Qed.

Lemma connection_quota_never_binds_witness :
  List.Forall (fun answer => forall n, snd answer <> RateLimitCount n)
    (snd (acquire_all [(30, 31); (40, 41); (61, 62); (70, 71); (92, 93); (122, 123)]%Q init)).
Proof.
  apply connection_quota_never_binds. simpl. repeat split; lra.
Defined.

End GovernorProtocol.

(** ** The connection code of the rate-limit-safe script *)
Section SafeSession.
Import Py ultimate_whale_discovery_safe.

Lemma can_attempt_connection_fresh (now : Q) :
  (30 <= now)%Q -> can_attempt_connection now init = (init, (true, SafeToConnect)).
Proof.
  intros H. unfold can_attempt_connection. simpl.
  rewrite (Qltb_ge (now - 0) (inject_Z 30)); [reflexivity|].
  change (inject_Z 30) with 30%Q. lra.
Qed.

Lemma can_attempt_connection_after_one (now r : Q) (g : state) :
  limits g = default_rate_limits -> connection_attempts g = [r] ->
  last_connection_attempt g = r -> rate_limit_detected g = false ->
  (r + 30 <= now)%Q ->
  snd (can_attempt_connection now g) = (true, SafeToConnect).
Proof.
  intros Hl Ha Hlast Hd Hnow. unfold can_attempt_connection. simpl.
  rewrite Hl, Ha, Hlast, Hd. simpl.
  rewrite (Qltb_ge (now - r) (inject_Z 30)) by (change (inject_Z 30) with 30%Q; lra).
  now destruct (Qltb (now - r) 60).
Qed.

Lemma connect_failed_governor (name : string) (now : Q) (o : connect_outcome) (s : session) :
  connect_failed o = true -> governor s = init ->
  exists s1 cooldown,
    connect_to_endpoint_safely name now o s = (s1, false, cooldown) /\
    limits (governor s1) = default_rate_limits /\
    connection_attempts (governor s1) = [now] /\
    last_connection_attempt (governor s1) = now /\
    rate_limit_detected (governor s1) = false /\
    (0 <= consecutive_failures (governor s1))%Z.
Proof.
  intros Ho Hg. unfold connect_to_endpoint_safely. rewrite Hg.
  destruct o as [auth join frames| |status_code|]; try discriminate; simpl.
  - eexists _, _. split; [reflexivity|]. simpl. repeat split; lia.
  - unfold handle_rate_limit_response, rate_limit_indicators. simpl.
    rewrite !andb_false_r, !orb_false_r.
    destruct (status_code =? 429)%Z; simpl.
    + eexists _, _. split; [reflexivity|]. simpl. repeat split; lia.
    + eexists _, _. split; [reflexivity|]. simpl. repeat split; lia.
  - eexists _, _. split; [reflexivity|]. simpl. repeat split; lia.
Qed.

(** X7: from a fresh object whose clock reads at least 30, while the
    system runs, the governor denies nothing in
    [safe_single_endpoint_strategy]: eucalyptus is attempted, and when
    that connect fails, the strategy waits at least 30 seconds and then
    attempts cluster7 as well, provided the clock has advanced by the 30
    seconds of that wait. *)
Theorem governor_never_denies_the_strategy (first second : strategy_round) :
  sr_running first = true -> sr_running second = true ->
  (30 <= sr_now_check first)%Q ->
  connect_failed (sr_outcome first) = true ->
  (sr_now_record first + 30 <= sr_now_check second)%Q ->
  let trace := snd (safe_single_endpoint_strategy first second new_session) in
  attempted trace = ["eucalyptus"; "cluster7"]%string /\
  denials trace = [] /\
  exists w rest, (30 <= w <= 60)%Z /\ backoffs trace = w :: rest.
Proof.
  intros Hr1 Hr2 Hc1 Ho Hc2.
  unfold safe_single_endpoint_strategy. cbn [strategy_loop]. rewrite Hr1, Hr2.
  cbn [governor new_session]. rewrite (can_attempt_connection_fresh _ Hc1).
  destruct (connect_failed_governor "eucalyptus" (sr_now_record first) (sr_outcome first)
              (with_governor new_session init) Ho eq_refl)
    as (s1 & cooldown & E & Hl & Ha & Hlast & Hd & Hcf).
  rewrite E.
  pose proof (can_attempt_connection_after_one (sr_now_check second) _ (governor s1)
                Hl Ha Hlast Hd Hc2) as Hcan.
  destruct (can_attempt_connection (sr_now_check second) (governor s1)) as [g [can why]].
  simpl in Hcan. injection Hcan as -> ->.
  destruct (connect_to_endpoint_safely "cluster7" (sr_now_record second) (sr_outcome second)
              (with_governor s1 g)) as [[s2 success] cooldown2].
  assert (Hw : (30 <= Z.min 60 (30 * (consecutive_failures (governor s1) + 1)) <= 60)%Z) by lia.
  destruct success, (0 <? cooldown)%Z; simpl;
    repeat split; try reflexivity;
    try (destruct (0 <? cooldown2)%Z; simpl; repeat split; try reflexivity);
    eexists _, _; (split; [exact Hw|reflexivity]).
Qed.

Lemma parse_message_safely_changes_nothing (data : option json) (s : session) :
  parse_message_safely data s = s.
Proof.
  unfold parse_message_safely.
  destruct data as [[| | | | |l|d]|]; simpl; try reflexivity.
  - now destruct (25 <? length l)%nat.
  - now destruct (eq_str (dict_get d "room" JNull) "new_pairs" && dict_has d "content")%bool.
Qed.

Lemma listen_governor (frames : list (option json)) (s : session) :
  let s' := fold_left (fun s' data => on_message data s') frames s in
  limits (governor s') = limits (governor s) /\
  messages_received s' = (messages_received s + Z.of_nat (length frames))%Z /\
  (frames <> [] ->
   consecutive_failures (governor s') = 0%Z /\ rate_limit_detected (governor s') = false).
Proof.
  revert s. induction frames as [|data frames IH] using rev_ind; intros s; simpl.
  - split; [reflexivity|]. split; [lia|]. congruence.
  - rewrite fold_left_app. simpl. unfold on_message at 1 3 5 7.
    rewrite !parse_message_safely_changes_nothing. simpl.
    destruct (IH s) as (Hl & Hm & _).
    rewrite length_app. simpl. repeat split; auto. lia.
Qed.

(** X8: every message received by [listen_for_data_safely] is counted
    and clears the consecutive-failure count and the rate-limit flag, so
    that after a connection that delivered at least one message the
    cooldowns restart from 2 seconds: the next [n] rate-limit responses
    are answered as they are from a fresh object. *)
Theorem a_message_restarts_the_backoff (frames : list (option json)) (s : session) (n : nat) :
  frames <> [] ->
  limits (governor s) = default_rate_limits ->
  let s' := listen_for_data_safely frames s in
  fst (violations n (governor s')) = fst (violations n init) /\
  rate_limit_detected (governor s') = false /\
  messages_received s' = (messages_received s + Z.of_nat (length frames))%Z.
Proof.
  intros Hne Hl. unfold listen_for_data_safely. simpl.
  destruct (listen_governor frames s) as (Hl' & Hm & Hreset).
  destruct (Hreset Hne) as [Hcf Hd].
  repeat split; try assumption.
  rewrite !violations_backoff by (reflexivity || congruence).
  now rewrite Hcf.
Qed.

Lemma a_message_restarts_the_backoff_witness :
  fst (violations 3
         (governor (listen_for_data_safely [None]
                      (with_governor new_session (snd (violations 4 init))))))
  = [2; 4; 8]%Z.
Proof.
  rewrite (proj1 (a_message_restarts_the_backoff [None]
                    (with_governor new_session (snd (violations 4 init))) 3
                    ltac:(discriminate) eq_refl)).
  reflexivity.
Defined.

Lemma subscription_round_quota (now : Q) (sent : bool) (s : session) :
  limits (governor s) = default_rate_limits ->
  (length (subscription_attempts s) <= 5)%nat ->
  limits (governor (fst (subscription_round now sent s))) = default_rate_limits /\
  (length (subscription_attempts (fst (subscription_round now sent s))) <= 5)%nat.
Proof.
  intros Hl Hn. unfold subscription_round. rewrite Hl. simpl.
  pose proof (List.filter_length_le (fun t => Qltb (now - t) 60) (subscription_attempts s)) as Hf.
  destruct (Z.leb_spec 5 (Z.of_nat (length (List.filter (fun t => Qltb (now - t) 60)
                                              (subscription_attempts s))))) as [Hq|Hq];
    simpl; [split; [exact Hl|lia]|].
  destruct sent; simpl; (split; [exact Hl|]); [|lia].
  rewrite length_app. simpl. lia.
Qed.

(** X9: the subscription quota holds: from a state with at most five
    recorded subscription sends, no sequence of subscription rounds,
    whatever the clock reads and whether or not the sends succeed, leaves
    more than five recorded. *)
Theorem subscription_quota_holds (rounds : list (Q * bool)) (s : session) :
  limits (governor s) = default_rate_limits ->
  (length (subscription_attempts s) <= 5)%nat ->
  (length (subscription_attempts (subscription_rounds rounds s)) <= 5)%nat.
Proof.
  revert s. induction rounds as [|[now sent] rest IH]; intros s Hl Hn; simpl; [exact Hn|].
  destruct (subscription_round_quota now sent s Hl Hn) as [Hl' Hn'].
  destruct (subscription_round now sent s) as [s' continue]. simpl in *.
  destruct continue; [now apply IH|exact Hn'].
Qed.

Lemma subscription_quota_holds_witness :
  (length (subscription_attempts
             (subscription_rounds
                [(1, true); (3, true); (5, true); (7, true); (9, true); (11, true); (13, true)]%Q
                new_session)) <= 5)%nat.
Proof. apply subscription_quota_holds; [reflexivity | simpl; lia]. Defined.

End SafeSession.

(** ** Strict comparisons of binary64 values *)
Section FloatStrictOrder.
Local Open Scope float_scope.

Lemma ltb_trans (x y z : float) : (x <? y) = true -> (y <? z) = true -> (x <? z) = true.
Proof.
  intros Hxy Hyz. destruct (x <? z) eqn:Hxz; [reflexivity|]. exfalso.
  destruct (ltb_not_nan _ _ Hxy) as [Hx _]. destruct (ltb_not_nan _ _ Hyz) as [_ Hz].
  pose proof (not_ltb_leb x z Hx Hz Hxz) as Hzx.
  pose proof (leb_trans z x y Hzx (ltb_leb _ _ Hxy)) as Hzy.
  rewrite (ltb_not_leb _ _ Hyz) in Hzy. discriminate.
Qed.

Lemma ltb_leb_trans (x y z : float) : (x <? y) = true -> (y <=? z) = true -> (x <? z) = true.
Proof.
  intros Hxy Hyz. destruct (x <? z) eqn:Hxz; [reflexivity|]. exfalso.
  destruct (ltb_not_nan _ _ Hxy) as [Hx _]. destruct (leb_not_nan _ _ Hyz) as [_ Hz].
  pose proof (not_ltb_leb x z Hx Hz Hxz) as Hzx.
  pose proof (leb_trans y z x Hyz Hzx) as Hyx.
  rewrite (ltb_not_leb _ _ Hxy) in Hyx. discriminate.
Qed.

Lemma leb_ltb_trans (x y z : float) : (x <=? y) = true -> (y <? z) = true -> (x <? z) = true.
Proof.
  intros Hxy Hyz. destruct (x <? z) eqn:Hxz; [reflexivity|]. exfalso.
  destruct (leb_not_nan _ _ Hxy) as [Hx _]. destruct (ltb_not_nan _ _ Hyz) as [_ Hz].
  pose proof (not_ltb_leb x z Hx Hz Hxz) as Hzx.
  pose proof (leb_trans z x y Hzx Hxy) as Hzy.
  rewrite (ltb_not_leb _ _ Hyz) in Hzy. discriminate.
Qed.

Lemma is_nan_true (x : float) : is_nan x = true -> Prim2SF x = S754_nan.
Proof.
  unfold is_nan. rewrite FloatAxioms.eqb_spec. unfold SFeqb.
  destruct (Prim2SF x) as [s|s| |s m e]; simpl; try reflexivity;
    try (destruct s; discriminate).
  rewrite Z.compare_refl.
  change (PosDef.Pos.compare_cont Eq m m) with (Pos.compare m m).
  rewrite Pos.compare_refl. destruct s; discriminate.
Qed.

(** Every NaN is the one value [nan]. *)
Lemma is_nan_eq (x : float) : is_nan x = true -> x = nan.
Proof.
  intros H. rewrite <- (FloatAxioms.SF2Prim_Prim2SF x), (is_nan_true x H). reflexivity.
Qed.

Lemma nan_is_nan (x : float) : Prim2SF x = S754_nan -> is_nan x = true.
Proof. intros H. unfold is_nan. rewrite FloatAxioms.eqb_spec, H. reflexivity. Qed.

Lemma nan_ltb (x y : float) : is_nan x = true -> (x <? y) = false /\ (y <? x) = false.
Proof.
  intros H. split.
  - destruct (x <? y) eqn:E; [|reflexivity]. apply ltb_not_nan in E. destruct E. congruence.
  - destruct (y <? x) eqn:E; [|reflexivity]. apply ltb_not_nan in E. destruct E. congruence.
Qed.

Lemma nan_leb (x y : float) : is_nan x = true -> (x <=? y) = false /\ (y <=? x) = false.
Proof.
  intros H. split.
  - destruct (x <=? y) eqn:E; [|reflexivity]. apply leb_not_nan in E. destruct E. congruence.
  - destruct (y <=? x) eqn:E; [|reflexivity]. apply leb_not_nan in E. destruct E. congruence.
Qed.

End FloatStrictOrder.

(** ** What the array parser records and promotes *)
Section ArrayDecision.
Import Py ultimate_whale_discovery.
Context {B : Builtins}.
Local Open Scope float_scope.

(** The token dict of the array parser: the keys the scorer reads. *)
Lemma token_data_of_array_fields (now : float) (source : string) (token_array : list json) :
  let td := token_data_of_array now source token_array in
  td_snipers_hold_percent td = None /\ td_dev_holds_percent td = None /\
  td_lp_burned td = None /\
  td_platform td = JStr (safe_extract token_array 7 "Unknown") /\
  td_website td = JStr (safe_extract token_array 9 "") /\
  td_twitter td = JStr (safe_extract token_array 10 "") /\
  td_telegram td = JStr (safe_extract token_array 11 "") /\
  td_creator_address td = JStr (safe_extract token_array 2 "") /\
  (td_liquidity_sol td = 0 \/ (100 <? td_liquidity_sol td) = true).
Proof.
  cbv zeta. unfold token_data_of_array.
  rewrite assign_financial_metrics_spec, financial_values_spec, assign_positive.
  unfold MagnitudeHeuristic.assign.
  cbn [td_snipers_hold_percent td_dev_holds_percent td_lp_burned td_platform td_website
       td_twitter td_telegram td_creator_address td_liquidity_sol].
  repeat (split; [reflexivity|]).
  destruct (List.filter MagnitudeHeuristic.liquidity_candidate (candidate_values token_array))
    as [|v rest] eqn:E; cbn [nth]; [now left|right].
  apply filter_head in E. unfold MagnitudeHeuristic.liquidity_candidate in E.
  now apply andb_true_iff in E as [E _].
Qed.

(** The scorer on a token dict of the array parser. *)
Lemma array_confidence_table (td : token_data) (p w t g : string) :
  td_snipers_hold_percent td = None -> td_dev_holds_percent td = None ->
  td_lp_burned td = None ->
  td_platform td = JStr p -> td_website td = JStr w -> td_twitter td = JStr t ->
  td_telegram td = JStr g ->
  td_liquidity_sol td = 0 \/ (100 <? td_liquidity_sol td) = true ->
  exists c, calculate_whale_confidence td = Ok c /\
            (0.4 <? c) = array_recorded td /\ (0.7 <? c) = array_promoted td /\
            (c <=? 1) = true.
Proof.
  intros Hs Hd Hlp Hp Hw Ht Hg Hliq.
  unfold calculate_whale_confidence, array_recorded, array_promoted, trusted_platform,
    pump_platform, social_links.
  rewrite Hs, Hd, Hlp, Hp, Hw, Ht, Hg. cbn [default str_in truthy bind].
  generalize dependent (td_liquidity_sol td). intros liq Hliq.
  destruct Hliq as [Hliq|Hliq].
  - rewrite Hliq.
    destruct (str_contains "Raydium" p), (str_contains "Meteora" p),
      (str_contains "Pump AMM" p), (String.eqb w ""), (String.eqb t ""), (String.eqb g "");
      eexists; (split; [reflexivity|]); vm_compute; auto.
  - rewrite Hliq, (ltb_leb _ _ Hliq).
    destruct (1000 <=? liq);
      destruct (str_contains "Raydium" p), (str_contains "Meteora" p),
        (str_contains "Pump AMM" p), (String.eqb w ""), (String.eqb t ""), (String.eqb g "");
      eexists; (split; [reflexivity|]); vm_compute; auto.
Qed.

Lemma array_confidence (now : float) (source : string) (token_array : list json) :
  let td := token_data_of_array now source token_array in
  exists c, calculate_whale_confidence td = Ok c /\
            (0.4 <? c) = array_recorded td /\ (0.7 <? c) = array_promoted td /\
            (c <=? 1) = true.
Proof.
  intros td.
  destruct (token_data_of_array_fields now source token_array)
    as (Hs & Hd & Hlp & Hp & Hw & Ht & Hg & _ & Hliq).
  fold td in Hs, Hd, Hlp, Hp, Hw, Ht, Hg, Hliq. clearbody td.
  eapply array_confidence_table; eassumption.
Qed.

(** X10: whether [process_token_array] records a token is decided by
    the liquidity the magnitude heuristic assigned and by the platform
    text and the social links alone, whatever the volume and the market
    cap: nothing is recorded for an array shorter than 10 or without a
    liquidity above 100; with a liquidity below 1000 it takes a platform
    that names Raydium, Meteora or Pump AMM, or one social link; with a
    liquidity of 1000 or more the token is always recorded.  The record
    goes under the creator address at position 2. *)
Theorem array_recording_decision (now : float) (token_array : list json) (source : string)
    (st : state) :
  let td := token_data_of_array now source token_array in
  if ((length token_array <? 10)%nat || negb (array_recorded td))%bool then
    process_token_array now token_array source st = Some st
  else
    exists c, (0.4 <? c) = true /\ (c <=? 1) = true /\
      process_token_array now token_array source st
      = Some (record_whale now (safe_extract token_array 2 "") td c (JList token_array) st).
Proof.
  intros td. unfold process_token_array. fold td.
  destruct (array_confidence now source token_array) as (c & Hc & Hrec & _ & Hle).
  destruct (token_data_of_array_fields now source token_array)
    as (_ & _ & _ & _ & _ & _ & _ & Hcr & _).
  fold td in Hc, Hrec, Hcr. clearbody td.
  destruct (length token_array <? 10)%nat; [reflexivity|]. cbn [orb].
  rewrite Hc. cbn [bind]. rewrite Hrec.
  destruct (array_recorded td) eqn:E; cbn [negb]; [|reflexivity].
  exists c. repeat split; try assumption.
  unfold record_whale_discovery. rewrite Hcr. reflexivity.
Qed.

(** X11: [process_token_array] adds a wallet to the tracked wallets
    exactly when the creator address at position 2 is not in the store
    yet, the liquidity assigned is at least 1000 and the platform names
    Raydium or Meteora with at least two social links, or Pump AMM with
    all three.  At the boundary the sums 0.4+0.1+0.1+0.05+0.05 and
    0.4+0.1+0.05+0.05+0.05+0.05 are 0.7 in decimal arithmetic; on
    binary64 they lie above 0.7 and pass the strict test. *)
Theorem array_promotion_decision (now : float) (token_array : list json) (source : string)
    (st : state) :
  let td := token_data_of_array now source token_array in
  let wallet := safe_extract token_array 2 "" in
  exists st', process_token_array now token_array source st = Some st' /\
    tracked_wallets st' =
      if (negb (length token_array <? 10)%nat && array_promoted td
          && negb (bool_decide (is_Some (discovered_whales st !! wallet))))%bool
      then tracked_wallets st ++ [wallet] else tracked_wallets st.
Proof.
  intros td wallet. unfold process_token_array. fold td.
  destruct (array_confidence now source token_array) as (c & Hc & Hrec & Hpro & Hle).
  destruct (token_data_of_array_fields now source token_array)
    as (_ & _ & _ & _ & _ & _ & _ & Hcr & _).
  fold td in Hc, Hrec, Hpro, Hcr. fold wallet in Hcr. clearbody td wallet.
  destruct (length token_array <? 10)%nat; cbn [negb andb]; [now exists st|].
  rewrite Hc. cbn [bind].
  destruct (0.4 <? c) eqn:E.
  - unfold record_whale_discovery. rewrite Hcr. cbn [try_except].
    eexists. split; [reflexivity|].
    rewrite record_whale_promotion, <- Hpro.
    destruct (discovered_whales st !! wallet) as [rec|] eqn:El.
    + rewrite bool_decide_eq_true_2 by eauto. now rewrite andb_false_r.
    + rewrite bool_decide_eq_false_2 by (intros [? ?]; discriminate).
      now rewrite andb_true_r.
  - cbn [try_except]. exists st. split; [reflexivity|]. rewrite <- Hpro.
    destruct (0.7 <? c) eqn:E7; [|reflexivity].
    pose proof (ltb_trans 0.4 0.7 c eq_refl E7). congruence.
Qed.

End ArrayDecision.

(** ** The tokens of one room message *)
Section SdkMessages.
Import Py ultimate_whale_discovery.
Context {B : Builtins}.
Local Open Scope float_scope.

Lemma calculate_whale_confidence_raises (td : token_data) :
  match td_platform td with
  | JNull | JBool _ | JInt _ | JFloat _ => True
  | _ => False
  end ->
  calculate_whale_confidence td = Raise TypeError.
Proof.
  unfold calculate_whale_confidence. destruct (td_platform td); simpl; tauto.
Qed.

Lemma unreadable_protocol_raises (now : float) (source : string) (token : list (string * json))
    (st : state) :
  unreadable_protocol token = true ->
  exists e, process_sdk_token now source token st = Raise e.
Proof.
  intros H. unfold process_sdk_token, token_data_of_sdk.
  destruct (safe_get_float token "initial_liquidity_sol" 0.0) as [liquidity|e];
    [|now exists e].
  destruct (safe_get_float token "supply" 0.0) as [supply|e]; [|now exists e].
  destruct (safe_get_float token "dev_holds_percent" 0.0) as [dev|e]; [|now exists e].
  destruct (safe_get_float token "snipers_hold_percent" 0.0) as [snipers|e]; [|now exists e].
  cbn [bind]. rewrite calculate_whale_confidence_raises; [now exists TypeError|].
  cbn [td_platform]. unfold unreadable_protocol in H.
  destruct (dict_get token "protocol" (JStr "Unknown")); auto; discriminate.
Qed.

Lemma sdk_tokens_loop_aborts (now : float) (source : string) (pre rest : list json)
    (token : list (string * json)) (st : state) :
  unreadable_protocol token = true ->
  sdk_tokens_loop now source (pre ++ JDict token :: rest) st
  = sdk_tokens_loop now source pre st.
Proof.
  intros H. revert st. induction pre as [|x pre IH]; intros st.
  - simpl. destruct (unreadable_protocol_raises now source token st H) as [e ->].
    reflexivity.
  - destruct x; simpl; try apply IH.
    destruct (process_sdk_token now source d st) as [[st'|]|e]; try reflexivity.
    apply IH.
Qed.

(** X12: the tokens of a [new_pairs] message are handled under one
    handler: a token whose ['protocol'] is [None], a bool or a number
    ends the message, and the tokens after it are not looked at, whatever
    they hold; an element that is not an object is skipped and the tokens
    after it are handled. *)
Theorem unreadable_token_drops_the_rest (now : float) (source : string)
    (pre rest : list json) (token : list (string * json)) (st : state) :
  unreadable_protocol token = true ->
  process_sdk_new_pairs now (JList (pre ++ JDict token :: rest)) source st
  = process_sdk_new_pairs now (JList pre) source st
  /\ forall x, (forall d, x <> JDict d) ->
       process_sdk_new_pairs now (JList (x :: rest)) source st
       = process_sdk_new_pairs now (JList rest) source st.
Proof.
  intros H. split.
  - now apply sdk_tokens_loop_aborts.
  - intros x Hx. unfold process_sdk_new_pairs. destruct x; try reflexivity.
    now specialize (Hx d).
Qed.

End SdkMessages.

(** ** The discovery store over runs of the listener *)
Section StoreRuns.
Import Py ultimate_whale_discovery.
Context {B : Builtins}.
Local Open Scope float_scope.

Lemma calculate_whale_confidence_le_1 (td : token_data) (c : float) :
  calculate_whale_confidence td = Ok c -> (c <=? 1) = true.
Proof.
  unfold calculate_whale_confidence.
  destruct (str_in "Raydium" (td_platform td)) as [raydium|e]; cbn [bind]; [|discriminate].
  destruct (if raydium then Ok true else str_in "Meteora" (td_platform td)) as [trusted|e];
    cbn [bind]; [|discriminate].
  destruct trusted; cbn [bind].
  - intros [= <-]. apply clamp_in_unit_interval.
  - destruct (str_in "Pump AMM" (td_platform td)) as [pump|e]; cbn [bind]; [|discriminate].
    intros [= <-]. apply clamp_in_unit_interval.
Qed.

Lemma records_only_trans (st1 st2 st3 : state) :
  records_only st1 st2 -> records_only st2 st3 -> records_only st1 st3.
Proof.
  induction 1 as [st|st st' now w td c raw H4 H1 Hrest IH]; [auto|].
  intros H. eapply records_more; eauto.
Qed.

Lemma record_whale_discovery_records (now : float) (td : token_data) (c : float) (raw : json)
    (st st' : state) :
  (0.4 <? c) = true -> (c <=? 1) = true ->
  record_whale_discovery now td c raw st = Ok (Some st') -> records_only st st'.
Proof.
  intros H4 H1. unfold record_whale_discovery.
  destruct (td_creator_address td); try discriminate.
  intros [= <-]. eapply records_more; eauto using records_none.
Qed.

Lemma process_token_array_records (now : float) (token_array : list json) (source : string)
    (st st' : state) :
  process_token_array now token_array source st = Some st' -> records_only st st'.
Proof.
  unfold process_token_array.
  destruct (length token_array <? 10)%nat; [intros [= <-]; constructor|].
  destruct (calculate_whale_confidence _) as [c|e] eqn:Hc; simpl;
    [|intros [= <-]; constructor].
  destruct (0.4 <? c) eqn:H4; [|intros [= <-]; constructor].
  destruct (record_whale_discovery _ _ _ _ _) as [[st1|]|e] eqn:Hr; simpl; intros [= <-].
  - eapply record_whale_discovery_records; eauto using calculate_whale_confidence_le_1.
  - constructor.
Qed.

Lemma sdk_tokens_loop_records (now : float) (source : string) (tokens : list json)
    (st st' : state) :
  sdk_tokens_loop now source tokens st = Some st' -> records_only st st'.
Proof.
  revert st. induction tokens as [|x tokens IH]; intros st; simpl.
  - intros [= <-]. constructor.
  - destruct x; try apply IH.
    destruct (process_sdk_token now source d st) as [[st1|]|e] eqn:Hp;
      try discriminate; [|intros [= <-]; constructor].
    intros H. apply IH in H. refine (records_only_trans _ _ _ _ H).
    unfold process_sdk_token in Hp.
    destruct (token_data_of_sdk now source d) as [td|e]; simpl in Hp; [|discriminate].
    destruct (calculate_whale_confidence td) as [c|e] eqn:Hc; simpl in Hp; [|discriminate].
    destruct (0.4 <? c) eqn:H4.
    + eapply record_whale_discovery_records; eauto using calculate_whale_confidence_le_1.
    + injection Hp as <-. constructor.
Qed.

Lemma parse_real_message_records (now : float) (data : option json) (endpoint : string)
    (st st' : state) :
  parse_real_message now data endpoint st = Some st' -> records_only st st'.
Proof.
  unfold parse_real_message, process_sdk_new_pairs, handle_structured_message.
  destruct data as [[| | | | |l|d]|]; try (intros [= <-]; constructor).
  - destruct (25 <? length l)%nat; [apply process_token_array_records|].
    intros [= <-]. constructor.
  - destruct (eq_str _ _ && dict_has d "content")%bool; [apply sdk_tokens_loop_records|].
    destruct (dict_get d "room" (JStr "")); try (intros [= <-]; constructor).
    destruct (String.prefix "v:" s && dict_has d "content")%bool;
      [intros [= <-]; constructor|].
    destruct (dict_has d "type"); [|intros [= <-]; constructor].
    destruct (assoc "data" d) as [[| | | | |l|d']|]; try (intros [= <-]; constructor).
    apply process_token_array_records.
Qed.

Lemma set_confidence_score_again (rec : WhaleDiscovery) (c c' : float) :
  set_confidence_score (set_confidence_score rec c) c' = set_confidence_score rec c'.
Proof. reflexivity. Qed.

(** A record of the store after one call: the same, or the same with a
    strictly greater score. *)
Lemma record_whale_keeps (now : float) (w0 : string) (td : token_data) (c : float)
    (raw : json) (st : state) (w : string) (rec : WhaleDiscovery) :
  discovered_whales st !! w = Some rec ->
  exists rec', discovered_whales (record_whale now w0 td c raw st) !! w = Some rec' /\
    same_or_raised rec rec'.
Proof.
  unfold same_or_raised. intros H. destruct (decide (w = w0)) as [->|Hne].
  - rewrite (record_whale_seen now w0 td c raw st rec H).
    destruct (confidence_score rec <? c) eqn:E; simpl.
    + exists (set_confidence_score rec c). rewrite lookup_insert_eq. auto.
    + exists rec. auto.
  - exists rec. rewrite record_whale_other by assumption. auto.
Qed.

Lemma records_only_keeps (st st' : state) (w : string) (rec : WhaleDiscovery) :
  records_only st st' ->
  discovered_whales st !! w = Some rec ->
  exists rec', discovered_whales st' !! w = Some rec' /\ same_or_raised rec rec'.
Proof.
  unfold same_or_raised. intros H. revert rec. induction H as [st|st st' now w0 td c raw H4 H1 Hrest IH]; intros rec Hl.
  - exists rec. auto.
  - destruct (record_whale_keeps now w0 td c raw st w rec Hl) as (rec1 & Hl1 & Hrec1).
    destruct (IH rec1 Hl1) as (rec' & Hl' & Hrec').
    exists rec'. split; [exact Hl'|].
    destruct Hrec1 as [->|[E1 Hlt1]]; [exact Hrec'|].
    destruct Hrec' as [->|[E' Hlt']]; [right; now split|].
    right. split.
    + rewrite E', E1. reflexivity.
    + eapply ltb_trans; eassumption.
Qed.

Lemma records_only_metrics (st st' : state) :
  records_only st st' ->
  messages_received (metrics_of st') = messages_received (metrics_of st) /\
  start_time (metrics_of st') = start_time (metrics_of st).
Proof.
  induction 1 as [st|st st' now w td c raw H4 H1 Hrest IH]; [auto|].
  destruct IH as [-> ->]. unfold record_whale.
  destruct (discovered_whales st !! w) as [existing|].
  - now destruct (confidence_score existing <? c).
  - now destruct (0.7 <? c).
Qed.

Lemma record_whale_invariant (now : float) (w : string) (td : token_data) (c : float)
    (raw : json) (st : state) :
  (0.4 <? c) = true -> (c <=? 1) = true ->
  store_invariant st -> store_invariant (record_whale now w td c raw st).
Proof.
  intros H4 H1 Hinv. pose proof Hinv as (I1 & I2 & I3 & I4 & I5). unfold record_whale.
  destruct (discovered_whales st !! w) as [existing|] eqn:E.
  - destruct (confidence_score existing <? c) eqn:Eu; [|exact Hinv].
    unfold store_invariant. cbn [discovered_whales metrics_of tracked_wallets].
    split; [|split; [|split; [|split]]].
    + rewrite map_size_insert_Some by eauto. exact I1.
    + exact I2.
    + exact I3.
    + intros w0 rec Hl. destruct (decide (w = w0)) as [->|Hne].
      * rewrite lookup_insert_eq in Hl. injection Hl as <-. cbn.
        destruct (I4 w0 existing E) as (Ha & _ & _). auto.
      * rewrite lookup_insert_ne in Hl by assumption. now apply I4.
    + intros w0 Hin. destruct (decide (w = w0)) as [->|Hne].
      * rewrite lookup_insert_eq. eexists. split; [reflexivity|]. cbn.
        destruct (I5 w0 Hin) as (rec & Hl & H7). rewrite E in Hl. injection Hl as <-.
        eapply ltb_trans; eassumption.
      * rewrite lookup_insert_ne by assumption. now apply I5.
  - assert (Hfresh : ~ In w (tracked_wallets st)).
    { intros Hin. destruct (I5 w Hin) as (rec & Hl & _). congruence. }
    match goal with
    | |- context [auto_add_whale ?x _] => set (whale := x)
    end.
    assert (Hrecords : forall w0 rec, <[w := whale]> (discovered_whales st) !! w0 = Some rec ->
                whale_address rec = w0 /\ (0.4 <? confidence_score rec) = true /\
                (confidence_score rec <=? 1) = true).
    { intros w0 rec Hl. destruct (decide (w = w0)) as [->|Hne].
      - rewrite lookup_insert_eq in Hl. injection Hl as <-. cbn. auto.
      - rewrite lookup_insert_ne in Hl by assumption. now apply I4. }
    destruct (0.7 <? c) eqn:E7; unfold store_invariant, auto_add_whale;
      cbn [discovered_whales metrics_of tracked_wallets whales_discovered auto_added
           whale_address];
      (split; [|split; [|split; [|split]]]); try exact Hrecords;
      try (rewrite map_size_insert_None by assumption; lia); try assumption.
    + rewrite length_app. cbn. lia.
    + apply NoDup_app. split; [assumption|]. split.
      * intros x Hx Hx'. apply list_elem_of_In in Hx, Hx'.
        destruct Hx' as [<-|[]]. contradiction.
      * apply NoDup_singleton.
    + intros w0 Hin. apply in_app_or in Hin.
      destruct (decide (w = w0)) as [->|Hne].
      * rewrite lookup_insert_eq. eexists. split; [reflexivity|]. exact E7.
      * rewrite lookup_insert_ne by assumption.
        destruct Hin as [Hin|[Heq|[]]]; [now apply I5|contradiction].
    + intros w0 Hin. destruct (decide (w = w0)) as [->|Hne]; [contradiction|].
      rewrite lookup_insert_ne by assumption. now apply I5.
Qed.

Lemma records_only_invariant (st st' : state) :
  records_only st st' -> store_invariant st -> store_invariant st'.
Proof.
  induction 1 as [st|st st' now w td c raw H4 H1 Hrest IH]; [auto|].
  intros Hinv. apply IH. now apply record_whale_invariant.
Qed.

Lemma same_or_raised_trans (rec1 rec2 rec3 : WhaleDiscovery) :
  same_or_raised rec1 rec2 -> same_or_raised rec2 rec3 -> same_or_raised rec1 rec3.
Proof.
  unfold same_or_raised. intros [->|[E1 H1]]; [auto|]. intros [->|[E2 H2]]; [auto|].
  right. split.
  - rewrite E2, E1. reflexivity.
  - eapply ltb_trans; eassumption.
Qed.

Lemma listen_step_records (now : float) (data : option json) (endpoint : string)
    (st st' : state) :
  listen_step now data endpoint st = Some st' ->
  (forall w rec, discovered_whales st !! w = Some rec ->
     exists rec', discovered_whales st' !! w = Some rec' /\ same_or_raised rec rec') /\
  (store_invariant st -> store_invariant st') /\
  messages_received (metrics_of st') = (messages_received (metrics_of st) + 1)%Z.
Proof.
  unfold listen_step. intros H. apply parse_real_message_records in H.
  split; [|split].
  - intros w rec Hl. now apply (records_only_keeps _ _ w rec H).
  - intros Hinv. now apply (records_only_invariant _ _ H).
  - now destruct (records_only_metrics _ _ H) as [-> _].
Qed.

Lemma listen_all_records (frames : list frame) (endpoint : string) (st st' : state) :
  listen_all frames endpoint st = Some st' ->
  (forall w rec, discovered_whales st !! w = Some rec ->
     exists rec', discovered_whales st' !! w = Some rec' /\ same_or_raised rec rec') /\
  (store_invariant st -> store_invariant st') /\
  messages_received (metrics_of st')
  = (messages_received (metrics_of st) + Z.of_nat (length frames))%Z.
Proof.
  revert st. induction frames as [|f frames IH]; intros st; simpl.
  - intros [= <-]. split; [|split; [auto|lia]].
    intros w rec Hl. exists rec. split; [exact Hl|now left].
  - destruct (listen_step (fr_now f) (fr_data f) endpoint st) as [st1|] eqn:E; [|discriminate].
    intros H. destruct (listen_step_records _ _ _ _ _ E) as (K1 & I1 & M1).
    destruct (IH st1 H) as (K2 & I2 & M2). split; [|split; [auto|lia]].
    intros w rec Hl. destruct (K1 w rec Hl) as (rec1 & Hl1 & S1).
    destruct (K2 w rec1 Hl1) as (rec2 & Hl2 & S2).
    exists rec2. split; [exact Hl2|]. eapply same_or_raised_trans; eassumption.
Qed.

Lemma store_invariant_init (now : float) : store_invariant (init now).
Proof.
  unfold store_invariant, init. cbn [discovered_whales metrics_of tracked_wallets
                                     whales_discovered auto_added].
  split; [now rewrite map_size_empty|]. split; [reflexivity|]. split; [constructor|]. split.
  - intros w rec Hl. rewrite lookup_empty in Hl. discriminate.
  - intros w [].
Qed.

(** X13: the listener never loses a discovery: whatever frames arrive, a
    wallet that has a record keeps one, and the record is the same or the
    same with a strictly greater score; the token it names, its amounts
    and its raw data stay those of the frame that created it. *)
Theorem discoveries_are_never_lost (frames : list frame) (endpoint : string)
    (st st' : state) (w : string) (rec : WhaleDiscovery) :
  listen_all frames endpoint st = Some st' ->
  discovered_whales st !! w = Some rec ->
  exists rec', discovered_whales st' !! w = Some rec' /\ same_or_raised rec rec'.
Proof.
  intros H. destruct (listen_all_records _ _ _ _ H) as (K & _ & _). apply K.
Qed.

(** X14: over any run of the listener from a fresh object the counters
    tell the truth: [messages_received] is the number of frames,
    [whales_discovered] the number of records, [auto_added] the number of
    wallets the run added to the tracked wallets, and no wallet is added
    twice. *)
Theorem counters_match_the_store (frames : list frame) (endpoint : string) (now : float)
    (st : state) :
  listen_all frames endpoint (init now) = Some st ->
  messages_received (metrics_of st) = Z.of_nat (length frames) /\
  whales_discovered (metrics_of st) = Z.of_nat (size (discovered_whales st)) /\
  auto_added (metrics_of st) = Z.of_nat (length (tracked_wallets st)) /\
  NoDup (tracked_wallets st).
Proof.
  intros H. destruct (listen_all_records _ _ _ _ H) as (_ & I & M).
  destruct (I (store_invariant_init now)) as (I1 & I2 & I3 & _).
  now repeat split.
Qed.

(** X15: over any run of the listener from a fresh object every record
    sits under its own address with a score above the recording threshold
    0.4 and at most 1, and every tracked wallet has a record whose score is
    above the promotion threshold 0.7. *)
Theorem stored_scores_pass_their_thresholds (frames : list frame) (endpoint : string)
    (now : float) (st : state) :
  listen_all frames endpoint (init now) = Some st ->
  (forall w rec, discovered_whales st !! w = Some rec ->
     whale_address rec = w /\
     (0.4 <? confidence_score rec) = true /\ (confidence_score rec <=? 1) = true) /\
  (forall w, In w (tracked_wallets st) ->
     exists rec, discovered_whales st !! w = Some rec /\ (0.7 <? confidence_score rec) = true).
Proof.
  intros H. destruct (listen_all_records _ _ _ _ H) as (_ & I & _).
  destruct (I (store_invariant_init now)) as (_ & _ & _ & I4 & I5).
  now split.
Qed.

End StoreRuns.

(** ** The store of the final production script *)
Section FinalStore.
Import Py final_production_whale_discovery.
Context {B : Builtins}.
Local Open Scope float_scope.

Lemma discover_final_whale_keeps (now_iso : string) (td : token_data) (source : string)
    (raw_array : list json) (st : state) (w : string) (rec : FinalWhaleDiscovery) :
  discovered_whales st !! w = Some rec ->
  discovered_whales (discover_final_whale now_iso td source raw_array st) !! w = Some rec.
Proof.
  intros H. unfold discover_final_whale.
  destruct (discovered_whales st !! td_creator_address td) as [existing|] eqn:E; [exact H|].
  assert (Hne : td_creator_address td <> w) by congruence.
  destruct (0.45 <=? _); cbn; now rewrite lookup_insert_ne.
Qed.

Lemma parse_final_token_array_cases (now_iso : string) (token_array : list json)
    (source : string) (st : state) :
  parse_final_token_array now_iso token_array source st = st \/
  exists td, (0.25 <=? calculate_final_score td) = true /\
    parse_final_token_array now_iso token_array source st
    = discover_final_whale now_iso td source token_array st.
Proof.
  unfold parse_final_token_array.
  destruct (token_data_of_array token_array) as [td|e]; simpl; [|now left].
  destruct ((1000 <? td_volume_sol td) || (0.5 <? calculate_final_score td))%bool;
    [|now left].
  destruct (0.25 <=? calculate_final_score td) eqn:E; [|now left].
  right. now exists td.
Qed.

Lemma process_final_item_cases (now_iso source : string) (data : json) (st : state) :
  process_final_item now_iso source data st = st \/
  exists td l, (0.25 <=? calculate_final_score td) = true /\
    process_final_item now_iso source data st = discover_final_whale now_iso td source l st.
Proof.
  unfold process_final_item. destruct data; try now left.
  destruct (25 <? length l)%nat; [|now left].
  destruct (parse_final_token_array_cases now_iso l source st) as [H|(td & H25 & H)];
    [now left|right; eauto].
Qed.

(** X16: in the final production script the first discovery of a wallet
    is final: whatever items the queue delivers afterwards, its record,
    score included, stays as it is. *)
Theorem first_discovery_is_final (items : list queue_item) (st : state) (w : string)
    (rec : FinalWhaleDiscovery) :
  discovered_whales st !! w = Some rec ->
  discovered_whales (process_final_queue items st) !! w = Some rec.
Proof.
  unfold process_final_queue. revert st. induction items as [|it items IH]; intros st H.
  - exact H.
  - simpl. apply IH.
    destruct (process_final_item_cases (qi_now_iso it) (qi_source it) (qi_data it) st)
      as [->|(td & l & _ & ->)]; [exact H|].
    now apply discover_final_whale_keeps.
Qed.

Lemma calculate_final_score_of_volume (td : token_data) :
  calculate_final_score td = score_of_volume (td_volume_sol td).
Proof. reflexivity. Qed.

Lemma discover_final_whale_invariant (now_iso : string) (td : token_data) (source : string)
    (raw_array : list json) (st : state) :
  (0.25 <=? calculate_final_score td) = true ->
  store_invariant st -> store_invariant (discover_final_whale now_iso td source raw_array st).
Proof.
  intros H25 Hinv. pose proof Hinv as (I1 & I2 & I3 & I4 & I5). unfold discover_final_whale.
  destruct (discovered_whales st !! td_creator_address td) as [existing|] eqn:E;
    [exact Hinv|].
  set (w := td_creator_address td) in *.
  assert (Hfresh : ~ In w (tracked_wallets st)).
  { intros Hin. apply I4 in Hin. rewrite E in Hin. now destruct Hin. }
  cbn [confidence_score].
  match goal with
  | |- context [auto_add_final_whale ?x _] => set (whale := x)
  end.
  destruct (0.45 <=? calculate_final_score td) eqn:E45;
    unfold store_invariant, auto_add_final_whale;
    cbn [discovered_whales tracked_wallets whales_discovered auto_added wallet_address];
    (split; [|split; [|split; [|split]]]);
    try (rewrite map_size_insert_None by assumption; lia); try assumption.
  - rewrite length_app. cbn. lia.
  - apply NoDup_app. split; [assumption|]. split.
    + intros x Hx Hx'. apply list_elem_of_In in Hx, Hx'. destruct Hx' as [<-|[]]. contradiction.
    + apply NoDup_singleton.
  - intros w0 Hin. apply in_app_or in Hin. destruct (decide (w = w0)) as [<-|Hne].
    + rewrite lookup_insert_eq. eauto.
    + rewrite lookup_insert_ne by assumption.
      destruct Hin as [Hin|[Heq|[]]]; [now apply I4|contradiction].
  - intros w0 rec Hl. destruct (decide (w = w0)) as [<-|Hne].
    + rewrite lookup_insert_eq in Hl. injection Hl as <-. cbn.
      repeat split; auto. intros _. apply in_or_app. right. now left.
    + rewrite lookup_insert_ne in Hl by assumption.
      destruct (I5 w0 rec Hl) as (Ha & Hs & Hq & Ht). repeat split; auto.
      * intros Hin. apply in_app_or in Hin. destruct Hin as [Hin|[Heq|[]]];
          [now apply Ht|contradiction].
      * intros H45. apply in_or_app. left. now apply Ht.
  - intros w0 Hin. destruct (decide (w = w0)) as [<-|Hne]; [contradiction|].
    rewrite lookup_insert_ne by assumption. now apply I4.
  - intros w0 rec Hl. destruct (decide (w = w0)) as [<-|Hne].
    + rewrite lookup_insert_eq in Hl. injection Hl as <-. cbn.
      repeat split; auto; try contradiction; try congruence.
    + rewrite lookup_insert_ne in Hl by assumption. now apply I5.
Qed.

Lemma store_invariant_final_init : store_invariant init.
Proof.
  unfold store_invariant, init.
  cbn [discovered_whales tracked_wallets whales_discovered auto_added].
  split; [now rewrite map_size_empty|]. split; [reflexivity|]. split; [constructor|]. split.
  - intros w [].
  - intros w rec Hl. rewrite lookup_empty in Hl. discriminate.
Qed.

Lemma process_final_queue_invariant (items : list queue_item) (st : state) :
  store_invariant st -> store_invariant (process_final_queue items st).
Proof.
  unfold process_final_queue. revert st. induction items as [|it items IH]; intros st H.
  - exact H.
  - simpl. apply IH.
    destruct (process_final_item_cases (qi_now_iso it) (qi_source it) (qi_data it) st)
      as [->|(td & l & H25 & ->)]; [exact H|].
    now apply discover_final_whale_invariant.
Qed.

(** X17: over any run of the queue from a fresh object, every record of
    the final production script sits under its own address, its score is
    the volume score of its own volume and is at least 0.25, and a wallet
    is tracked exactly when the score of its record is at least 0.45;
    [whales_discovered] counts the records and [auto_added] the tracked
    wallets, none of them twice. *)
Theorem final_store_is_settled_at_creation (items : list queue_item) :
  let st := process_final_queue items init in
  (forall w rec, discovered_whales st !! w = Some rec ->
     wallet_address rec = w /\
     confidence_score rec = score_of_volume (volume_sol rec) /\
     (0.25 <=? confidence_score rec) = true /\
     (In w (tracked_wallets st) <-> (0.45 <=? confidence_score rec) = true)) /\
  whales_discovered st = Z.of_nat (size (discovered_whales st)) /\
  auto_added st = Z.of_nat (length (tracked_wallets st)) /\
  NoDup (tracked_wallets st).
Proof.
  intros st.
  destruct (process_final_queue_invariant items init store_invariant_final_init)
    as (I1 & I2 & I3 & I4 & I5).
  split; [exact I5|]. split; [exact I1|]. split; [exact I2|exact I3].
Qed.

(** X18: an array whose volume cannot be read is dropped without a
    trace: when position 17 holds [None], a list, a dict, text that
    [float] rejects or an integer beyond the floats, or NaN, or when the
    array has no position 17, [parse_final_token_array] leaves the state
    as it is. *)
Theorem unreadable_volume_is_dropped (now_iso : string) (token_array : list json)
    (source : string) (st : state) :
  (length token_array <= 17)%nat \/
  match float_ (nth 17 token_array JNull) with
  | Ok v => is_nan v = true
  | Raise _ => True
  end ->
  parse_final_token_array now_iso token_array source st = st.
Proof.
  intros H. unfold parse_final_token_array, token_data_of_array.
  destruct (Nat.ltb_spec 17 (length token_array)) as [Hlen|Hlen].
  - destruct H as [H|H]; [lia|].
    destruct (float_ (nth 17 token_array JNull)) as [v|e]; cbn [bind try_except];
      [|reflexivity].
    apply is_nan_eq in H. subst v. reflexivity.
  - reflexivity.
Qed.

End FinalStore.

(** ** The scorer and the store of the enhanced script *)
Section EnhancedStore.
Import Py enhanced_whale_discovery.
Context {B : Builtins}.
Local Open Scope float_scope.

Lemma add_nan_l (x y : float) : is_nan x = true -> is_nan (x + y) = true.
Proof.
  intros H. apply nan_is_nan. rewrite FloatAxioms.add_spec, (is_nan_true x H). reflexivity.
Qed.

Lemma calculate_enhanced_whale_score_le_1 (td : token_data) :
  (calculate_enhanced_whale_score td <=? 1) = true.
Proof.
  unfold calculate_enhanced_whale_score, Py.min.
  match goal with
  | |- context [if ?s <? 1.0 then _ else _] => destruct (s <? 1.0) eqn:E
  end.
  - now apply ltb_leb.
  - reflexivity.
Qed.

Lemma nan_volume_score (td : token_data) :
  is_nan (td_volume_sol td) = true -> calculate_enhanced_whale_score td = 1.
Proof.
  intros H. apply is_nan_eq in H. unfold calculate_enhanced_whale_score. rewrite H.
  replace (if 10000 <=? nan then 1.0
           else if 1000 <=? nan then 0.8 + (nan - 1000) / 45000
                else if 100 <=? nan then 0.5 + (nan - 100) / 4500 else nan / 200)
    with nan by reflexivity.
  replace (nan * 0.6) with nan by reflexivity.
  unfold Py.min at 1.
  match goal with
  | |- context [if ?s <? 1.0 then _ else _] =>
      assert (Hs : is_nan s = true) by (repeat apply add_nan_l; reflexivity);
      destruct (nan_ltb s 1.0 Hs) as [-> _]
  end.
  reflexivity.
Qed.

(** X19: a NaN volume gets the top score.  Every comparison of the
    volume branches fails on NaN, NaN goes through the weighted sum, and
    [min(1.0, NaN)] is 1.0: an array of at least 25 elements whose
    position 17 reads as NaN and whose creator is not in the store yet is
    recorded with confidence 1.0 and promoted to the tracked wallets. *)
Theorem nan_volume_is_promoted (now_iso : string) (token_array : list json) (st : state)
    (wallet token : string) :
  (25 <= length token_array)%nat ->
  item token_array 1 = JStr token ->
  item token_array 2 = JStr wallet ->
  is_nan (safe_float (item token_array 17)) = true ->
  discovered_whales st !! wallet = None ->
  exists st' rec,
    parse_token_array default_config now_iso token_array st = Some st' /\
    discovered_whales st' !! wallet = Some rec /\
    confidence_score rec = 1 /\ auto_added rec = true /\
    tracked_wallets st' = tracked_wallets st ++ [wallet].
Proof.
  intros Hlen Htoken Hwallet Hnan Hnew. unfold parse_token_array.
  destruct (Nat.ltb_spec (length token_array) 25) as [Hlt|_]; [lia|].
  unfold process_parsed_token.
  rewrite (nan_volume_score (token_data_of_array token_array)) by exact Hnan.
  replace (discovery_threshold default_config <=? 1) with true by reflexivity.
  cbn [td_creator_address td_token_address token_data_of_array].
  rewrite Hwallet, Htoken. unfold process_whale_discovery. cbn [wallet_address].
  rewrite Hnew. cbn [confidence_score].
  replace (auto_add_threshold default_config <=? 1) with true by reflexivity.
  eexists _, _. split; [reflexivity|]. unfold auto_add_whale.
  cbn [discovered_whales tracked_wallets].
  rewrite lookup_alter_eq, lookup_insert_eq. cbn.
  repeat split; reflexivity.
Qed.

Lemma process_whale_discovery_invariant (cfg : config) (whale : WhaleDiscovery) (st : state) :
  (discovery_threshold cfg <=? confidence_score whale) = true ->
  (confidence_score whale <=? 1) = true ->
  auto_added whale = false ->
  promotion_invariant st -> store_invariant cfg st ->
  store_invariant cfg (process_whale_discovery cfg whale st).
Proof.
  intros Hd H1 Hflag (_ & Hdom & _) Hinv. pose proof Hinv as (I1 & I2).
  unfold process_whale_discovery. set (wallet := wallet_address whale).
  destruct (discovered_whales st !! wallet) as [existing|] eqn:E.
  - destruct (confidence_score existing <? confidence_score whale) eqn:Eu; [|exact Hinv].
    unfold store_invariant. cbn [discovered_whales whales_discovered tracked_wallets]. split.
    + rewrite map_size_insert_Some by eauto. exact I1.
    + intros w rec Hl. destruct (decide (wallet = w)) as [<-|Hne].
      * rewrite lookup_insert_eq in Hl. injection Hl as <-. cbn.
        destruct (I2 wallet existing E) as (Ha & _ & _ & Ht & Hthr).
        repeat split; auto; try apply Ht.
        intros Hf. apply ltb_leb. eapply leb_ltb_trans; [now apply Hthr|exact Eu].
      * rewrite lookup_insert_ne in Hl by assumption. now apply I2.
  - assert (Hfresh : ~ In wallet (tracked_wallets st)).
    { intros Hin. apply Hdom in Hin. rewrite E in Hin. now destruct Hin. }
    destruct (auto_add_threshold cfg <=? confidence_score whale) eqn:Ea;
      unfold store_invariant, auto_add_whale;
      cbn [discovered_whales whales_discovered tracked_wallets]; rewrite ?alter_insert_eq;
      split; try (rewrite map_size_insert_None by assumption; lia).
    + intros w rec Hl. destruct (decide (wallet = w)) as [<-|Hne].
      * rewrite lookup_insert_eq in Hl. injection Hl as <-. cbn.
        repeat split; auto. intros _. apply in_or_app. right. now left.
      * rewrite lookup_insert_ne in Hl by assumption.
        destruct (I2 w rec Hl) as (Ha & Hq & Hle & Ht & Hthr). repeat split; auto.
        -- intros Hf. apply in_or_app. left. now apply Ht.
        -- intros Hin. apply in_app_or in Hin. destruct Hin as [Hin|[Heq|[]]];
             [now apply Ht|contradiction].
    + intros w rec Hl. destruct (decide (wallet = w)) as [<-|Hne].
      * rewrite lookup_insert_eq in Hl. injection Hl as <-.
        repeat split; auto; try congruence; try contradiction.
      * rewrite lookup_insert_ne in Hl by assumption. now apply I2.
Qed.

Lemma parse_token_array_invariant (cfg : config) (now_iso : string) (token_array : list json)
    (st st' : state) :
  parse_token_array cfg now_iso token_array st = Some st' ->
  promotion_invariant st /\ store_invariant cfg st ->
  promotion_invariant st' /\ store_invariant cfg st'.
Proof.
  unfold parse_token_array, process_parsed_token.
  destruct (length token_array <? 25)%nat; [now intros [= <-]|].
  set (td := token_data_of_array token_array). clearbody td.
  destruct (discovery_threshold cfg <=? calculate_enhanced_whale_score td) eqn:Hd;
    [|now intros [= <-]].
  destruct (td_creator_address td) as [| | | |wallet|l|d]; try discriminate;
    try (now intros [= <-]).
  destruct (td_token_address td) as [| | | |token|l|d]; try discriminate.
  intros [= <-] [Hp Hs]. split.
  - now apply promotion_invariant_step.
  - apply process_whale_discovery_invariant; auto.
    apply calculate_enhanced_whale_score_le_1.
Qed.

Lemma parse_all_invariant (cfg : config) (arrays : list (string * list json)) (st st' : state) :
  parse_all cfg arrays st = Some st' ->
  promotion_invariant st /\ store_invariant cfg st ->
  promotion_invariant st' /\ store_invariant cfg st'.
Proof.
  revert st. induction arrays as [|[now_iso token_array] arrays IH]; intros st; simpl.
  - now intros [= <-].
  - destruct (parse_token_array cfg now_iso token_array st) as [st1|] eqn:E; [|discriminate].
    intros H Hinv. apply (IH st1 H). now apply (parse_token_array_invariant _ _ _ _ _ E).
Qed.

(** X20: over any run of [parse_token_array] from an empty store, every
    record sits under its own address with a score between the discovery
    threshold 0.25 and 1, its [auto_added] flag tells whether the wallet
    is among the tracked ones, and a flagged record has a score of at
    least 0.45; [whales_discovered] counts the records. *)
Theorem enhanced_store_keeps_its_thresholds (arrays : list (string * list json)) (st : state) :
  parse_all default_config arrays init = Some st ->
  (forall w rec, discovered_whales st !! w = Some rec ->
     wallet_address rec = w /\
     (0.25 <=? confidence_score rec) = true /\ (confidence_score rec <=? 1) = true /\
     (auto_added rec = true <-> In w (tracked_wallets st)) /\
     (auto_added rec = true -> (0.45 <=? confidence_score rec) = true)) /\
  whales_discovered st = Z.of_nat (size (discovered_whales st)).
Proof.
  intros H.
  destruct (parse_all_invariant default_config arrays init st H) as [_ [I1 I2]].
  - split; [apply promotion_invariant_init|]. split.
    + cbn. now rewrite map_size_empty.
    + intros w rec Hl. cbn in Hl. rewrite lookup_empty in Hl. discriminate.
  - split; [exact I2|exact I1].
Qed.

End EnhancedStore.

(** ** NaN in the two scorers *)
Section NaNInScores.
Import Py.
Local Open Scope float_scope.

(** X21: in [calculate_whale_confidence] a NaN liquidity and a NaN
    snipers percentage add nothing: every comparison of their ladders
    fails, so the token scores as it does with 0 in their place.  (The
    room-message parser passes NaN on; a NaN dev percentage is not
    harmless in this way: it loses the 0.1 that a percentage of at most 5
    earns.) *)
Theorem nan_adds_nothing_to_the_confidence (td : ultimate_whale_discovery.token_data) :
  ultimate_whale_discovery.calculate_whale_confidence td
  = ultimate_whale_discovery.calculate_whale_confidence
      (ultimate_whale_discovery.without_nan td).
Proof.
  unfold ultimate_whale_discovery.calculate_whale_confidence,
    ultimate_whale_discovery.without_nan, ultimate_whale_discovery.zero_if_nan.
  cbn [ultimate_whale_discovery.td_liquidity_sol
       ultimate_whale_discovery.td_snipers_hold_percent
       ultimate_whale_discovery.td_dev_holds_percent ultimate_whale_discovery.td_lp_burned
       ultimate_whale_discovery.td_platform ultimate_whale_discovery.td_website
       ultimate_whale_discovery.td_twitter ultimate_whale_discovery.td_telegram].
  generalize (ultimate_whale_discovery.td_liquidity_sol td). intros liq.
  destruct (ultimate_whale_discovery.td_snipers_hold_percent td) as [snipers|];
    cbn [option_map default].
  - destruct (is_nan liq) eqn:El, (is_nan snipers) eqn:Es;
      try (apply is_nan_eq in El; subst liq); try (apply is_nan_eq in Es; subst snipers);
      reflexivity.
  - destruct (is_nan liq) eqn:El; try (apply is_nan_eq in El; subst liq); reflexivity.
Qed.

(** X22: in [calculate_enhanced_whale_score] a NaN market cap and a NaN
    liquidity count as the full sub-score: [min(1.0, NaN)] is 1.0, so the
    token scores as it does with a market cap of 5000 and a liquidity of
    1000 in their place. *)
Theorem nan_counts_as_the_full_subscore (td : enhanced_whale_discovery.token_data) :
  enhanced_whale_discovery.calculate_enhanced_whale_score td
  = enhanced_whale_discovery.calculate_enhanced_whale_score
      (enhanced_whale_discovery.nan_as_full td).
Proof.
  unfold enhanced_whale_discovery.calculate_enhanced_whale_score,
    enhanced_whale_discovery.nan_as_full.
  cbn [enhanced_whale_discovery.td_volume_sol enhanced_whale_discovery.td_market_cap_sol
       enhanced_whale_discovery.td_liquidity_sol enhanced_whale_discovery.td_verified_contract
       enhanced_whale_discovery.td_website enhanced_whale_discovery.td_twitter
       enhanced_whale_discovery.td_telegram].
  generalize (enhanced_whale_discovery.td_market_cap_sol td)
    (enhanced_whale_discovery.td_liquidity_sol td). intros mc liq.
  assert (Hmc : Py.min 1.0 ((if is_nan mc then 5000 else mc) / 5000) = Py.min 1.0 (mc / 5000)).
  { destruct (is_nan mc) eqn:E; [|reflexivity]. apply is_nan_eq in E. now subst mc. }
  assert (Hliq : Py.min 1.0 ((if is_nan liq then 1000 else liq) / 1000)
                 = Py.min 1.0 (liq / 1000)).
  { destruct (is_nan liq) eqn:E; [|reflexivity]. apply is_nan_eq in E. now subst liq. }
  now rewrite Hmc, Hliq.
Qed.

End NaNInScores.

(** ** The wait a denial reports *)
Section ReportedWait.
Import Py ultimate_whale_discovery_safe.

Lemma int_of_Q_upper (q : Q) : (0 <= q)%Q -> (q < inject_Z (int_of_Q q + 1))%Q.
Proof.
  destruct q as [n d]. unfold Qle, Qlt, int_of_Q. simpl. intros H.
  rewrite Z.mul_1_r in *. rewrite Z.quot_div_nonneg by lia.
  pose proof (Z.mul_succ_div_gt n (Z.pos d) ltac:(lia)) as Hgt.
  unfold Z.succ in Hgt. lia.
Qed.

(** X23: the wait that a denial of [can_attempt_connection] reports is
    truncated to whole seconds: one second more than reported always
    clears the 30-second interval, so that the next check does not
    answer with a wait again, whatever else it answers. *)
Theorem reported_wait_plus_one_suffices (now now' : Q) (st : state) (remaining : Z) :
  limits st = default_rate_limits ->
  snd (snd (can_attempt_connection now st)) = RateLimitWait remaining ->
  (now + inject_Z (remaining + 1) <= now')%Q ->
  wait_seconds (snd (snd (can_attempt_connection now' (fst (can_attempt_connection now st)))))
  = None.
Proof.
  intros Hl. unfold can_attempt_connection at 1 3. cbn [limits with_connection_attempts
    last_connection_attempt rate_limit_detected]. rewrite Hl.
  cbn [connection_attempts_per_minute min_connection_interval default_rate_limits].
  destruct (3 <=? _)%Z; [discriminate|].
  destruct (Qltb (now - last_connection_attempt st) (inject_Z 30)) eqn:Hint.
  2: { destruct (rate_limit_detected st); discriminate. }
  cbn [fst snd]. intros [= <-] Hnow'.
  unfold can_attempt_connection. cbn [limits with_connection_attempts
    last_connection_attempt rate_limit_detected connection_attempts]. rewrite Hl.
  cbn [connection_attempts_per_minute min_connection_interval default_rate_limits].
  destruct (3 <=? _)%Z; [reflexivity|].
  apply Qltb_true in Hint. change (inject_Z 30) with 30%Q in *.
  pose proof (int_of_Q_upper (30 - (now - last_connection_attempt st)) ltac:(lra)) as Hup.
  rewrite (Qltb_ge (now' - last_connection_attempt st) 30) by lra.
  destruct (rate_limit_detected st); reflexivity.
Qed.

End ReportedWait.

(** ** The theorems at closed inputs *)

Lemma governor_never_denies_the_strategy_witness :
  ultimate_whale_discovery_safe.attempted
    (snd (ultimate_whale_discovery_safe.safe_single_endpoint_strategy
            rate_limited_round timed_out_round ultimate_whale_discovery_safe.new_session))
  = ["eucalyptus"; "cluster7"]%string.
Proof.
  refine (proj1 (governor_never_denies_the_strategy rate_limited_round timed_out_round
                   eq_refl eq_refl _ eq_refl _));
    simpl; lra.
Defined.

Example rate_limited_first_endpoint :
  snd (ultimate_whale_discovery_safe.safe_single_endpoint_strategy
         rate_limited_round timed_out_round ultimate_whale_discovery_safe.new_session)
  = [ultimate_whale_discovery_safe.Attempt "eucalyptus" false;
     ultimate_whale_discovery_safe.Cooldown 2;
     ultimate_whale_discovery_safe.Backoff 60;
     ultimate_whale_discovery_safe.Attempt "cluster7" false;
     ultimate_whale_discovery_safe.Backoff 60]%string.
Proof. vm_compute. reflexivity. Qed.

(** The liquid array is recorded with confidence 0.7000000000000001 and
    its creator promoted; Scenario A, with liquidity 250.5, is recorded
    with 0.6500000000000001 and not promoted. *)
Example liquid_array_is_promoted :
  option_map (fun st => ultimate_whale_discovery.tracked_wallets st)
    (ultimate_whale_discovery.process_token_array (B := no_text_builtins)
       4 liquid_array "cluster7" (ultimate_whale_discovery.init 0))
  = Some ["LiquidCreator"%string] /\
  option_map (fun st => ultimate_whale_discovery.tracked_wallets st)
    (ultimate_whale_discovery.process_token_array (B := no_text_builtins)
       4 scenario_A_array "cluster7" (ultimate_whale_discovery.init 0))
  = Some [] /\
  ultimate_whale_discovery.calculate_whale_confidence
    (ultimate_whale_discovery.token_data_of_array (B := no_text_builtins)
       4 "cluster7" liquid_array)
  = Py.Ok 0.7000000000000001%float.
Proof. repeat split; vm_compute; reflexivity. Qed.

Lemma unreadable_token_drops_the_rest_witness :
  ultimate_whale_discovery.process_sdk_new_pairs (B := no_text_builtins) 1
    (Py.JList (mixed_tokens_prefix ++ Py.JDict numeric_protocol_token :: mixed_tokens_rest))
    "cluster7" (ultimate_whale_discovery.init 0)
  = ultimate_whale_discovery.process_sdk_new_pairs (B := no_text_builtins) 1
      (Py.JList mixed_tokens_prefix) "cluster7" (ultimate_whale_discovery.init 0).
Proof.
  exact (proj1 (unreadable_token_drops_the_rest (B := no_text_builtins) 1 "cluster7"
                  mixed_tokens_prefix mixed_tokens_rest numeric_protocol_token
                  (ultimate_whale_discovery.init 0) eq_refl)).
Defined.

(** The third token of the message would have been recorded and
    promoted on its own; behind the unreadable token it is not. *)
Example token_after_unreadable_one_is_lost :
  option_map (fun st => ultimate_whale_discovery.tracked_wallets st)
    (ultimate_whale_discovery.process_sdk_new_pairs (B := no_text_builtins) 1
       (Py.JList (mixed_tokens_prefix ++ Py.JDict numeric_protocol_token :: mixed_tokens_rest))
       "cluster7" (ultimate_whale_discovery.init 0))
  = Some ["CreatorAddr"%string] /\
  option_map (fun st => ultimate_whale_discovery.tracked_wallets st)
    (ultimate_whale_discovery.process_sdk_new_pairs (B := no_text_builtins) 1
       (Py.JList (mixed_tokens_prefix ++ mixed_tokens_rest))
       "cluster7" (ultimate_whale_discovery.init 0))
  = Some ["CreatorAddr"; "ThirdCreator"]%string.
Proof. split; vm_compute; reflexivity. Qed.

Lemma discoveries_are_never_lost_witness :
  exists rec st',
    ultimate_whale_discovery.discovered_whales first_coin_state !! "W"%string = Some rec /\
    ultimate_whale_discovery.listen_all (B := no_text_builtins) raising_frames "cluster7"
      first_coin_state = Some st' /\
    exists rec',
      ultimate_whale_discovery.discovered_whales st' !! "W"%string = Some rec' /\
      ultimate_whale_discovery.same_or_raised rec rec'.
Proof.
  eexists _, _. split; [vm_compute; reflexivity|]. split; [vm_compute; reflexivity|].
  apply (discoveries_are_never_lost (B := no_text_builtins) raising_frames "cluster7"
           first_coin_state _ "W"); vm_compute; reflexivity.
Defined.

(** The second coin of creator ["W"] raises the score to 1.0 and leaves
    the first coin in the record. *)
Example raised_record_keeps_its_token :
  option_map
    (fun st =>
       option_map (fun rec => (ultimate_whale_discovery.confidence_score rec,
                               ultimate_whale_discovery.token_name rec))
         (ultimate_whale_discovery.discovered_whales st !! "W"%string))
    (ultimate_whale_discovery.listen_all (B := no_text_builtins) raising_frames "cluster7"
       first_coin_state)
  = Some (Some (1.0%float, Py.JStr "First Coin")).
Proof. vm_compute. reflexivity. Qed.

Lemma counters_match_the_store_witness :
  exists st,
    ultimate_whale_discovery.listen_all (B := no_text_builtins) run_frames "cluster7"
      (ultimate_whale_discovery.init 0) = Some st /\
    (ultimate_whale_discovery.messages_received (ultimate_whale_discovery.metrics_of st)
     = Z.of_nat (length run_frames) /\
     ultimate_whale_discovery.whales_discovered (ultimate_whale_discovery.metrics_of st)
     = Z.of_nat (size (ultimate_whale_discovery.discovered_whales st)) /\
     ultimate_whale_discovery.auto_added (ultimate_whale_discovery.metrics_of st)
     = Z.of_nat (length (ultimate_whale_discovery.tracked_wallets st)) /\
     NoDup (ultimate_whale_discovery.tracked_wallets st)).
Proof.
  eexists. split; [vm_compute; reflexivity|].
  apply (counters_match_the_store (B := no_text_builtins) run_frames "cluster7" 0).
  vm_compute. reflexivity.
Defined.

Lemma stored_scores_pass_their_thresholds_witness :
  exists st,
    ultimate_whale_discovery.listen_all (B := no_text_builtins) run_frames "cluster7"
      (ultimate_whale_discovery.init 0) = Some st /\
    ((forall w rec, ultimate_whale_discovery.discovered_whales st !! w = Some rec ->
        ultimate_whale_discovery.whale_address rec = w /\
        (0.4 <? ultimate_whale_discovery.confidence_score rec)%float = true /\
        (ultimate_whale_discovery.confidence_score rec <=? 1)%float = true) /\
     (forall w, In w (ultimate_whale_discovery.tracked_wallets st) ->
        exists rec, ultimate_whale_discovery.discovered_whales st !! w = Some rec /\
                    (0.7 <? ultimate_whale_discovery.confidence_score rec)%float = true)).
Proof.
  eexists. split; [vm_compute; reflexivity|].
  apply (stored_scores_pass_their_thresholds (B := no_text_builtins) run_frames "cluster7" 0).
  vm_compute. reflexivity.
Defined.

Example run_frames_counters :
  option_map (fun st => (ultimate_whale_discovery.metrics_of st,
                         ultimate_whale_discovery.tracked_wallets st))
    (ultimate_whale_discovery.listen_all (B := no_text_builtins) run_frames "cluster7"
       (ultimate_whale_discovery.init 0))
  = Some ({| ultimate_whale_discovery.messages_received := 4;
             ultimate_whale_discovery.whales_discovered := 2;
             ultimate_whale_discovery.auto_added := 2;
             ultimate_whale_discovery.start_time := 0;
             ultimate_whale_discovery.last_whale_time := 4 |},
          ["CreatorAddr"; "LiquidCreator"]%string).
Proof. vm_compute. reflexivity. Qed.

Lemma first_discovery_is_final_witness :
  exists rec,
    final_production_whale_discovery.discovered_whales
      (final_production_whale_discovery.process_final_queue (B := no_text_builtins)
         first_final_items final_production_whale_discovery.init) !! "CreatorAddr"%string
    = Some rec /\
    final_production_whale_discovery.discovered_whales
      (final_production_whale_discovery.process_final_queue (B := no_text_builtins)
         later_final_items
         (final_production_whale_discovery.process_final_queue (B := no_text_builtins)
            first_final_items final_production_whale_discovery.init)) !! "CreatorAddr"%string
    = Some rec.
Proof.
  eexists. split; [vm_compute; reflexivity|].
  apply (first_discovery_is_final (B := no_text_builtins)). vm_compute. reflexivity.
Defined.

Lemma unreadable_volume_is_dropped_witness :
  final_production_whale_discovery.parse_final_token_array (B := no_text_builtins)
    "2025-08-14T04:07:01" (scenario_A_with_volume (Py.JStr "n/a")) "cluster7"
    final_production_whale_discovery.init
  = final_production_whale_discovery.init.
Proof.
  apply (unreadable_volume_is_dropped (B := no_text_builtins)). right. exact I.
Defined.

Lemma nan_volume_is_promoted_witness :
  exists st' rec,
    enhanced_whale_discovery.parse_token_array (B := no_text_builtins)
      enhanced_whale_discovery.default_config "2025-08-14T04:07:01"
      (scenario_A_with_volume (Py.JFloat nan)) enhanced_whale_discovery.init = Some st' /\
    enhanced_whale_discovery.discovered_whales st' !! "CreatorAddr"%string = Some rec /\
    enhanced_whale_discovery.confidence_score rec = 1%float /\
    enhanced_whale_discovery.auto_added rec = true /\
    enhanced_whale_discovery.tracked_wallets st'
    = enhanced_whale_discovery.tracked_wallets enhanced_whale_discovery.init
      ++ ["CreatorAddr"%string].
Proof.
  apply (nan_volume_is_promoted (B := no_text_builtins) "2025-08-14T04:07:01"
           (scenario_A_with_volume (Py.JFloat nan)) enhanced_whale_discovery.init
           "CreatorAddr" "TokAddr");
    try reflexivity.
  vm_compute. lia.
Defined.

(** The final production script ignores the same array. *)
Example nan_volume_in_the_final_script :
  final_production_whale_discovery.parse_final_token_array (B := no_text_builtins)
    "2025-08-14T04:07:01" (scenario_A_with_volume (Py.JFloat nan)) "cluster7"
    final_production_whale_discovery.init
  = final_production_whale_discovery.init.
Proof. reflexivity. Qed.

Lemma enhanced_store_keeps_its_thresholds_witness :
  exists st,
    enhanced_whale_discovery.parse_all (B := no_text_builtins)
      enhanced_whale_discovery.default_config enhanced_arrays enhanced_whale_discovery.init
    = Some st /\
    ((forall w rec, enhanced_whale_discovery.discovered_whales st !! w = Some rec ->
        enhanced_whale_discovery.wallet_address rec = w /\
        (0.25 <=? enhanced_whale_discovery.confidence_score rec)%float = true /\
        (enhanced_whale_discovery.confidence_score rec <=? 1)%float = true /\
        (enhanced_whale_discovery.auto_added rec = true
         <-> In w (enhanced_whale_discovery.tracked_wallets st)) /\
        (enhanced_whale_discovery.auto_added rec = true ->
         (0.45 <=? enhanced_whale_discovery.confidence_score rec)%float = true)) /\
     enhanced_whale_discovery.whales_discovered st
     = Z.of_nat (size (enhanced_whale_discovery.discovered_whales st))).
Proof.
  eexists. split; [vm_compute; reflexivity|].
  apply (enhanced_store_keeps_its_thresholds (B := no_text_builtins) enhanced_arrays).
  vm_compute. reflexivity.
Defined.

Lemma reported_wait_plus_one_suffices_witness :
  ultimate_whale_discovery_safe.wait_seconds
    (snd (snd (ultimate_whale_discovery_safe.can_attempt_connection (261 # 2)
                 (fst (ultimate_whale_discovery_safe.can_attempt_connection (201 # 2)
                         (ultimate_whale_discovery_safe.one_attempt 100))))))
  = None.
Proof.
  apply (reported_wait_plus_one_suffices (201 # 2) (261 # 2)
           (ultimate_whale_discovery_safe.one_attempt 100) 29 eq_refl eq_refl).
  vm_compute. discriminate.
Defined.

(** Half a second after an attempt the denial reports 29 seconds; 29
    seconds later the check denies again and reports 0 seconds. *)
Example reported_wait_can_be_short :
  snd (ultimate_whale_discovery_safe.can_attempt_connection (201 # 2)
         (ultimate_whale_discovery_safe.one_attempt 100))
  = (false, ultimate_whale_discovery_safe.RateLimitWait 29) /\
  snd (ultimate_whale_discovery_safe.can_attempt_connection (259 # 2)
         (fst (ultimate_whale_discovery_safe.can_attempt_connection (201 # 2)
                 (ultimate_whale_discovery_safe.one_attempt 100))))
  = (false, ultimate_whale_discovery_safe.RateLimitWait 0).
Proof. split; vm_compute; reflexivity. Qed.
